(** * AgentThink RAG service: chunking engine and document processor

    A shallow embedding of [app/services/chunker.py] and
    [app/services/processor.py], with the properties of the design
    document proved (or refuted) on it; then of the services the
    processor calls, [app/services/vector_store.py] and
    [app/services/embedder.py], and of their wiring in [app/main.py],
    with further properties of the code.

    Conventions of the embedding:
    - a Python [str] is a [string] of 8-bit characters, read as the code
      points U+0000..U+00FF; the character classes of [re] and of
      [str.strip]/[str.lower] are the Unicode ones restricted to that range;
    - a Python [int] is a [Z]; [len] is [String.length] or [List.length]
      injected into [Z];
    - a [dict] with open keys is a [gmap string _], a [set] of strings a
      [gset string]; a dict literal with fixed keys is a record;
    - [uuid.uuid4()] draws from an explicit entropy source that is threaded
      through the code;
    - the services the processor calls (parser, chunker, embedder, vector
      store) are operations on an abstract world that return normally or
      raise, an instance of [Exception] or some other [BaseException]; the
      processor runs in a state-and-exception monad;
    - the Qdrant client and the sentence-transformers model are abstract
      in the same way; the parser, which reads files through the PDF, DOCX
      and CSV libraries, is not embedded. *)

From Stdlib Require Import ZArith Lia Bool Ascii List DecimalString.
From Stdlib Require String.
From stdpp Require Import base gmap strings list.

Local Open Scope Z_scope.

(** ** Characters *)

Module Char.

Definition code (c : ascii) : N := N_of_ascii c.

Definition in_range (lo hi : N) (c : ascii) : bool :=
  ((lo <=? code c) && (code c <=? hi))%N.

(** [Py_UNICODE_ISSPACE]: what [\s] and [str.strip()] take for whitespace. *)
Definition is_space (c : ascii) : bool :=
  in_range 9 13 c || in_range 28 32 c
  || (code c =? 133)%N || (code c =? 160)%N.

(** [\d] on a [str] pattern: the decimal digits (category Nd). *)
Definition is_digit (c : ascii) : bool := in_range 48 57 c.

(** [[A-Z]] *)
Definition is_upper_AZ (c : ascii) : bool := in_range 65 90 c.

(** [[.!?]] *)
Definition is_terminator (c : ascii) : bool :=
  Ascii.eqb c "." || Ascii.eqb c "!" || Ascii.eqb c "?".

(** [\w] on a [str] pattern: alphanumeric ([str.isalnum]) or underscore. *)
Definition is_word (c : ascii) : bool :=
  in_range 48 57 c || in_range 65 90 c || (code c =? 95)%N
  || in_range 97 122 c
  || (code c =? 170)%N || in_range 178 179 c || (code c =? 181)%N
  || in_range 185 186 c || in_range 188 190 c
  || in_range 192 214 c || in_range 216 246 c || in_range 248 255 c.

(** [str.lower()] on one character. *)
Definition lower (c : ascii) : ascii :=
  if in_range 65 90 c || in_range 192 214 c || in_range 216 222 c
  then ascii_of_N (code c + 32)
  else c.

Definition newline : ascii := "010".

End Char.

(** ** Strings *)

Module Str.

(** [len(s)] *)
Definition len (s : string) : Z := Z.of_nat (String.length s).

(** truth value of a [str] *)
Definition nonempty (s : string) : bool :=
  match s with EmptyString => false | String _ _ => true end.

Fixpoint take (n : nat) (s : string) : string :=
  match n, s with
  | S n', String c s' => String c (take n' s')
  | _, _ => EmptyString
  end.

Fixpoint drop (n : nat) (s : string) : string :=
  match n, s with
  | S n', String _ s' => drop n' s'
  | _, _ => s
  end.

(** [s[-k:]] for [k > 0]: the last [k] characters, all of [s] when it is
    shorter. *)
Definition last_chars (k : Z) (s : string) : string :=
  drop (Z.to_nat (Z.max (len s - k) 0)) s.

Fixpoint lstrip (s : string) : string :=
  match s with
  | String c s' => if Char.is_space c then lstrip s' else s
  | EmptyString => EmptyString
  end.

Fixpoint rstrip (s : string) : string :=
  match s with
  | String c s' =>
      match rstrip s' with
      | EmptyString => if Char.is_space c then EmptyString
                       else String c EmptyString
      | r => String c r
      end
  | EmptyString => EmptyString
  end.

(** [s.strip()] *)
Definition strip (s : string) : string := rstrip (lstrip s).

(** [s.lower()] *)
Fixpoint lower (s : string) : string :=
  match s with
  | String c s' => String (Char.lower c) (lower s')
  | EmptyString => EmptyString
  end.

(** [s.lstrip('.')] *)
Fixpoint lstrip_dots (s : string) : string :=
  match s with
  | String c s' => if Ascii.eqb c "." then lstrip_dots s' else s
  | EmptyString => EmptyString
  end.

(** [sep.join(parts)] *)
Fixpoint join (sep : string) (parts : list string) : string :=
  match parts with
  | [] => EmptyString
  | [p] => p
  | p :: rest => p +:+ sep +:+ join sep rest
  end.

(** [b] ends with [a] / starts with [a] *)
Definition is_suffix (a b : string) : Prop := ∃ p, b = p +:+ a.
Definition is_prefix (a b : string) : Prop := ∃ q, b = a +:+ q.

End Str.

(** ** The fragment of [re] the engine uses

    Ordered alternation, greedy repetition of a character class with
    backtracking, one-character look-behind and look-ahead, and the word
    boundary.  Matching is in continuation-passing style: [k] receives the
    character before the current position and the text from it on, and a
    failing continuation makes the repetition give a character back. *)

Module Re.

Inductive regex : Type :=
| Chr (c : ascii)              (* a literal character *)
| Lit (w : string)             (* a literal word *)
| Cls (p : ascii → bool)       (* one character of a class *)
| Star (p : ascii → bool)      (* class*, greedy *)
| Plus (p : ascii → bool)      (* class+, greedy *)
| Behind (p : ascii → bool)    (* (?<=class) *)
| Ahead (p : ascii → bool)     (* (?=class) *)
| WordB                        (* \b *)
| Cat (r1 r2 : regex)
| Alt (r1 r2 : regex).

Definition cont : Type := option ascii → string → option string.

Fixpoint greedy (p : ascii → bool) (prev : option ascii) (s : string)
    (k : cont) : option string :=
  match s with
  | String c s' =>
      if p c then
        match greedy p (Some c) s' k with
        | Some r => Some r
        | None => k prev s
        end
      else k prev s
  | EmptyString => k prev s
  end.

Fixpoint literal (w : string) (prev : option ascii) (s : string)
    (k : cont) : option string :=
  match w with
  | EmptyString => k prev s
  | String a w' =>
      match s with
      | String c s' =>
          if Ascii.eqb a c then literal w' (Some c) s' k else None
      | EmptyString => None
      end
  end.

Definition word_at (o : option ascii) : bool :=
  match o with Some c => Char.is_word c | None => false end.

Definition first_char (s : string) : option ascii :=
  match s with String c _ => Some c | EmptyString => None end.

Fixpoint run (r : regex) (prev : option ascii) (s : string) (k : cont)
    : option string :=
  match r with
  | Chr a =>
      match s with
      | String c s' => if Ascii.eqb a c then k (Some c) s' else None
      | EmptyString => None
      end
  | Lit w => literal w prev s k
  | Cls p =>
      match s with
      | String c s' => if p c then k (Some c) s' else None
      | EmptyString => None
      end
  | Star p => greedy p prev s k
  | Plus p =>
      match s with
      | String c s' => if p c then greedy p (Some c) s' k else None
      | EmptyString => None
      end
  | Behind p =>
      match prev with
      | Some c => if p c then k prev s else None
      | None => None
      end
  | Ahead p =>
      match s with
      | String c _ => if p c then k prev s else None
      | EmptyString => None
      end
  | WordB =>
      if xorb (word_at prev) (word_at (first_char s)) then k prev s
      else None
  | Cat r1 r2 => run r1 prev s (λ prev' s', run r2 prev' s' k)
  | Alt r1 r2 =>
      match run r1 prev s k with
      | Some rest => Some rest
      | None => run r2 prev s k
      end
  end.

(** Length of the match of [r] that starts at the current position. *)
Definition match_at (r : regex) (prev : option ascii) (s : string)
    : option nat :=
  match run r prev s (λ _ rest, Some rest) with
  | Some rest => Some (String.length s - String.length rest)%nat
  | None => None
  end.

(** The scan of [re.split] and [re.sub]: leftmost match first, then on
    from its end.  [skip] counts the characters of the current match that
    are still to be passed.  None of the patterns below matches the empty
    string, and an empty match is taken for no match. *)
Fixpoint split_scan (r : regex) (prev : option ascii) (s : string)
    (skip : nat) (piece : string) : list string :=
  match s with
  | EmptyString => [piece]
  | String c s' =>
      match skip with
      | S n => split_scan r (Some c) s' n piece
      | O =>
          match match_at r prev s with
          | Some (S n) => piece :: split_scan r (Some c) s' n EmptyString
          | _ => split_scan r (Some c) s' O (piece +:+ String c EmptyString)
          end
      end
  end.

(** [re.split(r, text)] for a pattern without groups *)
Definition split (r : regex) (text : string) : list string :=
  split_scan r None text O EmptyString.

Fixpoint sub_scan (r : regex) (repl : string → string)
    (prev : option ascii) (s : string) (skip : nat) : string :=
  match s with
  | EmptyString => EmptyString
  | String c s' =>
      match skip with
      | S n => sub_scan r repl (Some c) s' n
      | O =>
          match match_at r prev s with
          | Some (S n) =>
              repl (Str.take (S n) s) +:+ sub_scan r repl (Some c) s' n
          | _ => String c (sub_scan r repl (Some c) s' O)
          end
      end
  end.

(** [re.sub(r, repl, text)]; [repl] maps the matched text to what
    replaces it. *)
Definition sub (r : regex) (repl : string → string) (text : string)
    : string :=
  sub_scan r repl None text O.

(** [text.replace(old, new)] for a non-empty [old]: the same scan with a
    literal pattern. *)
Definition replace (old new : string) (text : string) : string :=
  sub (Lit old) (λ _, new) text.

End Re.

(** ** Data model ([parser.py], [chunker.py]) *)

(** Values the parser stores in a section's open [metadata] dict. *)
Inductive MetaValue : Type :=
| MStr (s : string)
| MInt (z : Z)
| MBool (b : bool)
| MStrList (l : list string).

Module ParsedSection.
Record t : Type := mk {
  content : string;
  page_number : option Z;
  section_title : option string;
  doc_type : string;
  metadata : gmap string MetaValue
}.
End ParsedSection.

Module Chunk.
(** The [metadata] dict literal built in [chunk_document]. *)
Record meta : Type := mk_meta {
  page_number : option Z;
  section_title : option string;
  chunk_index : Z;
  char_count : Z;
  token_estimate : Z;
  doc_type : string;
  is_table : bool
}.

Record t : Type := mk {
  chunk_id : string;
  content : string;
  document_id : string;
  document_name : string;
  metadata : meta
}.
End Chunk.

(** [uuid.uuid4()]: the entropy source answers the successive draws. *)
Definition Entropy : Type := nat → string.

Definition uuid4 (g : Entropy) : string * Entropy :=
  (g O, λ n, g (S n)).

(** [str(n)] for an [int] *)
Definition str_of_int (n : Z) : string :=
  DecimalString.NilZero.string_of_int (Z.to_int n).

(** ** [ChunkingEngine] *)

Module ChunkingEngine.

Record t : Type := mk {
  chunk_size_chars : Z;
  chunk_overlap_chars : Z
}.

(** token budgets to characters, four characters for a token *)
Definition __init__ (chunk_size chunk_overlap : Z) : t :=
  {| chunk_size_chars := chunk_size * 4;
     chunk_overlap_chars := chunk_overlap * 4 |}.

(** [(?<=[.!?])\s+(?=[A-Z])|(?<=[.!?])\s*\n] *)
Definition SENTENCE_SPLIT_PATTERN : Re.regex :=
  Re.Alt
    (Re.Cat (Re.Behind Char.is_terminator)
       (Re.Cat (Re.Plus Char.is_space) (Re.Ahead Char.is_upper_AZ)))
    (Re.Cat (Re.Behind Char.is_terminator)
       (Re.Cat (Re.Star Char.is_space) (Re.Chr Char.newline))).

Definition ABBREVIATIONS : gset string :=
  {[ "Mr"; "Mrs"; "Ms"; "Dr"; "Prof"; "Sr"; "Jr"; "vs"; "etc"; "Inc";
     "Ltd"; "Co" ]}.

(** [order] lists a set in an order [for x in set] may follow. *)
Definition iterates (s : gset string) (order : list string) : Prop :=
  NoDup order ∧ ∀ x, x ∈ order ↔ x ∈ s.

Definition DOT : string := "<<<DOT>>>".

(** [\n\s*\n] *)
Definition PARAGRAPH_BREAK : Re.regex :=
  Re.Cat (Re.Chr Char.newline)
    (Re.Cat (Re.Star Char.is_space) (Re.Chr Char.newline)).

(** [rf'\b{abbrev}\.'] *)
Definition abbrev_pattern (abbrev : string) : Re.regex :=
  Re.Cat Re.WordB (Re.Cat (Re.Lit abbrev) (Re.Chr ".")).

(** [(\d)\.(\d)] and its template [\1<<<DOT>>>\2]: group 1 is the first
    character of the match and group 2 the third. *)
Definition DECIMAL : Re.regex :=
  Re.Cat (Re.Cls Char.is_digit) (Re.Cat (Re.Chr ".") (Re.Cls Char.is_digit)).

Definition decimal_template (m : string) : string :=
  Str.take 1 m +:+ DOT +:+ Str.drop 2 m.

Definition _split_at_paragraphs (text : string) : list string :=
  let paragraphs := Re.split PARAGRAPH_BREAK text in
  filter (λ p, Is_true (Str.nonempty p)) (map Str.strip paragraphs).

Definition protect_abbrev (protected_text abbrev : string) : string :=
  Re.sub (abbrev_pattern abbrev) (λ _, abbrev +:+ DOT) protected_text.

Section Methods.

(** The order in which this interpreter iterates [ABBREVIATIONS]; a
    Python set of strings has no fixed one. *)
Variable abbrev_order : list string.

Definition _split_at_sentences (text : string) : list string :=
  let protected_text := fold_left protect_abbrev abbrev_order text in
  let protected_text := Re.sub DECIMAL decimal_template protected_text in
  let sentences := Re.split SENTENCE_SPLIT_PATTERN protected_text in
  let sentences := map (λ s, Str.strip (Re.replace DOT "." s)) sentences in
  filter (λ s, Is_true (Str.nonempty s)) sentences.

Variable self : t.

(** The loop of [_get_overlap_parts] over [reversed(parts)]; it ends at
    the [break] or when the parts are used up. *)
Fixpoint overlap_loop (rparts : list string) (overlap_parts : list string)
    (overlap_length : Z) : list string * Z :=
  match rparts with
  | [] => (overlap_parts, overlap_length)
  | part :: rest =>
      if overlap_length + Str.len part <=? chunk_overlap_chars self then
        overlap_loop rest (part :: overlap_parts)
          (overlap_length + (Str.len part + 2))
      else
        let remaining := chunk_overlap_chars self - overlap_length in
        if (remaining >? 0) && (Str.len part >? 0) then
          (Str.last_chars remaining part :: overlap_parts,
           overlap_length + remaining)
        else (overlap_parts, overlap_length)
  end.

Definition _get_overlap_parts (parts : list string) : list string * Z :=
  overlap_loop (rev parts) [] 0.

(** The loop state of [_combine_with_overlap]. *)
Record combine_state : Type := mk_state {
  chunks : list string;
  current_chunk_parts : list string;
  current_length : Z
}.

Definition nonempty_list {A} (l : list A) : bool :=
  match l with [] => false | _ :: _ => true end.

Definition SEP : string := String Char.newline (String Char.newline "").

Definition combine_step (st : combine_state) (part : string)
    : combine_state :=
  let part_length := Str.len part in
  let separator_length :=
    if nonempty_list (current_chunk_parts st) then 2 else 0 in
  let st1 :=
    if current_length st + separator_length + part_length
         >? chunk_size_chars self
    then
      if nonempty_list (current_chunk_parts st) then
        let chunk_text := Str.join SEP (current_chunk_parts st) in
        let '(ov, ovlen) := _get_overlap_parts (current_chunk_parts st) in
        mk_state (chunks st ++ [chunk_text]) ov ovlen
      else st
    else st in
  mk_state (chunks st1)
    (current_chunk_parts st1 ++ [part])
    (current_length st1 + (separator_length + part_length)).

Definition _combine_with_overlap (parts : list string) : list string :=
  if nonempty_list parts then
    let st := fold_left combine_step parts (mk_state [] [] 0) in
    if nonempty_list (current_chunk_parts st) then
      chunks st ++ [Str.join SEP (current_chunk_parts st)]
    else chunks st
  else [].

(** Steps 1 and 2 of [_chunk_section]: paragraphs, the long ones cut
    into sentences. *)
Definition processed_parts (content : string) : list string :=
  let paragraphs := _split_at_paragraphs content in
  flat_map
    (λ para,
       if Str.len para <=? chunk_size_chars self then [para]
       else _split_at_sentences para)
    paragraphs.

Definition _chunk_section (section : ParsedSection.t) : list string :=
  let content := ParsedSection.content section in
  if Str.len content <=? chunk_size_chars self then [content]
  else _combine_with_overlap (processed_parts content).

(** The header of a chunk: [if section.page_number] is false for [None]
    and for 0, [if section.section_title] for [None] and for the empty
    string. *)
Definition context_prefix (section : ParsedSection.t)
    (document_name : string) : string :=
  let prefix_parts :=
    ["[Document: " +:+ document_name +:+ "]"]
    ++ match ParsedSection.page_number section with
       | Some n => if n =? 0 then [] else ["[Page " +:+ str_of_int n +:+ "]"]
       | None => []
       end
    ++ match ParsedSection.section_title section with
       | Some title =>
           if Str.nonempty title then ["[Section: " +:+ title +:+ "]"]
           else []
       | None => []
       end in
  Str.join " " prefix_parts.

Definition _add_context_prefix (chunk_text : string)
    (section : ParsedSection.t) (document_name : string) : string :=
  let prefix := context_prefix section document_name in
  prefix +:+ String Char.newline chunk_text.

(** *** Vocabulary for the overlap

    [chunk_parts] is [_combine_with_overlap] with each chunk kept as the
    list of its parts, before the join. *)

Record parts_state : Type := mk_parts {
  closed_parts : list (list string);
  open_parts : list string;
  open_length : Z
}.

Definition parts_step (st : parts_state) (part : string) : parts_state :=
  let part_length := Str.len part in
  let separator_length := if nonempty_list (open_parts st) then 2 else 0 in
  let st1 :=
    if open_length st + separator_length + part_length >? chunk_size_chars self
    then
      if nonempty_list (open_parts st) then
        let '(ov, ovlen) := _get_overlap_parts (open_parts st) in
        mk_parts (closed_parts st ++ [open_parts st]) ov ovlen
      else st
    else st in
  mk_parts (closed_parts st1)
    (open_parts st1 ++ [part])
    (open_length st1 + (separator_length + part_length)).

Definition chunk_parts (parts : list string) : list (list string) :=
  if nonempty_list parts then
    let st := fold_left parts_step parts (mk_parts [] [] 0) in
    if nonempty_list (open_parts st) then closed_parts st ++ [open_parts st]
    else closed_parts st
  else [].

(** What [_get_overlap_parts] has counted after taking the parts [l] whole:
    their lengths and two characters of separator for each. *)
Fixpoint charge (l : list string) : Z :=
  match l with
  | [] => 0
  | w :: b => Str.len w + 2 + charge b
  end.

(** Each part of [l], when it was its turn (from the end), passed the test
    [overlap_length + len(part) <= chunk_overlap_chars]. *)
Fixpoint fits (l : list string) : Prop :=
  match l with
  | [] => True
  | w :: b => charge b + Str.len w <= chunk_overlap_chars self ∧ fits b
  end.

(** [ov] is what the walk from the end of [parts] collects: the longest run
    [whole] of last parts that pass the test, and, when a part [p] before
    them fails it, the last [remaining] characters of [p] if any budget
    remains. *)
Definition overlap_shape (parts ov : list string) : Prop :=
  ∃ front whole,
    parts = front ++ whole
    ∧ fits whole
    ∧ ((front = [] ∧ ov = whole)
       ∨ ∃ front' p,
           front = front' ++ [p]
           ∧ chunk_overlap_chars self < charge whole + Str.len p
           ∧ let remaining := chunk_overlap_chars self - charge whole in
             (0 < remaining →
              ov = Str.last_chars remaining p :: whole
              ∧ Str.len (Str.last_chars remaining p) = remaining
              ∧ Str.len (Str.join SEP ov) = chunk_overlap_chars self)
             ∧ (remaining <= 0 → ov = whole)).

(** The chunk with parts [cp'] starts with the overlap of the chunk with
    parts [cp] and goes on with at least one new part. *)
Definition seeded (cp cp' : list string) : Prop :=
  ∃ rest, rest ≠ [] ∧ cp' = fst (_get_overlap_parts cp) ++ rest.

(** The two loops in step: [chunk_parts] and [_combine_with_overlap]. *)
Definition erased (ps : parts_state) (st : combine_state) : Prop :=
  chunks st = map (Str.join SEP) (closed_parts ps)
  ∧ current_chunk_parts st = open_parts ps
  ∧ current_length st = open_length ps.

(** Consecutive chunks are seeded one from the other. *)
Fixpoint chained (l : list (list string)) : Prop :=
  match l with
  | a :: (b :: _) as t => seeded a b ∧ chained t
  | _ => True
  end.

(** [section.metadata.get("type") == "table"] *)
Definition is_table_section (section : ParsedSection.t) : bool :=
  match ParsedSection.metadata section !! "type" with
  | Some (MStr s) => String.eqb s "table"
  | _ => false
  end.

(** The texts one section contributes: the [if is_table] of the loop
    body. *)
Definition section_chunks (section : ParsedSection.t) : list string :=
  if is_table_section section then [ParsedSection.content section]
  else _chunk_section section.

(** The loop state of [chunk_document], with the entropy source. *)
Record doc_state : Type := mk_doc {
  doc_chunks : list Chunk.t;
  doc_index : Z;
  doc_entropy : Entropy
}.

Definition emit (document_id document_name : string)
    (section : ParsedSection.t) (st : doc_state) (chunk_text : string)
    : doc_state :=
  let prefixed_content :=
    _add_context_prefix chunk_text section document_name in
  let '(uuid, g) := uuid4 (doc_entropy st) in
  let chunk :=
    {| Chunk.chunk_id := uuid;
       Chunk.content := prefixed_content;
       Chunk.document_id := document_id;
       Chunk.document_name := document_name;
       Chunk.metadata :=
         {| Chunk.page_number := ParsedSection.page_number section;
            Chunk.section_title := ParsedSection.section_title section;
            Chunk.chunk_index := doc_index st;
            Chunk.char_count := Str.len prefixed_content;
            Chunk.token_estimate := Str.len prefixed_content / 4;
            Chunk.doc_type := ParsedSection.doc_type section;
            Chunk.is_table := is_table_section section |} |} in
  mk_doc (doc_chunks st ++ [chunk]) (doc_index st + 1) g.

Definition chunk_section_loop (document_id document_name : string)
    (st : doc_state) (section : ParsedSection.t) : doc_state :=
  fold_left (emit document_id document_name section)
    (section_chunks section) st.

Definition chunk_document (sections : list ParsedSection.t)
    (document_id document_name : string) (g : Entropy)
    : list Chunk.t * Entropy :=
  let st :=
    fold_left (chunk_section_loop document_id document_name) sections
      (mk_doc [] 0 g) in
  (doc_chunks st, doc_entropy st).

End Methods.

End ChunkingEngine.

(** ** Vocabulary for the output of [chunk_document] *)

Definition indices (l : list Chunk.t) : list Z :=
  map (λ c, Chunk.chunk_index (Chunk.metadata c)) l.

(** What two runs may differ in is left out: the [chunk_id]. *)
Definition erase_id (c : Chunk.t) : string * Chunk.meta * string * string :=
  (Chunk.content c, Chunk.metadata c, Chunk.document_id c,
   Chunk.document_name c).

(** The loop invariant of the numbering. *)
Definition numbered (st : ChunkingEngine.doc_state) : Prop :=
  indices (ChunkingEngine.doc_chunks st)
  = map Z.of_nat (seq 0 (length (ChunkingEngine.doc_chunks st)))
  ∧ ChunkingEngine.doc_index st
    = Z.of_nat (length (ChunkingEngine.doc_chunks st)).

(** [ABBREVIATIONS] in the order of the source text. *)
Definition ABBREVIATIONS_as_written : list string :=
  ["Mr"; "Mrs"; "Ms"; "Dr"; "Prof"; "Sr"; "Jr"; "vs"; "etc"; "Inc"; "Ltd";
   "Co"].

(** ** Sample inputs *)

Definition dr_smith : string :=
  "Dr. Smith went to the store. He met Mr. Jones there.".

(** [dr_smith] with the dot of "Dr." masked if [d] and that of "Mr." masked
    if [m]. *)
Definition dr_smith_masked (d m : bool) : string :=
  (if d then "Dr<<<DOT>>>" else "Dr.")
  +:+ " Smith went to the store. He met "
  +:+ (if m then "Mr<<<DOT>>>" else "Mr.")
  +:+ " Jones there.".

Definition value_of_pi : string := "The value is 3.14159. This is pi.".

Definition plain_section (content : string) : ParsedSection.t :=
  ParsedSection.mk content None None "txt" ∅.

Definition table_section (content : string) : ParsedSection.t :=
  ParsedSection.mk content (Some 3) None "pdf"
    {[ "type" := MStr "table"; "table_index" := MInt 0 ]}.

(** One unbroken run of twelve letters. *)
Definition one_long_word : ParsedSection.t := plain_section "aaaaaaaaaaaa".

(** Two paragraphs of six letters. *)
Definition two_paragraphs : ParsedSection.t :=
  plain_section
    ("aaaaaa" +:+ String Char.newline (String Char.newline "bbbbbb")).

Definition constant_entropy : Entropy :=
  λ _, "123e4567-e89b-42d3-a456-426614174000".

(** The fixtures of [tests/test_chunker.py]. *)
Definition test_chunker : ChunkingEngine.t := ChunkingEngine.__init__ 50 10.

Definition test_chunk (sections : list ParsedSection.t)
    (document_id document_name : string) : list Chunk.t :=
  fst (ChunkingEngine.chunk_document ABBREVIATIONS_as_written test_chunker
         sections document_id document_name constant_entropy).

(** [" ".join(["This is sentence number " + str(i) + "." for i in range(20)])] *)
Definition twenty_sentences : string :=
  Str.join " "
    (map (λ i, "This is sentence number " +:+ str_of_int i +:+ ".")
       (seqZ 0 20)).

(** ** [DocumentProcessor] ([processor.py]) *)

Module Processor.

Inductive Status : Type := pending | processing | ready | error.

(** [DocumentStatusResponse] of [models/document.py] *)
Record DocumentStatusResponse : Type := mk_status {
  sr_document_id : string;
  sr_status : Status;
  sr_chunk_count : Z;
  sr_error_message : option string
}.

(** What a [raise] throws, known by its [str(e)] and by its class: an
    instance of [Exception] ([Exc]), or an instance of [BaseException] that
    is not one of [Exception] ([BaseExc]), as [KeyboardInterrupt],
    [SystemExit] and [GeneratorExit] are. *)
Inductive BaseException : Type :=
| Exc (message : string)
| BaseExc (message : string).

Definition str_exc (e : BaseException) : string :=
  match e with
  | Exc m => m
  | BaseExc m => m
  end.

(** [isinstance(e, Exception)] *)
Definition is_Exception (e : BaseException) : bool :=
  match e with
  | Exc _ => true
  | BaseExc _ => false
  end.

(** [KeyboardInterrupt()], whose [str] is empty. *)
Definition KeyboardInterrupt : BaseException := BaseExc "".

Inductive Outcome (A : Type) : Type :=
| Returned (a : A)
| Raised (e : BaseException).
Arguments Returned {A} a.
Arguments Raised {A} e.

Definition ALLOWED_EXTENSIONS : gset string :=
  {[ "pdf"; "docx"; "csv"; "txt"; "md" ]}.

Section Model.

(** [World]: the state of what lies outside the processor (files, the
    embedding model, the vector database, the clock, the entropy pool);
    [Vector]: an embedding; [Time]: a reading of [time.time()]. *)
Context {World Vector Time : Type}.

Record ProcessingResult : Type := mk_result {
  document_id : string;
  status : Status;
  chunk_count : Z;
  error_message : option string;
  processing_time_seconds : Time
}.

(** The services handed to [__init__], and the library functions
    [time.time], float subtraction and [pathlib.Path(_).suffix]. *)
Record Services : Type := {
  parser_parse :
    string → string → World → Outcome (list ParsedSection.t) * World;
  chunker_chunk_document :
    list ParsedSection.t → string → string →
    World → Outcome (list Chunk.t) * World;
  embedder_embed_batch :
    list string → Z → World → Outcome (list Vector) * World;
  vector_store_upsert_chunks :
    string → list Chunk.t → list Vector → World → Outcome Z * World;
  vector_store_delete_document_chunks :
    string → string → World → Outcome Z * World;
  time_time : World → Time * World;
  time_minus : Time → Time → Time;
  path_suffix : string → string
}.

(** A call of a service, as the log of a run records it. *)
Inductive Call : Type :=
| call_parse (file_path file_type : string)
| call_chunk_document (sections : list ParsedSection.t)
    (document_id document_name : string)
| call_embed_batch (texts : list string) (batch_size : Z)
| call_upsert_chunks (project_id : string) (chunks : list Chunk.t)
    (embeddings : list Vector)
| call_delete_document_chunks (project_id document_id : string).

Inductive Value : Type :=
| VSections (l : list ParsedSection.t)
| VChunks (l : list Chunk.t)
| VVectors (l : list Vector)
| VInt (n : Z).

Record Event : Type := mk_event {
  ev_call : Call;
  ev_outcome : Outcome Value
}.

(** The module-level [_processing_status] dict, the world, and the log
    of service calls. *)
Record State : Type := mk_st {
  _processing_status : gmap string DocumentStatusResponse;
  world : World;
  calls : list Event
}.

Definition M (A : Type) : Type := State → Outcome A * State.

Definition ret {A} (a : A) : M A := λ st, (Returned a, st).

Definition bind {A B} (m : M A) (k : A → M B) : M B :=
  λ st,
    match m st with
    | (Returned a, st') => k a st'
    | (Raised e, st') => (Raised e, st')
    end.

(** [try: body except Exception as e: handler(e)]: the handler takes the
    instances of [Exception]; anything else that is raised goes on to the
    caller. *)
Definition try_except {A} (body : M A) (handler : BaseException → M A)
    : M A :=
  λ st,
    match body st with
    | (Returned a, st') => (Returned a, st')
    | (Raised e, st') =>
        if is_Exception e then handler e st' else (Raised e, st')
    end.

Definition outcome_map {A B} (f : A → B) (o : Outcome A) : Outcome B :=
  match o with
  | Returned a => Returned (f a)
  | Raised e => Raised e
  end.

(** Calling a service: it acts on the world, and the call is logged with
    what came back. *)
Definition invoke {A} (c : Call) (inj : A → Value)
    (op : World → Outcome A * World) : M A :=
  λ st,
    let '(r, w) := op (world st) in
    (r, mk_st (_processing_status st) w
          (calls st ++ [mk_event c (outcome_map inj r)])).

Definition update_status (document_id : string) (status : Status)
    (chunk_count : Z) (error_message : option string) : M unit :=
  λ st,
    (Returned tt,
     mk_st (<[document_id :=
                mk_status document_id status chunk_count error_message]>
              (_processing_status st))
       (world st) (calls st)).

Definition get_status (document_id : string)
    : M (option DocumentStatusResponse) :=
  λ st, (Returned (_processing_status st !! document_id), st).

Definition clear_status (document_id : string) : M unit :=
  λ st,
    (Returned tt,
     mk_st (delete document_id (_processing_status st))
       (world st) (calls st)).

Variable self : Services.

Definition now : M Time :=
  λ st,
    let '(t, w) := time_time self (world st) in
    (Returned t, mk_st (_processing_status st) w (calls st)).

Notation "x ← m ; k" := (bind m (λ x, k))
  (at level 20, m at level 100, k at level 200, only parsing).
Notation "m ;; k" := (bind m (λ _, k))
  (at level 100, k at level 200, right associativity, only parsing).

Definition _error_result (document_id error_message : string)
    (start_time : Time) : M ProcessingResult :=
  t ← now;
  let processing_time := time_minus self t start_time in
  update_status document_id error 0 (Some error_message);;
  ret (mk_result document_id error 0 (Some error_message) processing_time).

Definition delete_document (project_id document_id : string) : M Z :=
  invoke (call_delete_document_chunks project_id document_id) VInt
    (vector_store_delete_document_chunks self project_id document_id).

(** [Path(filename).suffix.lower().lstrip('.')] *)
Definition file_extension (filename : string) : string :=
  Str.lstrip_dots (Str.lower (path_suffix self filename)).

(** The body of the [try] of [process_document]. *)
Definition process_body (file_path project_id document_id filename : string)
    (start_time : Time) : M ProcessingResult :=
  let file_ext := file_extension filename in
  if negb (bool_decide (file_ext ∈ ALLOWED_EXTENSIONS)) then
    _error_result document_id ("Unsupported file type: ." +:+ file_ext)
      start_time
  else
    update_status document_id processing 0 None;;
    _ ← delete_document project_id document_id;
    sections ← invoke (call_parse file_path file_ext) VSections
                 (parser_parse self file_path file_ext);
    if negb (ChunkingEngine.nonempty_list sections) then
      _error_result document_id
        "No content could be extracted from the document" start_time
    else
      chunks ← invoke (call_chunk_document sections document_id filename)
                 VChunks
                 (chunker_chunk_document self sections document_id filename);
      if negb (ChunkingEngine.nonempty_list chunks) then
        _error_result document_id "Document could not be chunked"
          start_time
      else
        let contents := map Chunk.content chunks in
        embeddings ← invoke (call_embed_batch contents 32) VVectors
                       (embedder_embed_batch self contents 32);
        if negb (length embeddings =? length chunks)%nat then
          _error_result document_id "Embedding generation failed"
            start_time
        else
          upserted ← invoke (call_upsert_chunks project_id chunks embeddings)
                       VInt
                       (vector_store_upsert_chunks self project_id chunks
                          embeddings);
          if upserted =? 0 then
            _error_result document_id "Failed to store vectors in Qdrant"
              start_time
          else
            t ← now;
            let processing_time := time_minus self t start_time in
            update_status document_id ready upserted None;;
            ret (mk_result document_id ready upserted None processing_time).

Definition process_document
    (file_path project_id document_id filename : string)
    : M ProcessingResult :=
  start_time ← now;
  try_except
    (process_body file_path project_id document_id filename start_time)
    (λ e, _error_result document_id (str_exc e) start_time).

End Model.

End Processor.

(** ** Vocabulary for the runs of the processor *)

Module Run.
Import Processor.

Section Vocabulary.

Context {World Vector Time : Type}.

(** The service calls a run made: what it added to the log. *)
Definition new_calls {A} (st : @State World Vector)
    (run : Outcome A * @State World Vector) : list (@Event Vector) :=
  drop (length (calls st)) (calls run.2).

(** A computation logs its calls after those already made; a call that
    raised is the last one, its exception being what the computation
    raises; and what the computation raises, a call of its own raised. *)
Definition faithful {A} (m : @M World Vector A) : Prop :=
  ∀ st,
    ∃ evs,
      calls (m st).2 = calls st ++ evs
      ∧ (∀ c e, mk_event c (Raised e) ∈ evs → (m st).1 = Raised e)
      ∧ ∀ e, (m st).1 = Raised e → ∃ c, mk_event c (Raised e) ∈ evs.

(** A computation that leaves the registry as it is. *)
Definition registry_free {A} (m : @M World Vector A) : Prop :=
  ∀ st, _processing_status (m st).2 = _processing_status st.

(** A computation that, when it raises, has left the registry as it
    was. *)
Definition raises_early {A} (m : @M World Vector A) : Prop :=
  ∀ st e,
    (m st).1 = Raised e →
    _processing_status (m st).2 = _processing_status st.

(** A computation that does not call the store for an upsert. *)
Definition upsert_free {A} (m : @M World Vector A) : Prop :=
  ∀ st,
    ∃ evs,
      calls (m st).2 = calls st ++ evs
      ∧ ∀ p cs vs o, mk_event (call_upsert_chunks p cs vs) o ∉ evs.

(** How a run ends once the store has reported [n] rows. *)
Definition store_verdict (document_id : string) (n : Z)
    (run : Outcome (@ProcessingResult Time) * @State World Vector) : Prop :=
  (n = 0 →
   (∃ t, run.1
         = Returned
             (mk_result document_id error 0
                (Some "Failed to store vectors in Qdrant") t))
   ∧ _processing_status run.2 !! document_id
     = Some (mk_status document_id error 0
               (Some "Failed to store vectors in Qdrant")))
  ∧ (n ≠ 0 →
     (∃ t, run.1 = Returned (mk_result document_id ready n None t))
     ∧ _processing_status run.2 !! document_id
       = Some (mk_status document_id ready n None)).

Definition store_reported (document_id : string)
    (m : @M World Vector (@ProcessingResult Time)) : Prop :=
  ∀ st,
    ∃ evs,
      calls (m st).2 = calls st ++ evs
      ∧ ∀ p cs vs n,
          mk_event (call_upsert_chunks p cs vs) (Returned (VInt n)) ∈ evs →
          store_verdict document_id n (m st).

End Vocabulary.

(** *** Sample services

    A world that is a clock; a parser that returns one short section; the
    chunking engine with its default sizes; an embedder that returns one
    vector per text, or raises [embedder_error]; a store that reports
    [stored] rows. *)

(** The text from the last dot of a file name on, when that dot is neither
    the first nor the last character: what [Path(name).suffix] answers for
    a file name without directory. *)
Fixpoint from_last_dot (s : string) : option string :=
  match s with
  | EmptyString => None
  | String c s' =>
      match from_last_dot s' with
      | Some t => Some t
      | None => if Ascii.eqb c "." then Some s else None
      end
  end.

Definition sample_suffix (name : string) : string :=
  match name with
  | EmptyString => EmptyString
  | String _ rest =>
      match from_last_dot rest with
      | Some t => if (1 <? String.length t)%nat then t else EmptyString
      | None => EmptyString
      end
  end.

Definition sample_services (stored : Z)
    (embedder_error : option BaseException)
    : @Services nat (list Z) nat :=
  {| parser_parse := λ _ _ w, (Returned [plain_section "hello world"], w);
     chunker_chunk_document :=
       λ sections document_id document_name w,
         (Returned
            (fst (ChunkingEngine.chunk_document ABBREVIATIONS_as_written
                    (ChunkingEngine.__init__ 512 50) sections document_id
                    document_name constant_entropy)),
          w);
     embedder_embed_batch :=
       λ texts _ w,
         match embedder_error with
         | Some e => (Raised e, w)
         | None => (Returned (map (λ _, [0]) texts), w)
         end;
     vector_store_upsert_chunks := λ _ _ _ w, (Returned stored, w);
     vector_store_delete_document_chunks := λ _ _ w, (Returned 0, w);
     time_time := λ w, (w, S w);
     time_minus := λ a b, (a - b)%nat;
     path_suffix := sample_suffix |}.

Definition initial_state : @State nat (list Z) :=
  mk_st ∅ O [].

End Run.

(** ** Vocabulary for further properties of the engine *)

(** A part as the splitting leaves it: not empty, no whitespace at either
    end. *)
Definition trimmed (p : string) : Prop := p ≠ "" ∧ Str.strip p = p.

(** The length returned with an overlap: that of the overlap joined by blank
    lines, or two more; 0 for no overlap. *)
Definition tracks (r : list string * Z) : Prop :=
  (r.1 = [] ∧ r.2 = 0)
  ∨ (r.1 ≠ []
     ∧ Str.len (Str.join ChunkingEngine.SEP r.1) <= r.2
       <= Str.len (Str.join ChunkingEngine.SEP r.1) + 2).

(** A chunk with its index moved up by [k]. *)
Definition shift_index (k : Z) (c : Chunk.t) : Chunk.t :=
  {| Chunk.chunk_id := Chunk.chunk_id c;
     Chunk.content := Chunk.content c;
     Chunk.document_id := Chunk.document_id c;
     Chunk.document_name := Chunk.document_name c;
     Chunk.metadata :=
       {| Chunk.page_number := Chunk.page_number (Chunk.metadata c);
          Chunk.section_title := Chunk.section_title (Chunk.metadata c);
          Chunk.chunk_index := k + Chunk.chunk_index (Chunk.metadata c);
          Chunk.char_count := Chunk.char_count (Chunk.metadata c);
          Chunk.token_estimate := Chunk.token_estimate (Chunk.metadata c);
          Chunk.doc_type := Chunk.doc_type (Chunk.metadata c);
          Chunk.is_table := Chunk.is_table (Chunk.metadata c) |} |}.

(** The chunk [c] was made from the text [body] of the section [s]. *)
Definition made_from (document_id document_name : string)
    (s : ParsedSection.t) (body : string) (c : Chunk.t) : Prop :=
  Chunk.content c
  = ChunkingEngine.context_prefix s document_name
    +:+ String Char.newline body
  ∧ Chunk.document_id c = document_id
  ∧ Chunk.document_name c = document_name
  ∧ Chunk.page_number (Chunk.metadata c) = ParsedSection.page_number s
  ∧ Chunk.section_title (Chunk.metadata c) = ParsedSection.section_title s
  ∧ Chunk.doc_type (Chunk.metadata c) = ParsedSection.doc_type s
  ∧ Chunk.is_table (Chunk.metadata c) = ChunkingEngine.is_table_section s
  ∧ Chunk.char_count (Chunk.metadata c) = Str.len (Chunk.content c)
  ∧ Chunk.token_estimate (Chunk.metadata c)
    = Chunk.char_count (Chunk.metadata c) / 4.


Section EngineVocabulary.

Import ChunkingEngine.

Variable abbrev_order : list string.
Variable self : ChunkingEngine.t.
Variables document_id document_name : string.

(** The part [p] is in one of the groups of parts of [st], closed or
    open. *)
Definition kept_in (st : parts_state) (p : string) : Prop :=
  ∃ cp, cp ∈ closed_parts st ++ [open_parts st] ∧ p ∈ cp.

(** The running length of the loop is that of the current parts joined by
    blank lines, or two more. *)
Definition length_tracked (st : combine_state) : Prop :=
  let j := Str.len (Str.join SEP (current_chunk_parts st)) in
  j <= current_length st <= j + 2.

(** A chunk text within the size, or within the overlap, a separator and
    one of the parts [seen]. *)
Definition sized (seen : list string) (text : string) : Prop :=
  Str.len text <= chunk_size_chars self
  ∨ ∃ p, p ∈ seen
         ∧ Str.len text <= chunk_overlap_chars self + 2 + Str.len p.

Definition all_sized (seen : list string) (st : combine_state) : Prop :=
  length_tracked st
  ∧ Forall (sized seen) (chunks st)
  ∧ (current_chunk_parts st = []
     ∨ sized seen (Str.join SEP (current_chunk_parts st))).

(** The groups of [st], closed and open, are the parts [seen], in order and
    without repetition. *)
Definition divides (seen : list string) (st : parts_state) : Prop :=
  concat (closed_parts st ++ [open_parts st]) = seen
  ∧ Forall (λ cp, cp ≠ []) (closed_parts st)
  ∧ Forall (λ p, p ≠ "") (open_parts st).

(** The chunk [c] was made from one of [sections] and one of its texts. *)
Definition sourced (sections : list ParsedSection.t) (c : Chunk.t) : Prop :=
  ∃ s body,
    s ∈ sections ∧ body ∈ section_chunks abbrev_order self s
    ∧ made_from document_id document_name s body c.

(** The identifiers of the chunks made so far are the first draws of [g],
    and the entropy left is [g] after them. *)
Definition drawn (g : Entropy) (st : doc_state) : Prop :=
  map Chunk.chunk_id (doc_chunks st) = map g (seq 0 (length (doc_chunks st)))
  ∧ ∀ k, doc_entropy st k = g (length (doc_chunks st) + k)%nat.

(** The state [st] is [st'] run after the chunks [pre], [k] indices
    later. *)
Definition shifted (pre : list Chunk.t) (k : Z) (st st' : doc_state) : Prop :=
  doc_chunks st = pre ++ map (shift_index k) (doc_chunks st')
  ∧ doc_index st = k + doc_index st'
  ∧ doc_entropy st = doc_entropy st'.

End EngineVocabulary.

(** An entropy source that counts: its n-th draw is the numeral of n. *)
Definition counting_entropy : Entropy :=
  λ n, str_of_int (Z.of_nat n).

(** ** Vocabulary for the shape of a run *)

Module Shape.
Import Processor Run.

Section Shapes.

Context {Vector : Type}.
Variables file_path file_ext project_id document_id filename : string.

Local Abbreviation ev := (@mk_event Vector).

Definition deleted (nd : Z) : @Event Vector :=
  ev (call_delete_document_chunks project_id document_id) (Returned (VInt nd)).
Definition parsed (sections : list ParsedSection.t) : @Event Vector :=
  ev (call_parse file_path file_ext) (Returned (VSections sections)).
Definition chunked (sections : list ParsedSection.t) (cs : list Chunk.t)
    : @Event Vector :=
  ev (call_chunk_document sections document_id filename)
    (Returned (VChunks cs)).
Definition embedded (cs : list Chunk.t) (vs : list Vector) : @Event Vector :=
  ev (call_embed_batch (map Chunk.content cs) 32) (Returned (VVectors vs)).

(** The logs of the runs a raise cuts short: the calls before it returned
    something to go on with, and the call that raised [e] is the last. *)
Inductive interrupted : list (@Event Vector) → BaseException → Prop :=
| delete_raised e :
    interrupted
      [ev (call_delete_document_chunks project_id document_id) (Raised e)] e
| parse_raised nd e :
    interrupted [deleted nd; ev (call_parse file_path file_ext) (Raised e)] e
| chunk_raised nd sections e :
    sections ≠ [] →
    interrupted
      [deleted nd; parsed sections;
       ev (call_chunk_document sections document_id filename) (Raised e)]
      e
| embed_raised nd sections cs e :
    sections ≠ [] → cs ≠ [] →
    interrupted
      [deleted nd; parsed sections; chunked sections cs;
       ev (call_embed_batch (map Chunk.content cs) 32) (Raised e)]
      e
| upsert_raised nd sections cs vs e :
    sections ≠ [] → cs ≠ [] → length vs = length cs →
    interrupted
      [deleted nd; parsed sections; chunked sections cs; embedded cs vs;
       ev (call_upsert_chunks project_id cs vs) (Raised e)]
      e.

(** The logs of the runs that return, each with the status, the chunk
    count and the message the run ends with. *)
Inductive pipeline
    : list (@Event Vector) → Status → Z → option string → Prop :=
| run_unsupported :
    pipeline [] error 0 (Some ("Unsupported file type: ." +:+ file_ext))
| run_caught evs e :
    interrupted evs e → is_Exception e = true →
    pipeline evs error 0 (Some (str_exc e))
| run_no_sections nd :
    pipeline [deleted nd; parsed []]
      error 0 (Some "No content could be extracted from the document")
| run_no_chunks nd sections :
    sections ≠ [] →
    pipeline [deleted nd; parsed sections; chunked sections []]
      error 0 (Some "Document could not be chunked")
| run_embed_mismatch nd sections cs vs :
    sections ≠ [] → cs ≠ [] → length vs ≠ length cs →
    pipeline [deleted nd; parsed sections; chunked sections cs; embedded cs vs]
      error 0 (Some "Embedding generation failed")
| run_store_zero nd sections cs vs :
    sections ≠ [] → cs ≠ [] → length vs = length cs →
    pipeline
      [deleted nd; parsed sections; chunked sections cs; embedded cs vs;
       ev (call_upsert_chunks project_id cs vs) (Returned (VInt 0))]
      error 0 (Some "Failed to store vectors in Qdrant")
| run_ready nd sections cs vs n :
    sections ≠ [] → cs ≠ [] → length vs = length cs → n ≠ 0 →
    pipeline
      [deleted nd; parsed sections; chunked sections cs; embedded cs vs;
       ev (call_upsert_chunks project_id cs vs) (Returned (VInt n))]
      ready n None.

(** What each call of a log was handed. *)
Definition handed (evs : list (@Event Vector)) (e : @Event Vector)
    : Prop :=
  match ev_call e with
  | call_delete_document_chunks p d => p = project_id ∧ d = document_id
  | call_parse path type => path = file_path ∧ type = file_ext
  | call_chunk_document sections d name =>
      d = document_id ∧ name = filename ∧ sections ≠ []
      ∧ parsed sections ∈ evs
  | call_embed_batch texts batch_size =>
      batch_size = 32
      ∧ ∃ sections cs,
          texts = map Chunk.content cs ∧ cs ≠ []
          ∧ chunked sections cs ∈ evs
  | call_upsert_chunks p cs vs =>
      p = project_id ∧ length vs = length cs
      ∧ embedded cs vs ∈ evs
      ∧ ∃ sections, chunked sections cs ∈ evs
  end.

(** The log of a run, however it ends. *)
Definition logged (evs : list (@Event Vector)) : Prop :=
  (∃ s n msg, pipeline evs s n msg) ∨ (∃ e, interrupted evs e).

End Shapes.

(** The place of a service in the pipeline. *)
Definition stage {Vector} (c : @Call Vector) : nat :=
  match c with
  | call_delete_document_chunks _ _ => 0
  | call_parse _ _ => 1
  | call_chunk_document _ _ _ => 2
  | call_embed_batch _ _ => 3
  | call_upsert_chunks _ _ _ => 4
  end.

End Shape.

(** Services that answer what they are told to: the parser [sections], the
    chunker [chunks], the embedder [vectors], the store [stored]. *)
Definition scripted_services (sections : list ParsedSection.t)
    (chunks : list Chunk.t) (vectors : list (list Z)) (stored : Z)
    : @Processor.Services nat (list Z) nat :=
  {| Processor.parser_parse := λ _ _ w, (Processor.Returned sections, w);
     Processor.chunker_chunk_document :=
       λ _ _ _ w, (Processor.Returned chunks, w);
     Processor.embedder_embed_batch :=
       λ _ _ w, (Processor.Returned vectors, w);
     Processor.vector_store_upsert_chunks :=
       λ _ _ _ w, (Processor.Returned stored, w);
     Processor.vector_store_delete_document_chunks :=
       λ _ _ w, (Processor.Returned 0, w);
     Processor.time_time := λ w, (w, S w);
     Processor.time_minus := λ a b, (a - b)%nat;
     Processor.path_suffix := Run.sample_suffix |}.

(** One chunk, as the engine makes it from "hello world". *)
Definition hello_chunks : list Chunk.t :=
  fst (ChunkingEngine.chunk_document ABBREVIATIONS_as_written
         (ChunkingEngine.__init__ 512 50) [plain_section "hello world"]
         "doc-1" "a.txt" constant_entropy).

(** ** [VectorStoreService] ([vector_store.py]) *)

(** The payload dict of a point. *)
Module Payload.

Record t : Type := mk {
  chunk_id : string;
  document_id : string;
  document_name : string;
  content : string;
  page_number : option Z;
  section_title : option string;
  chunk_index : Z;
  char_count : Z
}.

End Payload.

(** [qdrant_client.models.PointStruct]; [Scalar] is a float of an
    embedding. *)
Module PointStruct.

Record t {Scalar : Type} : Type := mk {
  id : string;
  vector : list Scalar;
  payload : Payload.t
}.
Arguments t : clear implicits.

End PointStruct.

Module VectorStore.

Local Abbreviation Outcome := Processor.Outcome.
Local Abbreviation Returned := Processor.Returned.
Local Abbreviation Raised := Processor.Raised.
Local Abbreviation BaseException := Processor.BaseException.
Local Abbreviation is_Exception := Processor.is_Exception.

(** [list(range(start, stop, step))] for [step > 0]; [fuel] bounds the
    number of items. *)
Fixpoint range_from (fuel start stop step : nat) : list nat :=
  match fuel with
  | O => []
  | S fuel' =>
      if (start <? stop)%nat then
        start :: range_from fuel' (start + step) stop step
      else []
  end.

Definition range (start stop step : nat) : list nat :=
  range_from (stop - start) start stop step.

(** [l[i:j]] for [0 <= i <= j] *)
Definition slice {A} (l : list A) (i j : nat) : list A :=
  take (j - i) (drop i l).

(** Every hyphen turned into an underscore, character by character. *)
Fixpoint underscored (s : string) : string :=
  match s with
  | EmptyString => EmptyString
  | String c s' =>
      String (if Ascii.eqb c "-" then "_"%char else c) (underscored s')
  end.

(** No hyphen in [s]. *)
Fixpoint hyphen_free (s : string) : bool :=
  match s with
  | EmptyString => true
  | String c s' => negb (Ascii.eqb c "-") && hyphen_free s'
  end.

(** [f"project_{project_id.replace('-', '_')}"] *)
Definition _get_collection_name (project_id : string) : string :=
  "project_" +:+ Re.replace "-" "_" project_id.

Section Model.

(** [DB]: the state of the Qdrant server (or of the in-memory instance). *)
Context {DB Scalar : Type}.

Local Abbreviation Point := (PointStruct.t Scalar).

(** The methods of [QdrantClient] the service calls.  [count] and
    [delete] take the value the [document_id] field of the payload must
    match; [count] answers the [count] attribute of its result. *)
Record QdrantClient : Type := {
  collection_exists : string → DB → Outcome bool * DB;
  create_collection : string → Z → DB → Outcome unit * DB;
  upsert : string → list Point → DB → Outcome unit * DB;
  count : string → string → DB → Outcome Z * DB;
  delete : string → string → DB → Outcome unit * DB
}.

(** The attributes [__init__] and [_connect] set. *)
Record t : Type := mk {
  host : string;
  port : Z;
  _client : option QdrantClient;
  _is_connected : bool;
  _is_local_mode : bool
}.

(** A request to the client, as the log records it. *)
Inductive Request : Type :=
| req_collection_exists (collection_name : string)
| req_create_collection (collection_name : string) (size : Z)
| req_upsert (collection_name : string) (points : list Point)
| req_count (collection_name document_id : string)
| req_delete (collection_name document_id : string).

Inductive Answer : Type :=
| ABool (b : bool)
| AInt (n : Z)
| ANone.

Record Sent : Type := mk_sent {
  request : Request;
  answer : Outcome Answer
}.

(** The database and the log of the requests sent to it. *)
Record Store : Type := mk_store {
  db : DB;
  sent : list Sent
}.

(** The methods of the service run on the store, and return or raise. *)
Definition Q (A : Type) : Type := Store → Outcome A * Store.

Definition unit_ {A} (a : A) : Q A := λ st, (Returned a, st).

Definition then_ {A B} (m : Q A) (k : A → Q B) : Q B :=
  λ st,
    match m st with
    | (Returned a, st') => k a st'
    | (Raised e, st') => (Raised e, st')
    end.

(** [try: body except Exception: handler] *)
Definition try_ {A} (body : Q A) (handler : Q A) : Q A :=
  λ st,
    match body st with
    | (Returned a, st') => (Returned a, st')
    | (Raised e, st') =>
        if is_Exception e then handler st' else (Raised e, st')
    end.

(** A request to the client: it acts on the database, and is logged with
    what came back. *)
Definition send {A} (r : Request) (inj : A → Answer)
    (op : DB → Outcome A * DB) : Q A :=
  λ st,
    let '(o, d) := op (db st) in
    (o, mk_store d (sent st ++ [mk_sent r (Processor.outcome_map inj o)])).

(** The client to work with: none when
    [not self._is_connected or self._client is None]. *)
Definition usable (self : t) : option QdrantClient :=
  if _is_connected self then _client self else None.

Definition ensure_collection (self : t) (project_id : string)
    (vector_size : Z) : Q unit :=
  match usable self with
  | None => unit_ tt
  | Some client =>
      let collection_name := _get_collection_name project_id in
      try_
        (then_
           (send (req_collection_exists collection_name) ABool
              (collection_exists client collection_name))
           (λ present,
              if present then unit_ tt
              else
                send (req_create_collection collection_name vector_size)
                  (λ _, ANone)
                  (create_collection client collection_name vector_size)))
        (unit_ tt)
  end.

(** [PointStruct(id=chunk.chunk_id, vector=embedding, payload={...})] *)
Definition point_of (chunk : Chunk.t) (embedding : list Scalar) : Point :=
  PointStruct.mk Scalar (Chunk.chunk_id chunk) embedding
    (Payload.mk (Chunk.chunk_id chunk) (Chunk.document_id chunk)
       (Chunk.document_name chunk) (Chunk.content chunk)
       (Chunk.page_number (Chunk.metadata chunk))
       (Chunk.section_title (Chunk.metadata chunk))
       (Chunk.chunk_index (Chunk.metadata chunk))
       (Chunk.char_count (Chunk.metadata chunk))).

Definition build_points (chunks : list Chunk.t)
    (embeddings : list (list Scalar)) : list Point :=
  map (λ ce, point_of ce.1 ce.2) (combine chunks embeddings).

Definition batch_size : nat := 100.

(** [points[i:i + batch_size]] *)
Definition batch_at (points : list Point) (i : nat) : list Point :=
  slice points i (i + batch_size).

(** The [for] loop of [upsert_chunks] over the start indices still to be
    visited; with its outcome it gives what [total_upserted] holds when
    the loop is left, normally or by a raise. *)
Fixpoint upsert_loop (client : QdrantClient) (collection_name : string)
    (points : list Point) (starts : list nat) (total_upserted : Z)
    (st : Store) : (Outcome unit * Z) * Store :=
  match starts with
  | [] => ((Returned tt, total_upserted), st)
  | i :: rest =>
      let batch := batch_at points i in
      match
        send (req_upsert collection_name batch) (λ _, ANone)
          (upsert client collection_name batch) st
      with
      | (Returned _, st') =>
          upsert_loop client collection_name points rest
            (total_upserted + Z.of_nat (length batch)) st'
      | (Raised e, st') => ((Raised e, total_upserted), st')
      end
  end.

Definition upsert_chunks (self : t) (project_id : string)
    (chunks : list Chunk.t) (embeddings : list (list Scalar)) : Q Z :=
  match usable self with
  | None => unit_ 0
  | Some client =>
      if negb (length chunks =? length embeddings)%nat then unit_ 0
      else
        let collection_name := _get_collection_name project_id in
        let vector_size :=
          match embeddings with
          | e :: _ => Z.of_nat (length e)
          | [] => 384
          end in
        then_ (ensure_collection self project_id vector_size)
          (λ _,
             let points := build_points chunks embeddings in
             λ st,
               let '((o, total_upserted), st') :=
                 upsert_loop client collection_name points
                   (range 0 (length points) batch_size) 0 st in
               match o with
               | Returned _ => (Returned total_upserted, st')
               | Raised e =>
                   if is_Exception e then (Returned total_upserted, st')
                   else (Raised e, st')
               end)
  end.

Definition delete_document_chunks (self : t)
    (project_id document_id : string) : Q Z :=
  match usable self with
  | None => unit_ 0
  | Some client =>
      let collection_name := _get_collection_name project_id in
      try_
        (then_
           (send (req_collection_exists collection_name) ABool
              (collection_exists client collection_name))
           (λ present,
              if negb present then unit_ 0
              else
                then_
                  (send (req_count collection_name document_id) AInt
                     (count client collection_name document_id))
                  (λ n,
                     if n =? 0 then unit_ 0
                     else
                       then_
                         (send (req_delete collection_name document_id)
                            (λ _, ANone)
                            (delete client collection_name document_id))
                         (λ _, unit_ n))))
        (unit_ 0)
  end.

End Model.

End VectorStore.

(** ** Vocabulary for the requests of the vector store *)

Module Requests.
Import VectorStore.

Section Vocabulary.

Context {DB Scalar : Type}.

Local Abbreviation Sent := (@Sent Scalar).
Local Abbreviation Store := (@Store DB Scalar).

(** The requests a computation sent: what it added to the log. *)
Definition new_sent {A} (st : Store) (run : Processor.Outcome A * Store)
    : list Sent :=
  drop (length (sent st)) (sent run.2).

(** The points of the upsert requests of a log that returned, in the order
    sent. *)
Fixpoint upserted (log : list Sent) : list (PointStruct.t Scalar) :=
  match log with
  | [] => []
  | mk_sent (req_upsert _ points) (Processor.Returned _) :: log' =>
      points ++ upserted log'
  | _ :: log' => upserted log'
  end.




End Vocabulary.

End Requests.

(** ** [EmbeddingService] ([embedder.py]) *)

Module EmbeddingService.

Section Model.

(** [W]: the state of what the model and the clock live in. *)
Context {W Scalar Time : Type}.

(** The method of the [SentenceTransformer] object the service calls:
    [encode(texts, batch_size=batch_size, convert_to_numpy=True,
    show_progress_bar=False)], its rows as lists. *)
Record SentenceTransformer : Type := {
  encode :
    list string → Z → W → Processor.Outcome (list (list Scalar)) * W
}.

Record t : Type := mk {
  model_name : string;
  _model : option SentenceTransformer;
  _dimension : option Z;
  _is_loaded : bool
}.

Variable time_time : W → Time * W.

(** [RuntimeError(message)] *)
Definition RuntimeError (message : string) : Processor.BaseException :=
  Processor.Exc message.

Definition embed_batch (self : t) (texts : list string) (batch_size : Z)
    : W → Processor.Outcome (list (list Scalar)) * W :=
  λ w,
    match (if _is_loaded self then _model self else None) with
    | None =>
        (Processor.Raised (RuntimeError "Embedding model not loaded"), w)
    | Some model =>
        if negb (ChunkingEngine.nonempty_list texts) then
          (Processor.Returned [], w)
        else
          let '(start_time, w1) := time_time w in
          match encode model texts batch_size w1 with
          | (Processor.Returned embeddings, w2) =>
              let '(_, w3) := time_time w2 in
              (Processor.Returned embeddings, w3)
          | (Processor.Raised e, w2) => (Processor.Raised e, w2)
          end
    end.

End Model.

End EmbeddingService.

(** ** The services put together ([main.py]) *)

Module Assembly.

Section Wiring.

Context {W DB Scalar Time : Type}.

(** What lies outside the processor, in three parts: the files, the
    embedding model and the clock; the entropy pool of [uuid4]; the vector
    database with the log of the requests sent to it. *)
Record World : Type := mk_world {
  outside : W;
  entropy : Entropy;
  qdrant : @VectorStore.Store DB Scalar
}.

Definition on_outside {A} (op : W → A * W) : World → A * World :=
  λ w,
    let '(a, o) := op (outside w) in
    (a, mk_world o (entropy w) (qdrant w)).

Definition on_qdrant {A} (op : @VectorStore.Q DB Scalar A)
    : World → Processor.Outcome A * World :=
  λ w,
    let '(a, q) := op (qdrant w) in
    (a, mk_world (outside w) (entropy w) q).

(** The entropy pool and the database are as they were. *)
Definition inside_kept (w w' : World) : Prop :=
  entropy w' = entropy w ∧ qdrant w' = qdrant w.

(** The requests sent to the database between two worlds. *)
Definition new_requests (w w' : World) : list (@VectorStore.Sent Scalar) :=
  drop (length (VectorStore.sent (qdrant w))) (VectorStore.sent (qdrant w')).

(** From [w] to [w'] the log of requests has grown, by no upsert. *)
Definition no_upsert_sent (w w' : World) : Prop :=
  ∃ log,
    VectorStore.sent (qdrant w') = VectorStore.sent (qdrant w) ++ log
    ∧ ∀ n points a,
        VectorStore.mk_sent (VectorStore.req_upsert n points) a ∉ log.

(** [DocumentParser.parse], which reads the file through the PDF, DOCX and
    CSV libraries; the order in which the interpreter iterates the
    abbreviation set; [time.time], float subtraction and
    [pathlib.Path(_).suffix]. *)
Variable parse :
  string → string → W → Processor.Outcome (list ParsedSection.t) * W.
Variable abbrev_order : list string.
Variable time_time : W → Time * W.
Variable time_minus : Time → Time → Time.
Variable path_suffix : string → string.

(** [DocumentProcessor(parser, chunker, embedder, vector_store)] *)
Definition DocumentProcessor (chunker : ChunkingEngine.t)
    (embedder : @EmbeddingService.t W Scalar)
    (vector_store : @VectorStore.t DB Scalar)
    : @Processor.Services World (list Scalar) Time :=
  {| Processor.parser_parse :=
       λ file_path file_type, on_outside (parse file_path file_type);
     Processor.chunker_chunk_document :=
       λ sections document_id document_name w,
         let '(chunks, g) :=
           ChunkingEngine.chunk_document abbrev_order chunker sections
             document_id document_name (entropy w) in
         (Processor.Returned chunks, mk_world (outside w) g (qdrant w));
     Processor.embedder_embed_batch :=
       λ texts batch_size,
         on_outside
           (EmbeddingService.embed_batch time_time embedder texts batch_size);
     Processor.vector_store_upsert_chunks :=
       λ project_id chunks embeddings,
         on_qdrant
           (VectorStore.upsert_chunks vector_store project_id chunks
              embeddings);
     Processor.vector_store_delete_document_chunks :=
       λ project_id document_id,
         on_qdrant
           (VectorStore.delete_document_chunks vector_store project_id
              document_id);
     Processor.time_time := on_outside time_time;
     Processor.time_minus := time_minus;
     Processor.path_suffix := path_suffix |}.

End Wiring.

End Assembly.

(** ** Vocabulary for the course of a run *)

Module Course.
Import Processor.

Section Courses.

Context {World Vector Time : Type}.
Variable self : @Services World Vector Time.

(** The service a call names, run in a world: what the log records of it,
    and the world it leaves. *)
Definition answers (c : @Call Vector) (w : World)
    : Outcome (@Value Vector) * World :=
  match c with
  | call_parse file_path file_type =>
      let '(o, w') := parser_parse self file_path file_type w in
      (outcome_map VSections o, w')
  | call_chunk_document sections document_id document_name =>
      let '(o, w') :=
        chunker_chunk_document self sections document_id document_name w in
      (outcome_map VChunks o, w')
  | call_embed_batch texts batch_size =>
      let '(o, w') := embedder_embed_batch self texts batch_size w in
      (outcome_map VVectors o, w')
  | call_upsert_chunks project_id chunks embeddings =>
      let '(o, w') :=
        vector_store_upsert_chunks self project_id chunks embeddings w in
      (outcome_map VInt o, w')
  | call_delete_document_chunks project_id document_id =>
      let '(o, w') :=
        vector_store_delete_document_chunks self project_id document_id w in
      (outcome_map VInt o, w')
  end.

(** Readings of the clock, one after the other. *)
Inductive ticks : World → World → Prop :=
| ticks_none w : ticks w w
| ticks_more w t w' w'' :
    time_time self w = (t, w') → ticks w' w'' → ticks w w''.

(** The course of the world along a log: each call of the log is the
    service run in the world as the calls before and the clock readings
    left it, with the outcome the log records. *)
Inductive course : World → list (@Event Vector) → World → Prop :=
| course_end w w' : ticks w w' → course w [] w'
| course_call w w1 c o w2 evs w3 :
    ticks w w1 → answers c w1 = (o, w2) → course w2 evs w3 →
    course w (mk_event c o :: evs) w3.

(** A computation whose calls are the course of the world. *)
Definition on_course {A} (m : @M World Vector A) : Prop :=
  ∀ st,
    ∃ evs,
      calls (m st).2 = calls st ++ evs
      ∧ course (world st) evs (world (m st).2).

End Courses.

End Course.

(** *** Sample store, embedder and assembly

    A database that is a counter of the upserts it took, and a client
    that takes [accept] upserts before its connection is lost; a model
    that gives every text the vector [[0]]; a world whose outside is a
    clock. *)

Definition sample_client (accept : nat)
    : @VectorStore.QdrantClient nat Z :=
  {| VectorStore.collection_exists := λ _ d, (Processor.Returned true, d);
     VectorStore.create_collection := λ _ _ d, (Processor.Returned tt, d);
     VectorStore.upsert :=
       λ _ _ d,
         if (d <? accept)%nat then (Processor.Returned tt, S d)
         else (Processor.Raised (Processor.Exc "connection lost"), d);
     VectorStore.count := λ _ _ d, (Processor.Returned 0, d);
     VectorStore.delete := λ _ _ d, (Processor.Returned tt, d) |}.

Definition sample_store (accept : nat) : @VectorStore.t nat Z :=
  VectorStore.mk "localhost" 6333 (Some (sample_client accept)) true false.

(** The store [_connect] leaves when both connections fail. *)
Definition unconnected_store : @VectorStore.t nat Z :=
  VectorStore.mk "localhost" 6333 None false false.

Definition empty_database : @VectorStore.Store nat Z :=
  VectorStore.mk_store O [].

Definition sample_model : @EmbeddingService.SentenceTransformer nat Z :=
  {| EmbeddingService.encode :=
       λ texts _ w, (Processor.Returned (map (λ _, [0]) texts), w) |}.

Definition sample_embedder : @EmbeddingService.t nat Z :=
  EmbeddingService.mk "all-MiniLM-L6-v2" (Some sample_model) (Some 1) true.

(** The embedder [_load_model] leaves when loading fails. *)
Definition unloaded_embedder : @EmbeddingService.t nat Z :=
  EmbeddingService.mk "all-MiniLM-L6-v2" None None false.

Definition sample_processor (embedder : @EmbeddingService.t nat Z)
    (vector_store : @VectorStore.t nat Z)
    : @Processor.Services (@Assembly.World nat nat Z) (list Z) nat :=
  Assembly.DocumentProcessor
    (λ _ _ w, (Processor.Returned [plain_section "hello world"], w))
    ABBREVIATIONS_as_written (λ w, (w, S w)) (λ a b, (a - b)%nat)
    Run.sample_suffix (ChunkingEngine.__init__ 512 50) embedder vector_store.

Definition sample_world : @Assembly.World nat nat Z :=
  Assembly.mk_world O constant_entropy empty_database.

Definition sample_state : @Processor.State (@Assembly.World nat nat Z) (list Z) :=
  Processor.mk_st ∅ sample_world [].

(** * Properties *)

(** ** Strings *)

Lemma string_app_nil (b : string) : "" +:+ b = b.
Proof. reflexivity. Qed.

Lemma string_app_cons (c : ascii) (a b : string) :
  String c a +:+ b = String c (a +:+ b).
Proof. reflexivity. Qed.

Lemma string_app_length (a b : string) :
  String.length (a +:+ b) = (String.length a + String.length b)%nat.
Proof.
  induction a as [|c a IH]; [reflexivity|].
  rewrite string_app_cons. simpl. now rewrite IH.
Qed.

Lemma string_app_assoc (a b c : string) : (a +:+ b) +:+ c = a +:+ (b +:+ c).
Proof.
  induction a as [|x a IH]; [reflexivity|].
  rewrite !string_app_cons. now rewrite IH.
Qed.

Lemma string_app_empty_r (a : string) : a +:+ "" = a.
Proof.
  induction a as [|x a IH]; [reflexivity|].
  rewrite string_app_cons. now rewrite IH.
Qed.

Lemma len_app (a b : string) : Str.len (a +:+ b) = Str.len a + Str.len b.
Proof. unfold Str.len. rewrite string_app_length. lia. Qed.

Lemma len_nonneg (a : string) : 0 <= Str.len a.
Proof. unfold Str.len. lia. Qed.

Lemma take_drop (n : nat) (s : string) : Str.take n s +:+ Str.drop n s = s.
Proof.
  revert s. induction n as [|n IH]; intros [|c s]; simpl; try reflexivity.
  rewrite string_app_cons. now rewrite IH.
Qed.

Lemma drop_length (n : nat) (s : string) :
  String.length (Str.drop n s) = (String.length s - n)%nat.
Proof.
  revert s. induction n as [|n IH]; intros [|c s]; simpl; try lia. apply IH.
Qed.

Lemma last_chars_suffix (k : Z) (s : string) :
  Str.is_suffix (Str.last_chars k s) s.
Proof.
  unfold Str.last_chars.
  exists (Str.take (Z.to_nat (Z.max (Str.len s - k) 0)) s).
  symmetry. apply take_drop.
Qed.

Lemma last_chars_len (k : Z) (s : string) :
  0 <= k <= Str.len s → Str.len (Str.last_chars k s) = k.
Proof.
  intros Hk. unfold Str.last_chars, Str.len in *. rewrite drop_length. lia.
Qed.

(** ** Chunk numbering and the split of the output by sections *)

Section ChunkDocument.

Import ChunkingEngine.

Variable abbrev_order : list string.
Variable self : ChunkingEngine.t.
Variables document_id document_name : string.

Local Abbreviation emit_ := (emit document_id document_name).
Local Abbreviation section_loop :=
  (chunk_section_loop abbrev_order self document_id document_name).

Lemma emit_numbered section st text :
  numbered st → numbered (emit_ section st text).
Proof.
  intros [Hi Hn]. unfold numbered, emit, indices in *. simpl.
  rewrite map_app, length_app, Hi. simpl.
  replace (length (doc_chunks st) + 1)%nat with (S (length (doc_chunks st)))
    by lia.
  rewrite seq_S, map_app. simpl. rewrite Hn. split; [reflexivity | lia].
Qed.

Lemma emits_numbered section texts st :
  numbered st → numbered (fold_left (emit_ section) texts st).
Proof.
  revert st. induction texts as [|t texts IH]; intros st H; simpl;
    [exact H | apply IH, emit_numbered, H].
Qed.

Lemma sections_numbered sections st :
  numbered st → numbered (fold_left section_loop sections st).
Proof.
  revert st. induction sections as [|s sections IH]; intros st H; simpl;
    [exact H | apply IH, emits_numbered, H].
Qed.

(** The chunks a section adds, given the index and the entropy at its
    start. *)
Lemma emits_app section texts st :
  doc_chunks (fold_left (emit_ section) texts st)
  = doc_chunks st
    ++ doc_chunks (fold_left (emit_ section) texts
                     (mk_doc [] (doc_index st) (doc_entropy st))).
Proof.
  revert st. induction texts as [|t texts IH]; intros st; simpl.
  - now rewrite app_nil_r.
  - rewrite (IH (emit_ section st t)).
    rewrite (IH (emit_ section (mk_doc [] (doc_index st) (doc_entropy st)) t)).
    unfold emit. simpl. now rewrite <- List.app_assoc.
Qed.

Lemma emits_contents section texts st :
  map Chunk.content (doc_chunks (fold_left (emit_ section) texts st))
  = map Chunk.content (doc_chunks st)
    ++ map (λ t, _add_context_prefix t section document_name) texts.
Proof.
  revert st. induction texts as [|t texts IH]; intros st; simpl.
  - now rewrite app_nil_r.
  - rewrite IH. unfold emit at 1. simpl. rewrite map_app. simpl.
    now rewrite <- List.app_assoc.
Qed.

Lemma sections_app sections st :
  ∃ added,
    doc_chunks (fold_left section_loop sections st) = doc_chunks st ++ added
    ∧ map Chunk.content added
      = flat_map
          (λ s, map (λ t, _add_context_prefix t s document_name)
                  (section_chunks abbrev_order self s))
          sections.
Proof.
  revert st. induction sections as [|s sections IH]; intros st; simpl.
  - exists []. now rewrite app_nil_r.
  - destruct (IH (section_loop st s)) as (added & Ha & Hc).
    pose proof (emits_app s (section_chunks abbrev_order self s) st) as E.
    change (fold_left (emit_ s) (section_chunks abbrev_order self s) st)
      with (section_loop st s) in E.
    rewrite E in Ha.
    eexists. rewrite Ha, <- List.app_assoc. split; [reflexivity|].
    rewrite map_app, Hc. f_equal.
    apply (emits_contents s (section_chunks abbrev_order self s)
             (mk_doc [] (doc_index st) (doc_entropy st))).
Qed.

Lemma emit_erase section st1 st2 text :
  map erase_id (doc_chunks st1) = map erase_id (doc_chunks st2) →
  doc_index st1 = doc_index st2 →
  map erase_id (doc_chunks (emit_ section st1 text))
  = map erase_id (doc_chunks (emit_ section st2 text))
  ∧ doc_index (emit_ section st1 text) = doc_index (emit_ section st2 text).
Proof.
  intros Hc Hi. unfold emit. simpl. rewrite !map_app, Hc, Hi. simpl.
  split; reflexivity.
Qed.

Lemma emits_erase section texts st1 st2 :
  map erase_id (doc_chunks st1) = map erase_id (doc_chunks st2) →
  doc_index st1 = doc_index st2 →
  map erase_id (doc_chunks (fold_left (emit_ section) texts st1))
  = map erase_id (doc_chunks (fold_left (emit_ section) texts st2))
  ∧ doc_index (fold_left (emit_ section) texts st1)
    = doc_index (fold_left (emit_ section) texts st2).
Proof.
  revert st1 st2. induction texts as [|t texts IH]; intros st1 st2 Hc Hi;
    simpl; [split; assumption|].
  destruct (emit_erase section st1 st2 t Hc Hi) as [Hc' Hi'].
  apply IH; assumption.
Qed.

Lemma sections_erase sections st1 st2 :
  map erase_id (doc_chunks st1) = map erase_id (doc_chunks st2) →
  doc_index st1 = doc_index st2 →
  map erase_id (doc_chunks (fold_left section_loop sections st1))
  = map erase_id (doc_chunks (fold_left section_loop sections st2)).
Proof.
  revert st1 st2. induction sections as [|s sections IH];
    intros st1 st2 Hc Hi; simpl; [assumption|].
  destruct (emits_erase s (section_chunks abbrev_order self s) st1 st2 Hc Hi)
    as [Hc' Hi'].
  apply IH; assumption.
Qed.

End ChunkDocument.

Section ChunkDocumentClaims.

Import ChunkingEngine.

Variable abbrev_order : list string.
Variable self : ChunkingEngine.t.

(** The contents of the chunks of a document do not depend on the entropy
    source. *)
Lemma chunk_document_contents sections document_id document_name g :
  map Chunk.content
    (fst (chunk_document abbrev_order self sections document_id
            document_name g))
  = flat_map
      (λ s, map (λ t, _add_context_prefix t s document_name)
              (section_chunks abbrev_order self s))
      sections.
Proof.
  unfold chunk_document. simpl.
  destruct (sections_app abbrev_order self document_id document_name
              sections (mk_doc [] 0 g)) as (added & Ha & Hc).
  simpl in Ha. now rewrite Ha.
Qed.

(** The output for [pre ++ s :: post] is the output for [pre], then the
    chunks of [s], then chunks with the contents of the output for
    [post]. *)
Lemma chunk_document_split pre s post document_id document_name g :
  ∃ mid rest,
    fst (chunk_document abbrev_order self (pre ++ s :: post) document_id
           document_name g)
    = fst (chunk_document abbrev_order self pre document_id document_name g)
      ++ mid ++ rest
    ∧ map Chunk.content mid
      = map (λ t, _add_context_prefix t s document_name)
          (section_chunks abbrev_order self s)
    ∧ Forall (λ c, Chunk.is_table (Chunk.metadata c) = is_table_section s)
        mid
    ∧ ∀ g',
        map Chunk.content rest
        = map Chunk.content
            (fst (chunk_document abbrev_order self post document_id
                    document_name g')).
Proof.
  unfold chunk_document at 1 2. simpl. rewrite fold_left_app. simpl.
  set (stp := fold_left _ pre _).
  destruct (sections_app abbrev_order self document_id document_name post
              (chunk_section_loop abbrev_order self document_id
                 document_name stp s)) as (rest & Hr & Hrc).
  pose proof (emits_app document_id document_name s
                (section_chunks abbrev_order self s) stp) as Hm.
  change (fold_left _ (section_chunks abbrev_order self s) stp)
    with (chunk_section_loop abbrev_order self document_id document_name
            stp s) in Hm.
  rewrite Hm in Hr.
  eexists _, rest. split; [rewrite Hr, <- List.app_assoc; reflexivity|].
  split; [|split].
  - apply (emits_contents document_id document_name s
             (section_chunks abbrev_order self s)
             (mk_doc [] (doc_index stp) (doc_entropy stp))).
  - assert (G : ∀ texts st,
               Forall (λ c, Chunk.is_table (Chunk.metadata c)
                            = is_table_section s) (doc_chunks st) →
               Forall (λ c, Chunk.is_table (Chunk.metadata c)
                            = is_table_section s)
                 (doc_chunks
                    (fold_left (emit document_id document_name s) texts st))).
    { induction texts as [|t texts IH]; intros st H; simpl; [exact H|].
      apply IH. unfold emit. simpl. apply Forall_app. split; [exact H|].
      constructor; [reflexivity | constructor]. }
    apply G. constructor.
  - intros g'. rewrite Hrc. symmetry. apply chunk_document_contents.
Qed.

(** C1.  The [chunk_index] values of the chunks [chunk_document] returns,
    read in output order, are 0, 1, ..., n-1 for n the number of chunks:
    the counter runs across the sections of the document, without gap or
    repeat, and is never reset. *)
Theorem chunk_index_contiguous sections document_id document_name g :
  let out :=
    fst (chunk_document abbrev_order self sections document_id
           document_name g) in
  indices out = map Z.of_nat (seq 0 (length out)).
Proof.
  simpl. unfold chunk_document. simpl.
  apply (sections_numbered abbrev_order self document_id document_name
           sections (mk_doc [] 0 g)).
  split; reflexivity.
Qed.

(** C9.  Two calls with the same sections, document id, document name and
    engine return equally many chunks with the same contents and metadata
    in the same order, whatever [uuid4] draws: they can differ in the
    [chunk_id] only. *)
Theorem chunking_deterministic_modulo_chunk_id sections document_id
    document_name (g1 g2 : Entropy) :
  let out1 :=
    fst (chunk_document abbrev_order self sections document_id
           document_name g1) in
  let out2 :=
    fst (chunk_document abbrev_order self sections document_id
           document_name g2) in
  length out1 = length out2
  ∧ map (λ c, (Chunk.content c, Chunk.metadata c)) out1
    = map (λ c, (Chunk.content c, Chunk.metadata c)) out2
  ∧ map erase_id out1 = map erase_id out2.
Proof.
  simpl. unfold chunk_document. simpl.
  pose proof (sections_erase abbrev_order self document_id document_name
                sections (mk_doc [] 0 g1) (mk_doc [] 0 g2) eq_refl eq_refl)
    as E.
  split; [|split].
  - apply (f_equal length) in E. now rewrite !length_map in E.
  - apply (f_equal (map (λ x : string * Chunk.meta * string * string,
                           (fst (fst (fst x)), snd (fst (fst x)))))) in E.
    rewrite !map_map in E. exact E.
  - exact E.
Qed.

(** C2.  A section marked as a table contributes exactly one chunk, for
    any chunk size: the output for [pre ++ s :: post] is the output for
    [pre], one chunk [c], and the chunks of [post]; the content of [c] is
    the context prefix, a line break and the content of the section as it
    is. *)
Theorem table_section_single_chunk pre s post document_id document_name g :
  ParsedSection.metadata s !! "type" = Some (MStr "table") →
  ∃ c rest,
    fst (chunk_document abbrev_order self (pre ++ s :: post) document_id
           document_name g)
    = fst (chunk_document abbrev_order self pre document_id document_name g)
      ++ c :: rest
    ∧ Chunk.content c
      = context_prefix s document_name
        +:+ String Char.newline (ParsedSection.content s)
    ∧ Chunk.is_table (Chunk.metadata c) = true
    ∧ ∀ g',
        map Chunk.content rest
        = map Chunk.content
            (fst (chunk_document abbrev_order self post document_id
                    document_name g')).
Proof.
  intros Ht.
  assert (Tb : is_table_section s = true).
  { unfold is_table_section. now rewrite Ht. }
  destruct (chunk_document_split pre s post document_id document_name g)
    as (mid & rest & Ho & Hm & Hf & Hr).
  unfold section_chunks in Hm. rewrite Tb in Hm. simpl in Hm.
  destruct mid as [|c [|c' mid]]; try discriminate.
  exists c, rest. split; [exact Ho|]. split; [|split; [|exact Hr]].
  - now inversion Hm.
  - inversion Hf; subst. congruence.
Qed.

(** C3, amended.  A section with empty content never makes the engine
    fail.  It contributes exactly one chunk, whose content is the context
    prefix and a line break with nothing after it, when it is marked as a
    table or the chunk size is not negative; it contributes no chunk when
    it is not a table and the chunk size is negative.  An empty list of
    sections gives an empty list of chunks. *)
Theorem empty_section_chunks pre s post document_id document_name g :
  ParsedSection.content s = "" →
  let out :=
    fst (chunk_document abbrev_order self (pre ++ s :: post) document_id
           document_name g) in
  let before :=
    fst (chunk_document abbrev_order self pre document_id document_name g) in
  (is_table_section s = true ∨ 0 <= chunk_size_chars self →
   ∃ c rest,
     out = before ++ c :: rest
     ∧ Chunk.content c
       = context_prefix s document_name +:+ String Char.newline ""
     ∧ ∀ g',
         map Chunk.content rest
         = map Chunk.content
             (fst (chunk_document abbrev_order self post document_id
                     document_name g')))
  ∧ (is_table_section s = false ∧ chunk_size_chars self < 0 →
     ∃ rest,
       out = before ++ rest
       ∧ ∀ g',
           map Chunk.content rest
           = map Chunk.content
               (fst (chunk_document abbrev_order self post document_id
                       document_name g')))
  ∧ fst (chunk_document abbrev_order self [] document_id document_name g) = [].
Proof.
  intros He. simpl.
  destruct (chunk_document_split pre s post document_id document_name g)
    as (mid & rest & Ho & Hm & _ & Hr).
  split; [|split; [|reflexivity]].
  - intros Hc.
    assert (Hs : section_chunks abbrev_order self s = [""]).
    { unfold section_chunks, _chunk_section. rewrite He.
      destruct (is_table_section s); [reflexivity|].
      destruct Hc as [Hc|Hc]; [discriminate|].
      change (Str.len "") with 0.
      destruct (Z.leb_spec 0 (chunk_size_chars self)); [reflexivity | lia]. }
    rewrite Hs in Hm. simpl in Hm.
    destruct mid as [|c [|c' mid]]; try discriminate.
    exists c, rest. split; [exact Ho|]. split; [|exact Hr].
    now inversion Hm.
  - intros [Ht Hc].
    assert (Hs : section_chunks abbrev_order self s = []).
    { unfold section_chunks, _chunk_section. rewrite He, Ht.
      change (Str.len "") with 0.
      destruct (Z.leb_spec 0 (chunk_size_chars self)); [lia | reflexivity]. }
    rewrite Hs in Hm. simpl in Hm.
    destruct mid; [|discriminate].
    exists rest. split; [exact Ho | exact Hr].
Qed.

End ChunkDocumentClaims.

(** ** The overlap between consecutive chunks *)

Section Overlap.

Import ChunkingEngine.

Variable self : ChunkingEngine.t.

Local Abbreviation budget := (chunk_overlap_chars self).

Lemma join_cons (sep p : string) (l : list string) :
  l ≠ [] → Str.join sep (p :: l) = p +:+ sep +:+ Str.join sep l.
Proof. destruct l; [congruence | reflexivity]. Qed.

Lemma join_app (sep : string) (a b : list string) :
  a ≠ [] → b ≠ [] →
  Str.join sep (a ++ b) = Str.join sep a +:+ sep +:+ Str.join sep b.
Proof.
  induction a as [|p a IH]; intros Ha Hb; [congruence|].
  destruct a as [|q a].
  - simpl app. now rewrite join_cons.
  - change ((p :: q :: a) ++ b) with (p :: ((q :: a) ++ b)).
    rewrite (join_cons sep p ((q :: a) ++ b)) by discriminate.
    rewrite IH by (discriminate || assumption).
    rewrite (join_cons sep p (q :: a)) by discriminate.
    now rewrite !string_app_assoc.
Qed.

Lemma len_join_cons (w : string) (b : list string) :
  Str.len (Str.join SEP (w :: b)) = Str.len w + charge b.
Proof.
  revert w. induction b as [|x b IH]; intros w.
  - simpl. lia.
  - rewrite join_cons by discriminate. rewrite !len_app, IH.
    change (Str.len SEP) with 2. simpl charge. lia.
Qed.

Lemma fits_join_bound (whole : list string) :
  0 <= budget → fits self whole → Str.len (Str.join SEP whole) <= budget.
Proof.
  intros H0 Hf. destruct whole as [|w b]; [exact H0|].
  rewrite len_join_cons. simpl in Hf. lia.
Qed.

Lemma charge_nonneg (l : list string) : 0 <= charge l.
Proof.
  induction l as [|w b IH]; simpl; [lia|]. pose proof (len_nonneg w). lia.
Qed.

(** The loop, from an accumulator that holds the parts taken so far. *)
Lemma overlap_loop_spec (rparts acc : list string) :
  fits self acc →
  ∃ taken rest_r,
    rparts = taken ++ rest_r
    ∧ fits self (rev taken ++ acc)
    ∧ let whole := rev taken ++ acc in
      let ov := fst (overlap_loop self rparts acc (charge acc)) in
      (rest_r = [] ∧ ov = whole)
      ∨ ∃ p rest',
          rest_r = p :: rest'
          ∧ budget < charge whole + Str.len p
          ∧ let remaining := budget - charge whole in
            (0 < remaining → ov = Str.last_chars remaining p :: whole)
            ∧ (remaining <= 0 → ov = whole).
Proof.
  revert acc. induction rparts as [|part rest IH]; intros acc Hacc.
  - exists [], []. simpl. auto.
  - simpl overlap_loop.
    destruct (Z.leb_spec (charge acc + Str.len part) budget) as [Hle|Hgt].
    + destruct (IH (part :: acc)) as (taken & rest_r & Hs & Hf & Hc).
      { simpl. split; assumption. }
      exists (part :: taken), rest_r. simpl rev. rewrite <- !List.app_assoc.
      change ([part] ++ acc) with (part :: acc).
      split; [now rewrite Hs|]. split; [exact Hf|].
      replace (charge acc + (Str.len part + 2)) with (charge (part :: acc))
        by (simpl; lia).
      exact Hc.
    + exists [], (part :: rest). simpl rev. simpl app.
      split; [reflexivity|]. split; [exact Hacc|].
      right. exists part, rest. split; [reflexivity|]. split; [lia|].
      simpl. split; intros Hr.
      * destruct (Z.gtb_spec (budget - charge acc) 0); [|lia].
        destruct (Z.gtb_spec (Str.len part) 0); [reflexivity|].
        pose proof (charge_nonneg acc). lia.
      * destruct (Z.gtb_spec (budget - charge acc) 0); [lia | reflexivity].
Qed.

Lemma get_overlap_parts_shape (parts : list string) :
  overlap_shape self parts (fst (_get_overlap_parts self parts)).
Proof.
  unfold _get_overlap_parts, overlap_shape.
  destruct (overlap_loop_spec (rev parts) [] I)
    as (taken & rest_r & Hs & Hf & Hc).
  rewrite app_nil_r in Hf, Hc. simpl charge in Hc.
  exists (rev rest_r), (rev taken).
  split.
  { rewrite <- rev_app_distr, <- Hs. now rewrite rev_involutive. }
  split; [exact Hf|].
  destruct Hc as [[-> Hov] | (p & rest' & -> & Hgt & Hpos & Hneg)].
  - left. split; [reflexivity | exact Hov].
  - right. exists (rev rest'), p. split; [reflexivity|]. split; [exact Hgt|].
    simpl. split; [|exact Hneg].
    intros Hr. specialize (Hpos Hr).
    assert (Hl : Str.len (Str.last_chars (budget - charge (rev taken)) p)
                 = budget - charge (rev taken)).
    { apply last_chars_len. lia. }
    split; [exact Hpos|]. split; [exact Hl|].
    rewrite Hpos, len_join_cons, Hl. lia.
Qed.

Lemma is_suffix_trans (a b c : string) :
  Str.is_suffix a b → Str.is_suffix b c → Str.is_suffix a c.
Proof.
  intros [p ->] [q ->]. exists (q +:+ p). now rewrite string_app_assoc.
Qed.

Lemma is_suffix_join_app (a b : list string) :
  Str.is_suffix (Str.join SEP b) (Str.join SEP (a ++ b)).
Proof.
  destruct b as [|y b].
  - exists (Str.join SEP (a ++ [])). now rewrite string_app_empty_r.
  - destruct a as [|x a].
    + exists "". reflexivity.
    + rewrite join_app by discriminate.
      exists (Str.join SEP (x :: a) +:+ SEP). now rewrite string_app_assoc.
Qed.

Lemma is_prefix_join_app (a b : list string) :
  Str.is_prefix (Str.join SEP a) (Str.join SEP (a ++ b)).
Proof.
  destruct a as [|x a].
  - exists (Str.join SEP b). reflexivity.
  - destruct b as [|y b].
    + rewrite app_nil_r. exists "". now rewrite string_app_empty_r.
    + rewrite join_app by discriminate. eexists. reflexivity.
Qed.

Lemma is_suffix_join_head (x p : string) (l : list string) :
  Str.is_suffix x p → Str.is_suffix (Str.join SEP (x :: l)) (Str.join SEP (p :: l)).
Proof.
  intros [q ->]. exists q. destruct l as [|y l].
  - reflexivity.
  - rewrite !join_cons by discriminate. now rewrite string_app_assoc.
Qed.

Lemma get_overlap_parts_suffix (parts : list string) :
  Str.is_suffix (Str.join SEP (fst (_get_overlap_parts self parts)))
    (Str.join SEP parts).
Proof.
  destruct (get_overlap_parts_shape parts)
    as (front & whole & -> & _ & [[-> ->] | (front' & p & -> & _ & Hpos & Hneg)]).
  - exists "". reflexivity.
  - simpl in Hpos, Hneg.
    destruct (Z.lt_ge_cases 0 (budget - charge whole)) as [Hr|Hr].
    + destruct (Hpos Hr) as (-> & _ & _).
      rewrite <- List.app_assoc. change ([p] ++ whole) with (p :: whole).
      eapply is_suffix_trans; [|apply is_suffix_join_app].
      apply is_suffix_join_head, last_chars_suffix.
    + rewrite (Hneg Hr). apply is_suffix_join_app.
Qed.

Lemma get_overlap_parts_bound (parts : list string) :
  0 <= budget →
  Str.len (Str.join SEP (fst (_get_overlap_parts self parts))) <= budget.
Proof.
  intros H0.
  destruct (get_overlap_parts_shape parts)
    as (front & whole & _ & Hf & [[_ ->] | (front' & p & _ & _ & Hpos & Hneg)]).
  - now apply fits_join_bound.
  - simpl in Hpos, Hneg.
    destruct (Z.lt_ge_cases 0 (budget - charge whole)) as [Hr|Hr].
    + destruct (Hpos Hr) as (_ & _ & ->). lia.
    + rewrite (Hneg Hr). now apply fits_join_bound.
Qed.

Lemma step_erased ps st part :
  erased ps st → erased (parts_step self ps part) (combine_step self st part).
Proof.
  intros (Hc & Hp & Hl). unfold erased, parts_step, combine_step.
  rewrite Hp, Hl.
  destruct (_ >? _); [destruct (nonempty_list (open_parts ps))|]; simpl;
    try (repeat split; congruence).
  destruct (_get_overlap_parts self (open_parts ps)) as [ov ovlen]. simpl.
  rewrite Hc, map_app. simpl. repeat split.
Qed.

Lemma steps_erased parts ps st :
  erased ps st →
  erased (fold_left (parts_step self) parts ps)
    (fold_left (combine_step self) parts st).
Proof.
  revert ps st. induction parts as [|p parts IH]; intros ps st H; simpl;
    [exact H | apply IH, step_erased, H].
Qed.

Lemma combine_with_overlap_parts (parts : list string) :
  _combine_with_overlap self parts
  = map (Str.join SEP) (chunk_parts self parts).
Proof.
  unfold _combine_with_overlap, chunk_parts.
  destruct (nonempty_list parts); [|reflexivity].
  destruct (steps_erased parts (mk_parts [] [] 0) (mk_state [] [] 0))
    as (Hc & Hp & Hl); [repeat split|].
  rewrite Hp, Hc. destruct (nonempty_list _); [|reflexivity].
  rewrite map_app. reflexivity.
Qed.

Lemma chained_snoc (l : list (list string)) (a b : list string) :
  chained self (l ++ [a]) → seeded self a b → chained self (l ++ [a; b]).
Proof.
  induction l as [|x l IH]; intros Hc Hs.
  - simpl. auto.
  - destruct l as [|y l].
    + simpl in *. tauto.
    + change (chained self ((x :: y :: l) ++ [a; b]))
        with (seeded self x y ∧ chained self ((y :: l) ++ [a; b])).
      change (chained self ((x :: y :: l) ++ [a]))
        with (seeded self x y ∧ chained self ((y :: l) ++ [a])) in Hc.
      destruct Hc as [Hxy Hc]. split; [exact Hxy | now apply IH].
Qed.

Lemma chained_grow (l : list (list string)) (a : list string) (part : string) :
  chained self (l ++ [a]) → chained self (l ++ [a ++ [part]]).
Proof.
  induction l as [|x l IH]; intros Hc.
  - exact I.
  - destruct l as [|y l].
    + simpl in *. destruct Hc as [(rest & Hne & ->) _]. split; [|exact I].
      exists (rest ++ [part]). split; [now destruct rest|].
      now rewrite List.app_assoc.
    + change (chained self ((x :: y :: l) ++ [a ++ [part]]))
        with (seeded self x y ∧ chained self ((y :: l) ++ [a ++ [part]])).
      change (chained self ((x :: y :: l) ++ [a]))
        with (seeded self x y ∧ chained self ((y :: l) ++ [a])) in Hc.
      destruct Hc as [Hxy Hc]. split; [exact Hxy | now apply IH].
Qed.

Lemma parts_step_chained ps part :
  chained self (closed_parts ps ++ [open_parts ps]) →
  chained self (closed_parts (parts_step self ps part)
           ++ [open_parts (parts_step self ps part)])
  ∧ open_parts (parts_step self ps part) ≠ [].
Proof.
  intros Hc. unfold parts_step.
  destruct (_ >? _); [destruct (nonempty_list (open_parts ps)) eqn:Hn|];
    simpl; try (split; [now apply chained_grow | now destruct (open_parts ps)]).
  destruct (_get_overlap_parts self (open_parts ps)) as [ov ovlen] eqn:Hov.
  simpl. split; [|now destruct ov].
  rewrite <- List.app_assoc. apply chained_snoc; [exact Hc|].
  exists [part]. split; [discriminate|]. now rewrite Hov.
Qed.

Lemma chunk_parts_chained (parts : list string) :
  chained self (chunk_parts self parts).
Proof.
  unfold chunk_parts. destruct parts as [|p parts]; [exact I|].
  simpl nonempty_list. cbv iota.
  assert (G : ∀ l ps,
             chained self (closed_parts ps ++ [open_parts ps]) →
             open_parts ps ≠ [] →
             chained self (closed_parts (fold_left (parts_step self) l ps)
                      ++ [open_parts (fold_left (parts_step self) l ps)])
             ∧ open_parts (fold_left (parts_step self) l ps) ≠ []).
  { induction l as [|q l IH]; intros ps Hc Hn; simpl; [now split|].
    destruct (parts_step_chained ps q Hc). now apply IH. }
  simpl fold_left.
  destruct (parts_step_chained (mk_parts [] [] 0) p I) as [Hc Hn].
  destruct (G parts _ Hc Hn) as [Hc' Hn'].
  set (st := fold_left _ parts _) in *.
  destruct (open_parts st); [congruence | exact Hc'].
Qed.

Lemma chained_lookup (l : list (list string)) (i : nat) (a b : list string) :
  chained self l → l !! i = Some a → l !! S i = Some b → seeded self a b.
Proof.
  revert i. induction l as [|x l IH]; intros i Hc Ha Hb; [discriminate|].
  destruct l as [|y l]; [discriminate|].
  destruct Hc as [Hxy Hc]. destruct i as [|i].
  - simpl in Ha, Hb. congruence.
  - apply (IH i Hc); assumption.
Qed.

(** C4.  With a budget [chunk_overlap_chars] that is not negative: an
    oversized section is chunked by [_combine_with_overlap], whose chunks
    are the joins of the part lists [chunk_parts]; and for two consecutive
    chunks with parts [cp] and [cp'], the second starts with the overlap
    [ov] taken from the first and goes on with new parts, the text of [ov]
    is a tail of the first chunk and a head of the second, and its length
    is at most the budget.  [ov] consists of the last parts of [cp] taken
    whole for as long as they fit and, when the part before them does not
    fit and budget remains, of the trailing slice of that part that fills
    the budget exactly; nothing before that part is taken. *)
Theorem overlap_within_budget (abbrev_order : list string) :
  0 <= chunk_overlap_chars self →
  (∀ section,
     chunk_size_chars self < Str.len (ParsedSection.content section) →
     _chunk_section abbrev_order self section
     = map (Str.join SEP)
         (chunk_parts self
            (processed_parts abbrev_order self
               (ParsedSection.content section))))
  ∧ ∀ parts i cp cp',
      chunk_parts self parts !! i = Some cp →
      chunk_parts self parts !! S i = Some cp' →
      let ov := fst (_get_overlap_parts self cp) in
      (∃ rest, rest ≠ [] ∧ cp' = ov ++ rest)
      ∧ Str.is_suffix (Str.join SEP ov) (Str.join SEP cp)
      ∧ Str.is_prefix (Str.join SEP ov) (Str.join SEP cp')
      ∧ Str.len (Str.join SEP ov) <= chunk_overlap_chars self
      ∧ overlap_shape self cp ov.
Proof.
  intros H0. split.
  - intros section Hbig. unfold _chunk_section.
    destruct (Z.leb_spec (Str.len (ParsedSection.content section))
                (chunk_size_chars self)); [lia|].
    apply combine_with_overlap_parts.
  - intros parts i cp cp' Hi HSi. simpl.
    pose proof (chained_lookup _ i cp cp' (chunk_parts_chained parts) Hi HSi)
      as Hs.
    split; [exact Hs|]. split; [apply get_overlap_parts_suffix|].
    split; [|split; [now apply get_overlap_parts_bound
                    | apply get_overlap_parts_shape]].
    destruct Hs as (rest & _ & ->). apply is_prefix_join_app.
Qed.

End Overlap.

Lemma overlap_within_budget_witness :
  0 <= ChunkingEngine.chunk_overlap_chars (ChunkingEngine.__init__ 2 1)
  ∧ Str.len
      (Str.join ChunkingEngine.SEP
         (fst (ChunkingEngine._get_overlap_parts (ChunkingEngine.__init__ 2 1)
                 ["aaaaaa"])))
    <= 4.
Proof.
  assert (H0 : 0 <= ChunkingEngine.chunk_overlap_chars (ChunkingEngine.__init__ 2 1))
    by (intros H; discriminate H).
  split; [exact H0|].
  destruct (overlap_within_budget (ChunkingEngine.__init__ 2 1)
              ABBREVIATIONS_as_written H0) as [_ H].
  exact (proj1 (proj2 (proj2 (proj2
           (H ["aaaaaa"; "bbbbbb"] O ["aaaaaa"] ["aaaa"; "bbbbbb"]
              eq_refl eq_refl))))).
Defined.

(** ** Sentence splitting *)

Section Sentences.

Import ChunkingEngine.

Lemma abbreviation_cases (P : string → Prop) :
  Forall P ABBREVIATIONS_as_written → ∀ a, a ∈ ABBREVIATIONS → P a.
Proof.
  intros HF a Ha. rewrite Forall_forall in HF. apply HF.
  unfold ABBREVIATIONS in Ha. unfold ABBREVIATIONS_as_written.
  set_unfold. tauto.
Qed.

Lemma as_written_iterates : iterates ABBREVIATIONS ABBREVIATIONS_as_written.
Proof.
  split.
  - refine (bool_decide_unpack (NoDup ABBREVIATIONS_as_written) _).
    vm_compute. exact I.
  - intros x. unfold ABBREVIATIONS, ABBREVIATIONS_as_written. set_unfold.
    tauto.
Qed.

(** A text that no abbreviation pattern matches comes out of the masking
    loop as it went in, whatever the order. *)
Lemma protect_fixed (text : string) (order : list string) :
  Forall (λ a, protect_abbrev text a = text) ABBREVIATIONS_as_written →
  (∀ a, a ∈ order → a ∈ ABBREVIATIONS) →
  fold_left protect_abbrev order text = text.
Proof.
  intros HF. induction order as [|a order IH]; intros Hin; [reflexivity|].
  simpl. rewrite (abbreviation_cases _ HF a) by (apply Hin; left).
  apply IH. intros b Hb. apply Hin. now right.
Qed.

Lemma dr_smith_step (a : string) (d m : bool) :
  a ∈ ABBREVIATIONS →
  protect_abbrev (dr_smith_masked d m) a
  = dr_smith_masked (d || String.eqb a "Dr") (m || String.eqb a "Mr").
Proof.
  intros Ha. revert d m. revert a Ha.
  apply (abbreviation_cases
           (λ a, ∀ d m,
              protect_abbrev (dr_smith_masked d m) a
              = dr_smith_masked (d || String.eqb a "Dr")
                  (m || String.eqb a "Mr"))).
  repeat constructor; intros [] []; vm_compute; reflexivity.
Qed.

Lemma dr_smith_fold (order : list string) (d m : bool) :
  (∀ a, a ∈ order → a ∈ ABBREVIATIONS) →
  fold_left protect_abbrev order (dr_smith_masked d m)
  = dr_smith_masked (d || existsb (λ a, String.eqb a "Dr") order)
      (m || existsb (λ a, String.eqb a "Mr") order).
Proof.
  revert d m. induction order as [|a order IH]; intros d m Hin.
  - simpl. now rewrite !orb_false_r.
  - simpl. rewrite dr_smith_step by (apply Hin; left).
    rewrite IH by (intros b Hb; apply Hin; now right).
    now rewrite !orb_assoc.
Qed.

Lemma existsb_elem (w : string) (order : list string) :
  w ∈ order → existsb (λ a, String.eqb a w) order = true.
Proof.
  intros Hw. apply List.existsb_exists. exists w.
  split; [now apply list_elem_of_In | apply String.eqb_refl].
Qed.

(** C5.  Whatever the order in which the abbreviations are visited: in
    "Dr. Smith went to the store. He met Mr. Jones there." the dots of "Dr."
    and "Mr." are masked before the split and restored after it, and the
    text is split once, after "store.", so that "Dr. Smith" and "Mr. Jones"
    stay whole; in "The value is 3.14159. This is pi." the dot of the
    decimal is masked, and the text is split in exactly two, after
    "3.14159." and not after "3.". *)
Theorem sentence_split_keeps_abbreviations_and_decimals (order : list string) :
  iterates ABBREVIATIONS order →
  fold_left protect_abbrev order dr_smith = dr_smith_masked true true
  ∧ _split_at_sentences order dr_smith
    = ["Dr. Smith went to the store."; "He met Mr. Jones there."]
  ∧ Re.sub DECIMAL decimal_template
      (fold_left protect_abbrev order value_of_pi)
    = "The value is 3<<<DOT>>>14159. This is pi."
  ∧ _split_at_sentences order value_of_pi
    = ["The value is 3.14159."; "This is pi."].
Proof.
  intros [_ Hiter].
  assert (Hin : ∀ a, a ∈ order → a ∈ ABBREVIATIONS) by (intros a; apply Hiter).
  assert (Hdr : fold_left protect_abbrev order dr_smith
                = dr_smith_masked true true).
  { change dr_smith with (dr_smith_masked false false).
    rewrite dr_smith_fold by exact Hin.
    rewrite !existsb_elem by (apply Hiter; unfold ABBREVIATIONS; set_solver).
    reflexivity. }
  assert (Hpi : fold_left protect_abbrev order value_of_pi = value_of_pi).
  { apply protect_fixed; [|exact Hin].
    repeat constructor; vm_compute; reflexivity. }
  split; [exact Hdr|]. split; [|split].
  - unfold _split_at_sentences. rewrite Hdr. vm_compute. reflexivity.
  - rewrite Hpi. vm_compute. reflexivity.
  - unfold _split_at_sentences. rewrite Hpi. vm_compute. reflexivity.
Qed.

Lemma sentence_split_keeps_abbreviations_and_decimals_witness :
  iterates ABBREVIATIONS ABBREVIATIONS_as_written
  ∧ _split_at_sentences ABBREVIATIONS_as_written dr_smith
    = ["Dr. Smith went to the store."; "He met Mr. Jones there."].
Proof.
  split; [exact as_written_iterates|].
  exact (proj1 (proj2 (sentence_split_keeps_abbreviations_and_decimals
                         ABBREVIATIONS_as_written as_written_iterates))).
Defined.

End Sentences.

(** ** The chunk size is a target *)

Section Target.

Import ChunkingEngine.

Variable order : list string.
Hypothesis order_iterates : iterates ABBREVIATIONS order.

Local Abbreviation engine := (__init__ 2 1).

Lemma one_long_word_sentences :
  _split_at_sentences order "aaaaaaaaaaaa" = ["aaaaaaaaaaaa"].
Proof.
  unfold _split_at_sentences. rewrite protect_fixed.
  - vm_compute. reflexivity.
  - repeat constructor; vm_compute; reflexivity.
  - intros a. apply order_iterates.
Qed.

Lemma one_long_word_parts :
  processed_parts order engine (ParsedSection.content one_long_word)
  = ["aaaaaaaaaaaa"].
Proof.
  unfold processed_parts.
  replace (_split_at_paragraphs (ParsedSection.content one_long_word))
    with ["aaaaaaaaaaaa"] by (vm_compute; reflexivity).
  unfold flat_map.
  replace (Str.len "aaaaaaaaaaaa" <=? chunk_size_chars engine) with false
    by (vm_compute; reflexivity).
  rewrite one_long_word_sentences. reflexivity.
Qed.

Lemma one_long_word_chunks :
  section_chunks order engine one_long_word = ["aaaaaaaaaaaa"].
Proof.
  unfold section_chunks.
  replace (is_table_section one_long_word) with false
    by (vm_compute; reflexivity).
  unfold _chunk_section.
  replace (Str.len (ParsedSection.content one_long_word)
           <=? chunk_size_chars engine) with false
    by (vm_compute; reflexivity).
  rewrite one_long_word_parts. vm_compute. reflexivity.
Qed.

Lemma two_paragraphs_parts :
  processed_parts order engine (ParsedSection.content two_paragraphs)
  = ["aaaaaa"; "bbbbbb"].
Proof. vm_compute. reflexivity. Qed.

Lemma two_paragraphs_chunks :
  section_chunks order engine two_paragraphs
  = ["aaaaaa";
     "aaaa" +:+ String Char.newline (String Char.newline "bbbbbb")].
Proof. vm_compute. reflexivity. Qed.

(** C10.  The chunk size is a target and not a bound.  With a chunk size
    of 8 and an overlap of 4 characters: a section that is one run of twelve
    letters gives the single part of twelve letters, and the document gets a
    chunk whose body is that part; a section of two paragraphs of six
    letters gives parts within the size, and the second chunk, seeded with
    four characters of overlap, has a body of twelve characters.  In
    general, a step of the loop appends the part whole: to the current
    parts, or, when it closes a chunk, to the overlap of the closed chunk,
    with no comparison of the new length with the chunk size. *)
Theorem chunk_size_is_a_target :
  (chunk_size_chars engine
   < Str.len (ParsedSection.content one_long_word)
   ∧ is_table_section one_long_word = false
   ∧ processed_parts order engine (ParsedSection.content one_long_word)
     = ["aaaaaaaaaaaa"]
   ∧ map Chunk.content
       (fst (chunk_document order engine [one_long_word] "doc-1" "notes.txt"
               constant_entropy))
     = [_add_context_prefix "aaaaaaaaaaaa" one_long_word "notes.txt"]
   ∧ chunk_size_chars engine < Str.len "aaaaaaaaaaaa")
  ∧ (processed_parts order engine (ParsedSection.content two_paragraphs)
     = ["aaaaaa"; "bbbbbb"]
     ∧ Str.len "aaaaaa" <= chunk_size_chars engine
     ∧ Str.len "bbbbbb" <= chunk_size_chars engine
     ∧ (let second :=
          "aaaa" +:+ String Char.newline (String Char.newline "bbbbbb") in
        map Chunk.content
          (fst (chunk_document order engine [two_paragraphs] "doc-1"
                  "notes.txt" constant_entropy))
        = [_add_context_prefix "aaaaaa" two_paragraphs "notes.txt";
           _add_context_prefix second two_paragraphs "notes.txt"]
        ∧ chunk_size_chars engine < Str.len second))
  ∧ ∀ self st part,
      let st' := combine_step self st part in
      let separator_length :=
        if nonempty_list (current_chunk_parts st) then 2 else 0 in
      let closes :=
        (current_length st + separator_length + Str.len part
           >? chunk_size_chars self)
        && nonempty_list (current_chunk_parts st) in
      (closes = true →
       chunks st' = chunks st ++ [Str.join SEP (current_chunk_parts st)]
       ∧ current_chunk_parts st'
         = fst (_get_overlap_parts self (current_chunk_parts st)) ++ [part]
       ∧ current_length st'
         = snd (_get_overlap_parts self (current_chunk_parts st))
           + (2 + Str.len part))
      ∧ (closes = false →
         chunks st' = chunks st
         ∧ current_chunk_parts st' = current_chunk_parts st ++ [part]).
Proof.
  split; [|split].
  - split; [vm_compute; reflexivity|]. split; [vm_compute; reflexivity|].
    split; [exact one_long_word_parts|]. split; [|vm_compute; reflexivity].
    rewrite chunk_document_contents. simpl flat_map.
    rewrite one_long_word_chunks. reflexivity.
  - split; [exact two_paragraphs_parts|].
    split; [intros H; discriminate H|]. split; [intros H; discriminate H|].
    cbv zeta. split; [|vm_compute; reflexivity].
    rewrite chunk_document_contents. simpl flat_map.
    rewrite two_paragraphs_chunks. reflexivity.
  - intros self st part. simpl. unfold combine_step.
    destruct (_ >? _); destruct (nonempty_list (current_chunk_parts st));
      simpl; (split; [intros H; try discriminate H|intros H; try discriminate H]);
      try (split; reflexivity).
    destruct (_get_overlap_parts self (current_chunk_parts st)) as [ov n].
    simpl. repeat split.
Qed.

End Target.

Lemma chunk_size_is_a_target_witness :
  ChunkingEngine.iterates ChunkingEngine.ABBREVIATIONS ABBREVIATIONS_as_written
  ∧ ChunkingEngine.processed_parts ABBREVIATIONS_as_written
      (ChunkingEngine.__init__ 2 1) (ParsedSection.content one_long_word)
    = ["aaaaaaaaaaaa"].
Proof.
  split; [exact as_written_iterates|].
  exact (proj1 (proj2 (proj2 (proj1
           (chunk_size_is_a_target ABBREVIATIONS_as_written
              as_written_iterates))))).
Defined.

(** ** The processor *)

Section ProcessorFacts.

Import Processor Run.

Context {World Vector Time : Type}.
Variable self : @Services World Vector Time.

Local Abbreviation M := (@M World Vector).

Lemma faithful_ret {A} (a : A) :
  faithful (ret (World := World) (Vector := Vector) a).
Proof.
  intros st. exists []. simpl. rewrite app_nil_r. split; [reflexivity|].
  split; [intros c e H; inversion H | intros e H; discriminate H].
Qed.

Lemma faithful_bind {A B} (m : M A) (k : A → M B) :
  faithful m → (∀ a, faithful (k a)) → faithful (bind m k).
Proof.
  intros Hm Hk st. destruct (Hm st) as (evs1 & Hc1 & Hr1 & Hl1). unfold bind.
  destruct (m st) as [[a|e] st1]; simpl in *.
  - destruct (Hk a st1) as (evs2 & Hc2 & Hr2 & Hl2). exists (evs1 ++ evs2).
    split; [now rewrite Hc2, Hc1, List.app_assoc|]. split.
    + intros c e' Hin. apply elem_of_app in Hin as [Hin|Hin].
      * specialize (Hr1 c e' Hin). discriminate.
      * exact (Hr2 c e' Hin).
    + intros e' He'. destruct (Hl2 e' He') as (c & Hin). exists c.
      apply elem_of_app. now right.
  - exists evs1. split; [exact Hc1|]. split.
    + intros c e' Hin. specialize (Hr1 c e' Hin). now inversion Hr1.
    + intros e' He'. inversion He'; subst e'. exact (Hl1 e eq_refl).
Qed.

Lemma faithful_invoke {A} (c : @Call Vector) (inj : A → @Value Vector)
    (op : World → Outcome A * World) :
  faithful (invoke c inj op).
Proof.
  intros st. unfold invoke. destruct (op (world st)) as [r w]. simpl.
  eexists. split; [reflexivity|]. split.
  - intros c' e Hin. apply list_elem_of_singleton in Hin.
    destruct r; simpl in Hin; congruence.
  - intros e ->. exists c. simpl. apply list_elem_of_singleton. reflexivity.
Qed.

Lemma faithful_update_status id s n msg :
  faithful (update_status (World := World) (Vector := Vector) id s n msg).
Proof.
  intros st. exists []. simpl. rewrite app_nil_r. split; [reflexivity|].
  split; [intros c e H; inversion H | intros e H; discriminate H].
Qed.

Lemma faithful_now : faithful (now self).
Proof.
  intros st. exists []. unfold now. destruct (time_time self (world st)).
  simpl. rewrite app_nil_r. split; [reflexivity|].
  split; [intros c e H; inversion H | intros e H; discriminate H].
Qed.

Ltac faithful_steps :=
  repeat first
    [ apply faithful_ret
    | apply faithful_invoke
    | apply faithful_update_status
    | apply faithful_now
    | apply faithful_bind; [|intros ?]
    | progress cbv beta zeta
    | match goal with
      | |- faithful (if ?b then _ else _) => destruct b
      end ].

Lemma faithful_error_result id msg t0 :
  faithful (_error_result self id msg t0).
Proof. unfold _error_result. faithful_steps. Qed.

Lemma faithful_process_body file_path project_id document_id filename t0 :
  faithful (process_body self file_path project_id document_id filename t0).
Proof.
  unfold process_body, delete_document.
  repeat first [ apply faithful_error_result | progress faithful_steps ].
Qed.

(** What [_error_result] does: the result, the registry entry, no call. *)
Lemma error_result_run id msg t0 (st : @State World Vector) :
  ∃ t w,
    _error_result self id msg t0 st
    = (Returned (mk_result id error 0 (Some msg) t),
       mk_st (<[id := mk_status id error 0 (Some msg)]> (_processing_status st))
         w (calls st)).
Proof.
  unfold _error_result, bind, now, update_status, ret.
  destruct (time_time self (world st)) as [t w]. simpl. eauto.
Qed.

Lemma now_run (st : @State World Vector) :
  ∃ t w,
    now self st = (Returned t, mk_st (_processing_status st) w (calls st)).
Proof. unfold now. destruct (time_time self (world st)). eauto. Qed.

Lemma registry_free_invoke {A} (c : @Call Vector) (inj : A → @Value Vector)
    (op : World → Outcome A * World) :
  registry_free (invoke c inj op).
Proof.
  intros st. unfold invoke. now destruct (op (world st)).
Qed.

Lemma raises_early_bind {A B} (m : M A) (k : A → M B) :
  registry_free m → (∀ a, raises_early (k a)) → raises_early (bind m k).
Proof.
  intros Hm Hk st e. specialize (Hm st). unfold bind.
  destruct (m st) as [[a|e'] st1]; simpl in *.
  - intros He. rewrite (Hk a st1 e He). exact Hm.
  - intros _. exact Hm.
Qed.

Lemma raises_early_returns {A} (m : M A) :
  (∀ st, ∃ a, (m st).1 = Returned a) → raises_early m.
Proof.
  intros Hm st e He. destruct (Hm st) as (a & Ha). congruence.
Qed.

Lemma raises_early_error_result id msg t0 :
  raises_early (_error_result self id msg t0).
Proof.
  apply raises_early_returns. intros st.
  destruct (error_result_run id msg t0 st) as (t & w & ->). simpl. eauto.
Qed.

(** When the body of the [try] raises, the registry entry of the document
    is the one written before the first service call. *)
Lemma process_body_raised file_path project_id document_id filename t0
    (st : @State World Vector) e :
  (process_body self file_path project_id document_id filename t0 st).1
  = Raised e →
  _processing_status
    (process_body self file_path project_id document_id filename t0 st).2
  = <[document_id := mk_status document_id processing 0 None]>
      (_processing_status st).
Proof.
  unfold process_body. cbv beta zeta.
  destruct (negb (bool_decide _)).
  - destruct (error_result_run document_id
                ("Unsupported file type: ." +:+ file_extension self filename)
                t0 st) as (t & w & ->).
    discriminate.
  - match goal with
    | |- (bind (update_status ?a ?b ?c ?d) ?k st).1 = _ → _ =>
        change (bind (update_status a b c d) k st)
          with (k tt
                  (mk_st (<[a := mk_status a b c d]> (_processing_status st))
                     (world st) (calls st)));
        intros He;
        assert (Hk : raises_early (k tt))
    end.
    + unfold delete_document.
      repeat first
        [ apply raises_early_error_result
        | apply raises_early_bind; [apply registry_free_invoke | intros ?]
        | progress cbv beta zeta
        | match goal with
          | |- raises_early (if ?b then _ else _) => destruct b
          end ].
      apply raises_early_returns. intros st'. unfold bind, update_status, ret.
      destruct (now_run st') as (t & w & ->). simpl. eauto.
    + exact (Hk _ _ He).
Qed.

(** C6, amended.  [process_document] returns a result unless a service
    call made during the run raised something that is not an instance of
    [Exception], which the run then raises in its turn.  When a call of
    the parser, the chunker, the embedder or the store raised an instance
    [e] of [Exception], the result has status [error] and the text of [e]
    for message, and so has the registry entry of the document.  When a
    call raised an [e] that is not an instance of [Exception], the run
    raises [e] and the registry entry of the document stays at
    [processing].  What a run raises is never an instance of [Exception],
    and a service call of the run raised it. *)
Theorem process_document_converts_exceptions
    (file_path project_id document_id filename : string)
    (st : @State World Vector) :
  let run := process_document self file_path project_id document_id filename
               st in
  ((∀ c e, mk_event c (Raised e) ∈ new_calls st run → is_Exception e = true) →
   ∃ result, run.1 = Returned result)
  ∧ (∀ c e,
       mk_event c (Raised e) ∈ new_calls st run →
       is_Exception e = true →
       (∃ t, run.1
             = Returned (mk_result document_id error 0 (Some (str_exc e)) t))
       ∧ _processing_status run.2 !! document_id
         = Some (mk_status document_id error 0 (Some (str_exc e))))
  ∧ (∀ c e,
       mk_event c (Raised e) ∈ new_calls st run →
       is_Exception e = false →
       run.1 = Raised e
       ∧ _processing_status run.2 !! document_id
         = Some (mk_status document_id processing 0 None))
  ∧ (∀ e,
       run.1 = Raised e →
       is_Exception e = false
       ∧ ∃ c, mk_event c (Raised e) ∈ new_calls st run).
Proof.
  cbv zeta. unfold new_calls, process_document, bind.
  destruct (now_run st) as (t0 & w0 & ->).
  set (st0 := mk_st (_processing_status st) w0 (calls st)).
  unfold try_except.
  destruct (faithful_process_body file_path project_id document_id filename
              t0 st0) as (evs & Hc & Hr & Hl).
  pose proof (process_body_raised file_path project_id document_id filename
                t0 st0) as Hreg.
  destruct (process_body self file_path project_id document_id filename t0 st0)
    as [[res|e] st1]; simpl in Hc, Hr, Hl, Hreg.
  - simpl. rewrite Hc. simpl. rewrite drop_app_length.
    split; [eauto|].
    split; [intros c e Hin; specialize (Hr c e Hin); discriminate|].
    split; [intros c e Hin; specialize (Hr c e Hin); discriminate|].
    intros e He. discriminate.
  - destruct (Hl e eq_refl) as (c0 & Hin0).
    destruct (is_Exception e) eqn:Hexc.
    + destruct (error_result_run document_id (str_exc e) t0 st1)
        as (t & w & ->).
      simpl. rewrite Hc. simpl. rewrite drop_app_length.
      split; [eauto|]. split.
      * intros c e' Hin _. specialize (Hr c e' Hin). inversion Hr; subst e'.
        split; [eauto|]. apply lookup_insert_eq.
      * split; [|intros e' He'; discriminate].
        intros c e' Hin He'. specialize (Hr c e' Hin). inversion Hr; subst e'.
        congruence.
    + simpl. rewrite Hc. simpl. rewrite drop_app_length. split.
      * intros Hall. specialize (Hall c0 e Hin0). congruence.
      * split.
        -- intros c e' Hin He'. specialize (Hr c e' Hin).
           inversion Hr; subst e'. congruence.
        -- split.
           ++ intros c e' Hin _. specialize (Hr c e' Hin).
              inversion Hr; subst e'. split; [reflexivity|].
              rewrite (Hreg e eq_refl). apply lookup_insert_eq.
           ++ intros e' He'. inversion He'; subst e'. split; [exact Hexc|].
              exists c0. exact Hin0.
Qed.

(** C7.  A file name whose extension is not one of the allowed ones ends
    the run at once: the result and the registry entry have status [error]
    and the message "Unsupported file type: ." followed by the extension in
    lower case; no service is called, neither the store for a deletion nor
    the parser. *)
Theorem unsupported_extension_rejected
    (file_path project_id document_id filename : string)
    (st : @State World Vector) :
  file_extension self filename ∉ ALLOWED_EXTENSIONS →
  let run := process_document self file_path project_id document_id filename
               st in
  let message := "Unsupported file type: ." +:+ file_extension self filename in
  (∃ t, run.1 = Returned (mk_result document_id error 0 (Some message) t))
  ∧ new_calls st run = []
  ∧ calls run.2 = calls st
  ∧ _processing_status run.2
    = <[document_id := mk_status document_id error 0 (Some message)]>
        (_processing_status st).
Proof.
  intros Hext. cbv zeta. unfold new_calls, process_document, bind.
  destruct (now_run st) as (t0 & w0 & ->).
  set (st0 := mk_st (_processing_status st) w0 (calls st)).
  unfold try_except, process_body. cbv beta zeta.
  rewrite (bool_decide_eq_false_2 _ Hext).
  change (negb false) with true. cbv iota.
  destruct (error_result_run document_id
              ("Unsupported file type: ." +:+ file_extension self filename)
              t0 st0) as (t & w & ->).
  simpl. split; [eauto|]. split; [apply skipn_all|]. split; reflexivity.
Qed.

Lemma upsert_free_ret {A} (a : A) :
  upsert_free (ret (World := World) (Vector := Vector) a).
Proof.
  intros st. exists []. simpl. rewrite app_nil_r. split; [reflexivity|].
  intros p cs vs o H. inversion H.
Qed.

Lemma upsert_free_update_status id s n msg :
  upsert_free (update_status (World := World) (Vector := Vector) id s n msg).
Proof.
  intros st. exists []. simpl. rewrite app_nil_r. split; [reflexivity|].
  intros p cs vs o H. inversion H.
Qed.

Lemma upsert_free_now : upsert_free (now self).
Proof.
  intros st. exists []. unfold now. destruct (time_time self (world st)).
  simpl. rewrite app_nil_r. split; [reflexivity|].
  intros p cs vs o H. inversion H.
Qed.

Lemma upsert_free_bind {A B} (m : M A) (k : A → M B) :
  upsert_free m → (∀ a, upsert_free (k a)) → upsert_free (bind m k).
Proof.
  intros Hm Hk st. destruct (Hm st) as (evs1 & Hc1 & Hf1). unfold bind.
  destruct (m st) as [[a|e] st1]; simpl in *.
  - destruct (Hk a st1) as (evs2 & Hc2 & Hf2). exists (evs1 ++ evs2).
    split; [now rewrite Hc2, Hc1, List.app_assoc|].
    intros p cs vs o Hin. apply elem_of_app in Hin as [Hin|Hin].
    + exact (Hf1 _ _ _ _ Hin).
    + exact (Hf2 _ _ _ _ Hin).
  - exists evs1. split; [exact Hc1 | exact Hf1].
Qed.

Lemma upsert_free_invoke {A} (c : @Call Vector) (inj : A → @Value Vector)
    (op : World → Outcome A * World) :
  (∀ p cs vs, c ≠ call_upsert_chunks p cs vs) →
  upsert_free (invoke c inj op).
Proof.
  intros Hc st. unfold invoke. destruct (op (world st)) as [r w]. simpl.
  eexists. split; [reflexivity|]. intros p cs vs o Hin.
  apply list_elem_of_singleton in Hin. inversion Hin as [[Hcall Ho]].
  exact (Hc p cs vs (eq_sym Hcall)).
Qed.

Lemma upsert_free_error_result id msg t0 :
  upsert_free (_error_result self id msg t0).
Proof.
  unfold _error_result.
  apply upsert_free_bind; [apply upsert_free_now | intros t].
  apply upsert_free_bind; [apply upsert_free_update_status | intros _].
  apply upsert_free_ret.
Qed.

Lemma upsert_free_reported id (m : M (@ProcessingResult Time)) :
  upsert_free m → store_reported id m.
Proof.
  intros Hm st. destruct (Hm st) as (evs & Hc & Hf). exists evs.
  split; [exact Hc|]. intros p cs vs n Hin. destruct (Hf _ _ _ _ Hin).
Qed.

Lemma store_reported_bind {A} id (m : M A)
    (k : A → M (@ProcessingResult Time)) :
  upsert_free m → (∀ a, store_reported id (k a)) →
  store_reported id (bind m k).
Proof.
  intros Hm Hk st. destruct (Hm st) as (evs1 & Hc1 & Hf1). unfold bind.
  destruct (m st) as [[a|e] st1]; simpl in *.
  - destruct (Hk a st1) as (evs2 & Hc2 & Hv2). exists (evs1 ++ evs2).
    split; [now rewrite Hc2, Hc1, List.app_assoc|].
    intros p cs vs n Hin. apply elem_of_app in Hin as [Hin|Hin].
    + destruct (Hf1 _ _ _ _ Hin).
    + exact (Hv2 _ _ _ _ Hin).
  - exists evs1. split; [exact Hc1|]. intros p cs vs n Hin.
    destruct (Hf1 _ _ _ _ Hin).
Qed.

(** The store stage and what follows it. *)
Lemma store_stage_reported project_id document_id chunks embeddings t0 :
  store_reported document_id
    (bind
       (invoke (call_upsert_chunks project_id chunks embeddings) VInt
          (vector_store_upsert_chunks self project_id chunks embeddings))
       (λ upserted,
          if upserted =? 0 then
            _error_result self document_id "Failed to store vectors in Qdrant"
              t0
          else
            bind (now self)
              (λ t,
                 bind (update_status document_id ready upserted None)
                   (λ _,
                      ret (mk_result document_id ready upserted None
                             (time_minus self t t0)))))).
Proof.
  intros st. unfold bind, invoke, update_status, ret.
  destruct (vector_store_upsert_chunks self project_id chunks embeddings
              (world st)) as [[upserted|e] w].
  - destruct (Z.eqb_spec upserted 0) as [Hz|Hnz].
    + match goal with
      | |- context [_error_result _ ?a ?b ?c ?d] =>
          destruct (error_result_run a b c d) as (t & w' & ->)
      end.
      simpl. eexists. split; [reflexivity|]. intros p cs vs n Hin.
      apply list_elem_of_singleton in Hin. inversion Hin; subst.
      split; [intros _ | intros Hn; now destruct Hn].
      split; [eauto | apply lookup_insert_eq].
    + match goal with
      | |- context [now _ ?a] => destruct (now_run a) as (t & w' & ->)
      end.
      simpl. eexists. split; [reflexivity|]. intros p cs vs n Hin.
      apply list_elem_of_singleton in Hin. inversion Hin; subst.
      split; [intros Hn; now destruct Hnz | intros _].
      split; [eauto | apply lookup_insert_eq].
  - simpl. eexists. split; [reflexivity|]. intros p cs vs n Hin.
    apply list_elem_of_singleton in Hin. inversion Hin.
Qed.

Lemma process_body_reported file_path project_id document_id filename t0 :
  store_reported document_id
    (process_body self file_path project_id document_id filename t0).
Proof.
  unfold process_body, delete_document. cbv beta zeta.
  destruct (negb (bool_decide _));
    [apply upsert_free_reported, upsert_free_error_result|].
  apply store_reported_bind; [apply upsert_free_update_status | intros _].
  apply store_reported_bind;
    [apply upsert_free_invoke; discriminate | intros _].
  apply store_reported_bind;
    [apply upsert_free_invoke; discriminate | intros sections].
  destruct (negb (ChunkingEngine.nonempty_list sections));
    [apply upsert_free_reported, upsert_free_error_result|].
  apply store_reported_bind;
    [apply upsert_free_invoke; discriminate | intros chunks].
  destruct (negb (ChunkingEngine.nonempty_list chunks));
    [apply upsert_free_reported, upsert_free_error_result|].
  cbv beta zeta.
  apply store_reported_bind;
    [apply upsert_free_invoke; discriminate | intros embeddings].
  destruct (negb _);
    [apply upsert_free_reported, upsert_free_error_result|].
  apply store_stage_reported.
Qed.

(** C8, amended.  When the store was called during the run and reported
    [n] rows: if [n] is 0 the result and the registry entry have status
    [error] and the message "Failed to store vectors in Qdrant"; otherwise
    they have status [ready] and the chunk count [n]. *)
Theorem store_stage_outcome
    (file_path project_id document_id filename : string)
    (st : @State World Vector) p cs vs (n : Z) :
  let run := process_document self file_path project_id document_id filename
               st in
  mk_event (call_upsert_chunks p cs vs) (Returned (VInt n)) ∈ new_calls st run →
  (n = 0 →
   (∃ t, run.1
         = Returned
             (mk_result document_id error 0
                (Some "Failed to store vectors in Qdrant") t))
   ∧ _processing_status run.2 !! document_id
     = Some (mk_status document_id error 0
               (Some "Failed to store vectors in Qdrant")))
  ∧ (n ≠ 0 →
     (∃ t, run.1 = Returned (mk_result document_id ready n None t))
     ∧ _processing_status run.2 !! document_id
       = Some (mk_status document_id ready n None)).
Proof.
  cbv zeta. unfold new_calls, process_document, bind.
  destruct (now_run st) as (t0 & w0 & ->).
  set (st0 := mk_st (_processing_status st) w0 (calls st)).
  unfold try_except.
  destruct (process_body_reported file_path project_id document_id filename
              t0 st0) as (evs & Hc & Hv).
  destruct (process_body self file_path project_id document_id filename t0 st0)
    as [[res|e] st1]; simpl in Hc, Hv.
  - simpl. rewrite Hc. simpl. rewrite drop_app_length.
    intros Hin. exact (Hv _ _ _ _ Hin).
  - assert (Hno : mk_event (call_upsert_chunks p cs vs) (Returned (VInt n))
                  ∉ evs).
    { intros Hin. destruct (Hv _ _ _ _ Hin) as [Hz Hnz].
      destruct (Z.eq_dec n 0) as [E|E].
      - destruct (Hz E) as [[t' Ht'] _]. discriminate.
      - destruct (Hnz E) as [[t' Ht'] _]. discriminate. }
    destruct (is_Exception e).
    + destruct (error_result_run document_id (str_exc e) t0 st1)
        as (t & w & ->).
      simpl. rewrite Hc. simpl. rewrite drop_app_length.
      intros Hin. destruct (Hno Hin).
    + simpl. rewrite Hc. simpl. rewrite drop_app_length.
      intros Hin. destruct (Hno Hin).
Qed.

End ProcessorFacts.

(** ** The claims at sample inputs *)

Lemma table_section_single_chunk_witness :
  ParsedSection.metadata (table_section "| a | b |") !! "type"
  = Some (MStr "table")
  ∧ ∃ c rest,
      fst (ChunkingEngine.chunk_document ABBREVIATIONS_as_written
             (ChunkingEngine.__init__ 1 0)
             ([plain_section "intro"] ++ table_section "| a | b |" :: [])
             "doc-1" "data.pdf" constant_entropy)
      = fst (ChunkingEngine.chunk_document ABBREVIATIONS_as_written
               (ChunkingEngine.__init__ 1 0) [plain_section "intro"] "doc-1"
               "data.pdf" constant_entropy)
        ++ c :: rest
      ∧ Chunk.content c
        = ChunkingEngine.context_prefix (table_section "| a | b |") "data.pdf"
          +:+ String Char.newline
                (ParsedSection.content (table_section "| a | b |"))
      ∧ Chunk.is_table (Chunk.metadata c) = true
      ∧ ∀ g',
          map Chunk.content rest
          = map Chunk.content
              (fst (ChunkingEngine.chunk_document ABBREVIATIONS_as_written
                      (ChunkingEngine.__init__ 1 0) [] "doc-1" "data.pdf" g')).
Proof.
  assert (H : ParsedSection.metadata (table_section "| a | b |") !! "type"
              = Some (MStr "table")) by (vm_compute; reflexivity).
  split; [exact H|].
  exact (table_section_single_chunk ABBREVIATIONS_as_written
           (ChunkingEngine.__init__ 1 0) [plain_section "intro"]
           (table_section "| a | b |") [] "doc-1" "data.pdf" constant_entropy
           H).
Defined.

(** C3 as stated fails: with the default sizes, a section with empty
    content gets one chunk, made of the header alone. *)
Lemma empty_section_emits_a_chunk :
  ParsedSection.content (plain_section "") = ""
  ∧ map Chunk.content
      (fst (ChunkingEngine.chunk_document ABBREVIATIONS_as_written
              (ChunkingEngine.__init__ 512 50) [plain_section ""] "doc-1"
              "notes.txt" constant_entropy))
    = ["[Document: notes.txt]" +:+ String Char.newline ""]
  ∧ fst (ChunkingEngine.chunk_document ABBREVIATIONS_as_written
           (ChunkingEngine.__init__ 512 50) [plain_section ""] "doc-1"
           "notes.txt" constant_entropy)
    ≠ [].
Proof.
  split; [reflexivity|]. split; [vm_compute; reflexivity|].
  vm_compute. discriminate.
Qed.

Lemma empty_section_chunks_witness :
  ParsedSection.content (plain_section "") = ""
  ∧ ∃ c rest,
      fst (ChunkingEngine.chunk_document ABBREVIATIONS_as_written
             (ChunkingEngine.__init__ 512 50) ([] ++ plain_section "" :: [])
             "doc-1" "notes.txt" constant_entropy)
      = fst (ChunkingEngine.chunk_document ABBREVIATIONS_as_written
               (ChunkingEngine.__init__ 512 50) [] "doc-1" "notes.txt"
               constant_entropy)
        ++ c :: rest
      ∧ Chunk.content c
        = ChunkingEngine.context_prefix (plain_section "") "notes.txt"
          +:+ String Char.newline "".
Proof.
  split; [reflexivity|].
  destruct (proj1 (empty_section_chunks ABBREVIATIONS_as_written
                     (ChunkingEngine.__init__ 512 50) [] (plain_section "") []
                     "doc-1" "notes.txt" constant_entropy eq_refl))
    as (c & rest & Ho & Hc & _).
  - right. intros H. discriminate H.
  - exists c, rest. split; [exact Ho | exact Hc].
Defined.

Section Samples.

Import Processor Run.

Lemma exe_not_allowed :
  file_extension (sample_services 1 None) "report.EXE" ∉ ALLOWED_EXTENSIONS.
Proof.
  change (file_extension (sample_services 1 None) "report.EXE") with "exe".
  refine (bool_decide_unpack ("exe" ∉ ALLOWED_EXTENSIONS) _).
  vm_compute. exact I.
Qed.

Lemma unsupported_extension_rejected_witness :
  (file_extension (sample_services 1 None) "report.EXE" ∉ ALLOWED_EXTENSIONS)
  ∧ new_calls initial_state
      (process_document (sample_services 1 None) "/uploads/report.EXE"
         "project-1" "doc-1" "report.EXE" initial_state)
    = [].
Proof.
  split; [exact exe_not_allowed|].
  exact (proj1 (proj2
           (unsupported_extension_rejected (sample_services 1 None)
              "/uploads/report.EXE" "project-1" "doc-1" "report.EXE"
              initial_state exe_not_allowed))).
Defined.

Lemma embedder_failure_logged :
  mk_event (call_embed_batch ["[Document: a.txt]" +:+ String Char.newline "hello world"] 32)
    (Raised (Exc "Embedding model not loaded"))
  ∈ new_calls initial_state
      (process_document
         (sample_services 1 (Some (Exc "Embedding model not loaded")))
         "/uploads/a.txt" "project-1" "doc-1" "a.txt" initial_state).
Proof.
  apply list_elem_of_In. vm_compute. do 3 right. left. reflexivity.
Qed.

Lemma process_document_converts_exceptions_witness :
  mk_event (call_embed_batch ["[Document: a.txt]" +:+ String Char.newline "hello world"] 32)
    (Raised (Exc "Embedding model not loaded"))
  ∈ new_calls initial_state
      (process_document
         (sample_services 1 (Some (Exc "Embedding model not loaded")))
         "/uploads/a.txt" "project-1" "doc-1" "a.txt" initial_state)
  ∧ is_Exception (Exc "Embedding model not loaded") = true
  ∧ _processing_status
      (process_document
         (sample_services 1 (Some (Exc "Embedding model not loaded")))
         "/uploads/a.txt" "project-1" "doc-1" "a.txt" initial_state).2
    !! "doc-1"
    = Some (mk_status "doc-1" error 0 (Some "Embedding model not loaded")).
Proof.
  split; [exact embedder_failure_logged|]. split; [reflexivity|].
  exact (proj2
           (proj1 (proj2
              (process_document_converts_exceptions
                 (sample_services 1 (Some (Exc "Embedding model not loaded")))
                 "/uploads/a.txt" "project-1" "doc-1" "a.txt" initial_state))
              _ _ embedder_failure_logged eq_refl)).
Defined.

(** C6 as stated fails: when the embedder raises [KeyboardInterrupt], which
    is not an instance of [Exception], the run returns no result: it raises
    [KeyboardInterrupt], and the registry entry of the document stays at
    [processing]. *)
Lemma keyboard_interrupt_propagates :
  let run :=
    process_document (sample_services 1 (Some KeyboardInterrupt))
      "/uploads/a.txt" "project-1" "doc-1" "a.txt" initial_state in
  mk_event (call_embed_batch ["[Document: a.txt]" +:+ String Char.newline "hello world"] 32)
    (Raised KeyboardInterrupt)
  ∈ new_calls initial_state run
  ∧ run.1 = Raised KeyboardInterrupt
  ∧ (∀ result, run.1 ≠ Returned result)
  ∧ _processing_status run.2 !! "doc-1"
    = Some (mk_status "doc-1" processing 0 None).
Proof.
  cbv zeta. split.
  - apply list_elem_of_In. vm_compute. do 3 right. left. reflexivity.
  - split; [vm_compute; reflexivity|].
    split; [intros result H; vm_compute in H; discriminate H|].
    vm_compute. reflexivity.
Qed.

Lemma store_reports_zero :
  mk_event
    (call_upsert_chunks "project-1"
       (fst (ChunkingEngine.chunk_document ABBREVIATIONS_as_written
               (ChunkingEngine.__init__ 512 50) [plain_section "hello world"]
               "doc-1" "a.txt" constant_entropy))
       [[0]])
    (Returned (VInt 0))
  ∈ new_calls initial_state
      (process_document (sample_services 0 None) "/uploads/a.txt" "project-1"
         "doc-1" "a.txt" initial_state).
Proof.
  apply list_elem_of_In. vm_compute. do 4 right. left. reflexivity.
Qed.

(** C8 as stated fails: when the store reports no row, the message is not
    "Failed to store vectors". *)
Lemma store_failure_message_names_qdrant :
  let run :=
    process_document (sample_services 0 None) "/uploads/a.txt" "project-1"
      "doc-1" "a.txt" initial_state in
  (∃ p cs vs,
     mk_event (call_upsert_chunks p cs vs) (Returned (VInt 0))
     ∈ new_calls initial_state run)
  ∧ ∃ result,
      run.1 = Returned result
      ∧ status result = error
      ∧ error_message result = Some "Failed to store vectors in Qdrant"
      ∧ error_message result ≠ Some "Failed to store vectors".
Proof.
  cbv zeta. split.
  - eexists _, _, _. exact store_reports_zero.
  - eexists. split; [vm_compute; reflexivity|]. simpl.
    split; [reflexivity|]. split; [reflexivity | discriminate].
Qed.

Lemma store_stage_outcome_witness :
  mk_event
    (call_upsert_chunks "project-1"
       (fst (ChunkingEngine.chunk_document ABBREVIATIONS_as_written
               (ChunkingEngine.__init__ 512 50) [plain_section "hello world"]
               "doc-1" "a.txt" constant_entropy))
       [[0]])
    (Returned (VInt 0))
  ∈ new_calls initial_state
      (process_document (sample_services 0 None) "/uploads/a.txt" "project-1"
         "doc-1" "a.txt" initial_state)
  ∧ _processing_status
      (process_document (sample_services 0 None) "/uploads/a.txt" "project-1"
         "doc-1" "a.txt" initial_state).2
    !! "doc-1"
    = Some (mk_status "doc-1" error 0
              (Some "Failed to store vectors in Qdrant")).
Proof.
  split; [exact store_reports_zero|].
  exact (proj2 (proj1
           (store_stage_outcome (sample_services 0 None) "/uploads/a.txt"
              "project-1" "doc-1" "a.txt" initial_state _ _ _ 0
              store_reports_zero)
           eq_refl)).
Defined.

End Samples.

(** ** The tests of [tests/test_chunker.py] *)

Example test_short_text_single_chunk :
  map (λ c, (Chunk.document_id c, Chunk.document_name c))
    (test_chunk [plain_section "This is a short sentence."] "doc_123"
       "test.txt")
  = [("doc_123", "test.txt")].
Proof. vm_compute. reflexivity. Qed.

Example test_long_text_multiple_chunks :
  (1 <? length (test_chunk [plain_section twenty_sentences] "doc_123"
                  "test.txt"))%nat
  = true.
Proof. vm_compute. reflexivity. Qed.

Example test_chunk_index_sequential :
  indices
    (test_chunk
       [plain_section "First section content here.";
        plain_section "Second section content here.";
        plain_section "Third section content here."]
       "doc_123" "test.txt")
  = [0; 1; 2].
Proof. vm_compute. reflexivity. Qed.

Example test_context_prefix_page_number :
  map Chunk.content
    (test_chunk
       [ParsedSection.mk "Some test content here." (Some 5) None "pdf" ∅]
       "doc_123" "report.pdf")
  = ["[Document: report.pdf] [Page 5]"
     +:+ String Char.newline "Some test content here."].
Proof. vm_compute. reflexivity. Qed.

Example test_context_prefix_section_title :
  map Chunk.content
    (test_chunk
       [ParsedSection.mk "Some test content here." None (Some "Introduction")
          "docx" ∅]
       "doc_123" "report.docx")
  = ["[Document: report.docx] [Section: Introduction]"
     +:+ String Char.newline "Some test content here."].
Proof. vm_compute. reflexivity. Qed.

Example test_table_not_split :
  length (test_chunk [table_section twenty_sentences] "doc_123" "data.pdf")
  = 1%nat.
Proof. vm_compute. reflexivity. Qed.

Example test_metadata_includes_token_estimate :
  map (λ c, (Chunk.char_count (Chunk.metadata c),
             Chunk.token_estimate (Chunk.metadata c)))
    (test_chunk [plain_section "Test content here."] "doc_123" "test.txt")
  = [(39, 9)].
Proof. vm_compute. reflexivity. Qed.

(** * Further properties *)

(** ** What the splitting leaves in a part *)

Section Parts.

Import ChunkingEngine.

Lemma rstrip_idem (s : string) : Str.rstrip (Str.rstrip s) = Str.rstrip s.
Proof.
  induction s as [|c s IH]; [reflexivity|].
  simpl. destruct (Str.rstrip s) as [|d r] eqn:E.
  - destruct (Char.is_space c) eqn:Hc; [reflexivity|]. simpl. now rewrite Hc.
  - simpl. simpl in IH. now rewrite IH.
Qed.

Lemma lstrip_head (s : string) :
  match Str.lstrip s with
  | String c _ => Char.is_space c = false
  | EmptyString => True
  end.
Proof.
  induction s as [|c s IH]; [exact I|].
  simpl. destruct (Char.is_space c) eqn:Hc; [exact IH | exact Hc].
Qed.

Lemma rstrip_lstrip_fixed (t : string) :
  match t with
  | String c _ => Char.is_space c = false
  | EmptyString => True
  end →
  Str.lstrip (Str.rstrip t) = Str.rstrip t.
Proof.
  destruct t as [|c t]; [reflexivity|]. intros Hc.
  simpl. destruct (Str.rstrip t); rewrite ?Hc; simpl; now rewrite Hc.
Qed.

Lemma strip_idem (s : string) : Str.strip (Str.strip s) = Str.strip s.
Proof.
  unfold Str.strip.
  rewrite (rstrip_lstrip_fixed (Str.lstrip s) (lstrip_head s)).
  apply rstrip_idem.
Qed.

(** A stripped, non-empty string. *)
Lemma trimmed_filter_strip (f : string → string) (l : list string) :
  Forall trimmed
    (filter (λ s, Is_true (Str.nonempty s)) (map (λ s, Str.strip (f s)) l)).
Proof.
  apply Forall_forall. intros p Hp.
  apply list_elem_of_filter in Hp as [Hne Hp].
  apply list_elem_of_fmap in Hp as (x & -> & _).
  split; [|apply strip_idem].
  intros E. rewrite E in Hne. exact Hne.
Qed.

Lemma split_at_paragraphs_trimmed (text : string) :
  Forall trimmed (_split_at_paragraphs text).
Proof.
  unfold _split_at_paragraphs.
  apply (trimmed_filter_strip (λ s, s)).
Qed.

Lemma split_at_sentences_trimmed (order : list string) (text : string) :
  Forall trimmed (_split_at_sentences order text).
Proof.
  unfold _split_at_sentences.
  apply (trimmed_filter_strip (Re.replace DOT ".")).
Qed.

Lemma processed_parts_trimmed order self (content : string) :
  Forall trimmed (processed_parts order self content).
Proof.
  unfold processed_parts.
  pose proof (split_at_paragraphs_trimmed content) as H.
  induction H as [|para l Hp _ IH]; [constructor|].
  simpl. apply Forall_app. split; [|exact IH].
  destruct (_ <=? _); [now constructor | apply split_at_sentences_trimmed].
Qed.

(** X1.  The parts an oversized section is cut into (paragraphs, and
    sentences of the long paragraphs) are never empty and neither start nor
    end with whitespace: stripping one again changes nothing. *)
Theorem parts_are_trimmed order self (content : string) :
  Forall (λ p, p ≠ "" ∧ Str.strip p = p)
    (processed_parts order self content)
  ∧ Forall (λ p, p ≠ "" ∧ Str.strip p = p) (_split_at_paragraphs content)
  ∧ Forall (λ p, p ≠ "" ∧ Str.strip p = p)
      (_split_at_sentences order content).
Proof.
  split; [apply processed_parts_trimmed|].
  split; [apply split_at_paragraphs_trimmed | apply split_at_sentences_trimmed].
Qed.

End Parts.

(** ** What the recombination does with the parts *)

Section Recombination.

Import ChunkingEngine.

Variable self : ChunkingEngine.t.

Local Abbreviation size := (chunk_size_chars self).
Local Abbreviation budget := (chunk_overlap_chars self).
Local Abbreviation J := (λ l, Str.len (Str.join SEP l)).

Lemma join_contains (part : string) (cp : list string) :
  part ∈ cp → ∃ a b, Str.join SEP cp = a +:+ part +:+ b.
Proof.
  intros Hin. apply list_elem_of_split in Hin as (l1 & l2 & ->).
  assert (Ht : ∃ b, Str.join SEP (part :: l2) = part +:+ b).
  { destruct l2 as [|y l2].
    - exists "". simpl. now rewrite string_app_empty_r.
    - rewrite join_cons by discriminate. eauto. }
  destruct Ht as [b Hb]. destruct l1 as [|x l1].
  - exists "", b. exact Hb.
  - rewrite join_app by discriminate. rewrite Hb.
    exists (Str.join SEP (x :: l1) +:+ SEP), b.
    now rewrite !string_app_assoc.
Qed.

Lemma len_join_snoc (cur : list string) (p : string) :
  J (cur ++ [p])
  = J cur + ((if nonempty_list cur then 2 else 0) + Str.len p).
Proof.
  destruct cur as [|x cur].
  - cbv beta. change (Str.join SEP ([] ++ [p])) with p.
    change (Str.len (Str.join SEP [])) with 0. simpl. lia.
  - cbv beta. rewrite join_app by discriminate. rewrite !len_app.
    change (Str.len SEP) with 2. change (Str.join SEP [p]) with p.
    simpl nonempty_list. cbv iota. lia.
Qed.

Lemma len_join_prefix (a b : list string) : J a <= J (a ++ b).
Proof.
  destruct (is_prefix_join_app a b) as [q Hq]. cbv beta. rewrite Hq, len_app.
  pose proof (len_nonneg q). lia.
Qed.

(** *** Every part is kept *)

Lemma parts_step_keeps st q p :
  kept_in st p → kept_in (parts_step self st q) p.
Proof.
  intros (cp & Hcp & Hp). unfold kept_in, parts_step.
  apply elem_of_app in Hcp as [Hcp|Hcp].
  - exists cp. split; [|exact Hp].
    destruct (_ >? _); [destruct (nonempty_list (open_parts st))|]; simpl;
      try (apply elem_of_app; left; exact Hcp).
    destruct (_get_overlap_parts self (open_parts st)). simpl.
    apply elem_of_app. left. apply elem_of_app. now left.
  - apply list_elem_of_singleton in Hcp. subst cp.
    destruct (_ >? _); [destruct (nonempty_list (open_parts st))|]; simpl;
      try (exists (open_parts st ++ [q]);
           split; [apply elem_of_app; right; now left
                  | apply elem_of_app; now left]).
    destruct (_get_overlap_parts self (open_parts st)). simpl.
    exists (open_parts st). split; [|exact Hp].
    apply elem_of_app. left. apply elem_of_app. right. now left.
Qed.

Lemma parts_step_takes st q : kept_in (parts_step self st q) q.
Proof.
  unfold kept_in. eexists. split; [apply elem_of_app; right; now left|].
  unfold parts_step. simpl. apply elem_of_app. right. now left.
Qed.

Lemma parts_step_open st q : open_parts (parts_step self st q) ≠ [].
Proof. unfold parts_step. simpl. now destruct (open_parts _). Qed.

Lemma parts_fold_keeps l st p :
  kept_in st p ∨ p ∈ l → kept_in (fold_left (parts_step self) l st) p.
Proof.
  revert st. induction l as [|q l IH]; intros st [H|H]; simpl.
  - exact H.
  - inversion H.
  - apply IH. left. now apply parts_step_keeps.
  - apply elem_of_cons in H as [->|H]; apply IH;
      [left; apply parts_step_takes | now right].
Qed.

Lemma parts_fold_open l st :
  open_parts st ≠ [] → open_parts (fold_left (parts_step self) l st) ≠ [].
Proof.
  revert st. induction l as [|q l IH]; intros st H; simpl; [exact H|].
  apply IH, parts_step_open.
Qed.

Lemma chunk_parts_unfold (p : string) (l : list string) :
  chunk_parts self (p :: l)
  = closed_parts (fold_left (parts_step self) (p :: l) (mk_parts [] [] 0))
    ++ [open_parts (fold_left (parts_step self) (p :: l) (mk_parts [] [] 0))].
Proof.
  unfold chunk_parts. simpl nonempty_list. cbv iota zeta.
  pose proof (parts_fold_open l (parts_step self (mk_parts [] [] 0) p)
                (parts_step_open _ p)) as H.
  simpl fold_left. set (st := fold_left _ l _) in *.
  now destruct (open_parts st).
Qed.

Lemma chunk_parts_keep (parts : list string) (p : string) :
  p ∈ parts → ∃ cp, cp ∈ chunk_parts self parts ∧ p ∈ cp.
Proof.
  intros Hp. destruct parts as [|q l]; [inversion Hp|].
  rewrite chunk_parts_unfold. apply parts_fold_keeps. now right.
Qed.

(** X2.  The recombination loses no part and cuts none: every part handed
    to [_combine_with_overlap] stands whole inside one of the chunks it
    returns; in particular a non-empty list of parts gives at least one
    chunk. *)
Theorem combine_keeps_every_part (parts : list string) (p : string) :
  p ∈ parts →
  ∃ chunk a b,
    chunk ∈ _combine_with_overlap self parts ∧ chunk = a +:+ p +:+ b.
Proof.
  intros Hp. destruct (chunk_parts_keep parts p Hp) as (cp & Hcp & Hin).
  destruct (join_contains p cp Hin) as (a & b & Hj).
  exists (Str.join SEP cp), a, b. split; [|exact Hj].
  rewrite combine_with_overlap_parts. now apply list_elem_of_fmap_2.
Qed.

(** *** Parts that fit together *)

Lemma combine_fold_fits (rest cur : list string) :
  J (cur ++ rest) <= size →
  fold_left (combine_step self) rest (mk_state [] cur (J cur))
  = mk_state [] (cur ++ rest) (J (cur ++ rest)).
Proof.
  revert cur. induction rest as [|p rest IH]; intros cur Hfit.
  - now rewrite app_nil_r.
  - simpl fold_left.
    replace (cur ++ p :: rest) with ((cur ++ [p]) ++ rest) in *
      by now rewrite <- List.app_assoc.
    rewrite <- (IH (cur ++ [p]) Hfit). f_equal.
    unfold combine_step. simpl.
    pose proof (len_join_prefix (cur ++ [p]) rest) as Hpre.
    pose proof (len_join_snoc cur p) as Hs. cbv beta in Hpre, Hs.
    destruct (Z.gtb_spec
                (Str.len (Str.join SEP cur)
                 + (if nonempty_list cur then 2 else 0) + Str.len p)
                size) as [Hgt|Hle]; [lia|].
    simpl. now rewrite Hs.
Qed.

(** X3.  Parts that fit together make one chunk: when the parts, joined by
    blank lines, are no longer than [chunk_size_chars],
    [_combine_with_overlap] returns that join as its only chunk. *)
Theorem combine_single_chunk_when_fits (parts : list string) :
  parts ≠ [] →
  Str.len (Str.join SEP parts) <= chunk_size_chars self →
  _combine_with_overlap self parts = [Str.join SEP parts].
Proof.
  intros Hne Hfit. unfold _combine_with_overlap.
  destruct parts as [|p l]; [congruence|].
  change (nonempty_list (p :: l)) with true. cbv iota zeta.
  pose proof (combine_fold_fits (p :: l) [] Hfit) as E.
  cbv beta in E. change ([] ++ p :: l) with (p :: l) in E.
  change (Str.len (Str.join SEP [])) with 0 in E.
  rewrite E. reflexivity.
Qed.

End Recombination.

(** ** The length the loop keeps, and the size of a chunk *)

Section Lengths.

Import ChunkingEngine.

Variable self : ChunkingEngine.t.

Local Abbreviation size := (chunk_size_chars self).
Local Abbreviation budget := (chunk_overlap_chars self).

Lemma tracks_whole (acc : list string) : tracks (acc, charge acc).
Proof.
  unfold tracks. cbv beta iota delta [fst snd].
  destruct acc as [|w b]; [now left|].
  right. split; [discriminate|]. rewrite len_join_cons. simpl charge. lia.
Qed.

Lemma overlap_loop_tracks (rparts acc : list string) :
  tracks (overlap_loop self rparts acc (charge acc)).
Proof.
  revert acc. induction rparts as [|part rest IH]; intros acc.
  - apply tracks_whole.
  - simpl overlap_loop.
    destruct (Z.leb_spec (charge acc + Str.len part) budget) as [Hle|Hgt].
    + replace (charge acc + (Str.len part + 2)) with (charge (part :: acc))
        by (simpl; lia).
      apply IH.
    + cbv zeta.
      destruct (Z.gtb_spec (budget - charge acc) 0) as [Hr|Hr].
      * destruct (Z.gtb_spec (Str.len part) 0) as [Hp|Hp].
        -- simpl andb. cbv iota. unfold tracks.
           cbv beta iota delta [fst snd]. right. split; [discriminate|].
           rewrite len_join_cons, last_chars_len by lia. lia.
        -- simpl andb. cbv iota. apply tracks_whole.
      * simpl andb. cbv iota. apply tracks_whole.
Qed.

Lemma get_overlap_parts_tracks (parts : list string) :
  tracks (_get_overlap_parts self parts).
Proof. apply (overlap_loop_tracks (rev parts) []). Qed.

Lemma combine_step_tracked st p :
  length_tracked st → length_tracked (combine_step self st p).
Proof.
  unfold length_tracked, combine_step. cbv zeta. intros H.
  pose proof (len_nonneg p) as Hp.
  destruct (_ >? _); [destruct (current_chunk_parts st) as [|x cur] eqn:Ec|];
    simpl nonempty_list in *; cbv iota.
  - simpl in *. rewrite Ec in *. simpl in *. unfold Str.len in *. simpl in *.
    lia.
  - pose proof (get_overlap_parts_tracks (x :: cur)) as Ht.
    destruct (_get_overlap_parts self (x :: cur)) as [ov n].
    unfold tracks in Ht. simpl in Ht. simpl.
    destruct Ht as [[-> ->]|[Hne Ht]].
    + change (Str.join SEP ([] ++ [p])) with p. lia.
    + rewrite join_app by (assumption || discriminate). rewrite !len_app.
      change (Str.len SEP) with 2. change (Str.join SEP [p]) with p. lia.
  - simpl. destruct (current_chunk_parts st) as [|x cur].
    + change (Str.join SEP ([] ++ [p])) with p.
      change (Str.len (Str.join SEP [])) with 0 in H. simpl. lia.
    + rewrite join_app by discriminate. rewrite !len_app.
      change (Str.len SEP) with 2. change (Str.join SEP [p]) with p.
      simpl nonempty_list. cbv iota. lia.
Qed.

Lemma sized_more seen q text : sized self seen text → sized self (seen ++ [q]) text.
Proof.
  intros [H|(p & Hp & H)]; [now left|]. right. exists p.
  split; [apply elem_of_app; now left | exact H].
Qed.

Lemma combine_step_sized seen st q :
  0 <= budget → all_sized self seen st →
  all_sized self (seen ++ [q]) (combine_step self st q).
Proof.
  intros Hb (Ht & Hc & Ho).
  pose proof (combine_step_tracked st q Ht) as Ht'.
  split; [exact Ht'|].
  assert (Hc' : Forall (sized self (seen ++ [q])) (chunks st)).
  { eapply Forall_impl; [exact Hc|]. intros t. apply sized_more. }
  assert (Hq : q ∈ seen ++ [q]) by (apply elem_of_app; right; now left).
  unfold length_tracked in Ht'. revert Ht'.
  unfold combine_step. cbv zeta.
  destruct (Z.gtb_spec
              (current_length st
               + (if nonempty_list (current_chunk_parts st) then 2 else 0)
               + Str.len q) size) as [Hgt|Hle].
  - destruct (current_chunk_parts st) as [|x cur] eqn:Ec;
      simpl nonempty_list; cbv iota.
    + simpl. rewrite ?Ec. intros _. split; [exact Hc'|]. right. right.
      exists q. split; [exact Hq|].
      change (Str.join SEP ([] ++ [q])) with q. lia.
    + pose proof (get_overlap_parts_bound self (x :: cur) Hb) as Hov.
      destruct (_get_overlap_parts self (x :: cur)) as [ov n]. simpl in Hov.
      simpl. rewrite ?Ec. intros _. split.
      * apply Forall_app. split; [exact Hc'|]. constructor; [|constructor].
        destruct Ho as [Ho|Ho]; [discriminate | now apply sized_more].
      * right. right. exists q. split; [exact Hq|].
        destruct ov as [|y ov].
        -- change (Str.join SEP ([] ++ [q])) with q. lia.
        -- rewrite join_app by discriminate. rewrite !len_app.
           change (Str.len SEP) with 2. change (Str.join SEP [q]) with q. lia.
  - simpl. intros Ht'. split; [exact Hc'|]. right. left. lia.
Qed.

Lemma combine_fold_sized l seen st :
  0 <= budget → all_sized self seen st →
  all_sized self (seen ++ l) (fold_left (combine_step self) l st).
Proof.
  intros Hb. revert seen st. induction l as [|q l IH]; intros seen st H.
  - now rewrite app_nil_r.
  - simpl. replace (seen ++ q :: l) with ((seen ++ [q]) ++ l)
      by now rewrite <- List.app_assoc.
    apply IH. now apply combine_step_sized.
Qed.

(** X4.  With an overlap budget that is not negative, a chunk of
    [_combine_with_overlap] is longer than [chunk_size_chars] only when a
    single part makes it so: every chunk is at most [chunk_size_chars]
    long, or at most the overlap budget, one separator and one of the parts
    long. *)
Theorem chunk_length_bound (parts : list string) (chunk : string) :
  0 <= chunk_overlap_chars self →
  chunk ∈ _combine_with_overlap self parts →
  Str.len chunk <= chunk_size_chars self
  ∨ ∃ p,
      p ∈ parts
      ∧ Str.len chunk <= chunk_overlap_chars self + 2 + Str.len p.
Proof.
  intros Hb Hin. unfold _combine_with_overlap in Hin.
  destruct (nonempty_list parts); [|inversion Hin].
  destruct (combine_fold_sized parts [] (mk_state [] [] 0) Hb)
    as (_ & Hc & Ho).
  { split; [|split; [constructor | now left]].
    unfold length_tracked. simpl. unfold Str.len. simpl. lia. }
  simpl app in Hc, Ho. cbv zeta in Hin.
  set (st := fold_left _ parts _) in *.
  destruct (current_chunk_parts st) as [|x cur] eqn:Ec; simpl in Hin.
  - rewrite Forall_forall in Hc. exact (Hc chunk Hin).
  - apply elem_of_app in Hin as [Hin|Hin].
    + rewrite Forall_forall in Hc. exact (Hc chunk Hin).
    + apply list_elem_of_singleton in Hin. subst chunk.
      destruct Ho as [Ho|Ho]; [discriminate | exact Ho].
Qed.


(** *** No overlap: the chunks divide the parts *)

Lemma no_overlap (cur : list string) :
  budget <= 0 → Forall (λ p, p ≠ "") cur →
  _get_overlap_parts self cur = ([], 0).
Proof.
  intros Hb Hne. unfold _get_overlap_parts.
  destruct (rev cur) as [|p r] eqn:Er; [reflexivity|].
  assert (Hp : p ≠ "").
  { rewrite Forall_forall in Hne. apply Hne.
    apply list_elem_of_In, in_rev. rewrite Er. now left. }
  simpl.
  assert (0 < Str.len p) by (destruct p; [congruence | unfold Str.len; simpl; lia]).
  destruct (Z.leb_spec (0 + Str.len p) budget); [lia|].
  destruct (Z.gtb_spec (budget - 0) 0); [lia | reflexivity].
Qed.

Lemma concat_snoc {A} (ls : list (list A)) (l : list A) :
  concat (ls ++ [l]) = concat ls ++ l.
Proof. rewrite concat_app. simpl. now rewrite app_nil_r. Qed.

Lemma parts_step_divides seen st q :
  budget <= 0 → q ≠ "" → divides seen st →
  divides (seen ++ [q]) (parts_step self st q).
Proof.
  intros Hb Hq (Hc & Hcl & Ho). unfold divides, parts_step. cbv zeta.
  rewrite concat_snoc in Hc.
  destruct (_ >? _); [destruct (open_parts st) as [|x cur] eqn:Eo|];
    simpl nonempty_list; cbv iota; simpl; rewrite ?Eo.
  - rewrite concat_snoc. simpl app. rewrite app_nil_r in Hc. rewrite Hc.
    split; [reflexivity|]. split; [exact Hcl|]. now constructor.
  - rewrite (no_overlap (x :: cur) Hb Ho). simpl.
    rewrite !concat_snoc. rewrite Hc.
    split; [reflexivity|]. split; [|now constructor].
    apply Forall_app. split; [exact Hcl|]. now constructor.
  - rewrite concat_snoc, List.app_assoc, Hc.
    split; [reflexivity|]. split; [exact Hcl|].
    apply Forall_app. split; [exact Ho | now constructor].
Qed.

Lemma parts_fold_divides l seen st :
  budget <= 0 → Forall (λ p, p ≠ "") l → divides seen st →
  divides (seen ++ l) (fold_left (parts_step self) l st).
Proof.
  intros Hb. revert seen st. induction l as [|q l IH]; intros seen st Hl H.
  - now rewrite app_nil_r.
  - simpl. replace (seen ++ q :: l) with ((seen ++ [q]) ++ l)
      by now rewrite <- List.app_assoc.
    inversion Hl; subst. apply IH; [assumption|].
    now apply parts_step_divides.
Qed.

(** X6.  With an overlap budget of 0 (or less) and parts that are not
    empty, the chunks divide the parts: there are groups of consecutive
    parts, none empty, that together are the parts in order, and the chunks
    are the joins of these groups; no text is repeated. *)
Theorem zero_overlap_divides_the_parts (parts : list string) :
  chunk_overlap_chars self <= 0 →
  Forall (λ p, p ≠ "") parts →
  ∃ groups,
    concat groups = parts
    ∧ Forall (λ g, g ≠ []) groups
    ∧ _combine_with_overlap self parts = map (Str.join SEP) groups.
Proof.
  intros Hb Hne. exists (chunk_parts self parts).
  split; [|split; [|apply combine_with_overlap_parts]].
  - destruct parts as [|p l]; [reflexivity|]. rewrite chunk_parts_unfold.
    destruct (parts_fold_divides (p :: l) [] (mk_parts [] [] 0) Hb Hne)
      as (Hc & _ & _); [|exact Hc].
    split; [reflexivity|]. split; constructor.
  - destruct parts as [|p l]; [constructor|]. rewrite chunk_parts_unfold.
    destruct (parts_fold_divides (p :: l) [] (mk_parts [] [] 0) Hb Hne)
      as (_ & Hcl & _).
    { split; [reflexivity|]. split; constructor. }
    apply Forall_app. split; [exact Hcl|]. constructor; [|constructor].
    simpl fold_left. apply parts_fold_open, parts_step_open.
Qed.

End Lengths.

(** ** Where a chunk comes from, its identifier, and documents in pieces *)

Section Provenance.

Import ChunkingEngine.

Variable abbrev_order : list string.
Variable self : ChunkingEngine.t.
Variables document_id document_name : string.

Local Abbreviation emit_ := (emit document_id document_name).
Local Abbreviation section_loop :=
  (chunk_section_loop abbrev_order self document_id document_name).
Local Abbreviation texts_of := (section_chunks abbrev_order self).

Lemma emits_sourced sections s texts st :
  s ∈ sections → (∀ t, t ∈ texts → t ∈ texts_of s) →
  Forall (sourced abbrev_order self document_id document_name
            sections) (doc_chunks st) →
  Forall (sourced abbrev_order self document_id document_name
            sections) (doc_chunks (fold_left (emit_ s) texts st)).
Proof.
  intros Hs. revert st. induction texts as [|t texts IH]; intros st Ht H;
    simpl; [exact H|].
  apply IH; [intros u Hu; apply Ht; now right|].
  unfold emit. simpl. apply Forall_app. split; [exact H|].
  constructor; [|constructor]. exists s, t.
  split; [exact Hs|]. split; [apply Ht; now left|].
  unfold made_from, _add_context_prefix. simpl. repeat split.
Qed.

Lemma sections_sourced sections l st :
  (∀ s, s ∈ l → s ∈ sections) →
  Forall (sourced abbrev_order self document_id document_name
            sections) (doc_chunks st) →
  Forall (sourced abbrev_order self document_id document_name
            sections) (doc_chunks (fold_left section_loop l st)).
Proof.
  revert st. induction l as [|s l IH]; intros st Hl H; simpl; [exact H|].
  apply IH; [intros u Hu; apply Hl; now right|].
  apply emits_sourced; [apply Hl; now left | auto | exact H].
Qed.

(** X7.  Every chunk [chunk_document] returns was made from one of the
    sections it was given and one of the texts that section is cut into:
    its content is the header of that section, a line break and the text;
    it carries the document id and name of the call and the page number,
    title, type and table mark of the section; [char_count] is the length
    of the content and [token_estimate] a quarter of it, rounded down. *)
Theorem every_chunk_has_a_source sections g (c : Chunk.t) :
  c ∈ fst (chunk_document abbrev_order self sections document_id
             document_name g) →
  ∃ s body,
    s ∈ sections
    ∧ body ∈ section_chunks abbrev_order self s
    ∧ Chunk.content c
      = context_prefix s document_name +:+ String Char.newline body
    ∧ Chunk.document_id c = document_id
    ∧ Chunk.document_name c = document_name
    ∧ Chunk.page_number (Chunk.metadata c) = ParsedSection.page_number s
    ∧ Chunk.section_title (Chunk.metadata c) = ParsedSection.section_title s
    ∧ Chunk.doc_type (Chunk.metadata c) = ParsedSection.doc_type s
    ∧ Chunk.is_table (Chunk.metadata c) = is_table_section s
    ∧ Chunk.char_count (Chunk.metadata c) = Str.len (Chunk.content c)
    ∧ Chunk.token_estimate (Chunk.metadata c)
      = Chunk.char_count (Chunk.metadata c) / 4.
Proof.
  intros Hc. unfold chunk_document in Hc. simpl in Hc.
  pose proof (sections_sourced sections sections (mk_doc [] 0 g)
                (λ s H, H) (List.Forall_nil _)) as H.
  rewrite Forall_forall in H. exact (H c Hc).
Qed.

(** *** Identifiers *)

Lemma emit_drawn g s st t : drawn g st → drawn g (emit_ s st t).
Proof.
  intros [Hi He]. unfold drawn, emit. simpl.
  rewrite map_app, length_app. simpl.
  replace (length (doc_chunks st) + 1)%nat with (S (length (doc_chunks st)))
    by lia.
  rewrite seq_S, map_app, Hi. simpl. split.
  - rewrite He. now rewrite Nat.add_0_r.
  - intros k. rewrite He. f_equal. lia.
Qed.

Lemma emits_drawn g s texts st :
  drawn g st → drawn g (fold_left (emit_ s) texts st).
Proof.
  revert st. induction texts as [|t texts IH]; intros st H; simpl;
    [exact H | apply IH, emit_drawn, H].
Qed.

Lemma sections_drawn g l st :
  drawn g st → drawn g (fold_left section_loop l st).
Proof.
  revert st. induction l as [|s l IH]; intros st H; simpl;
    [exact H | apply IH, emits_drawn, H].
Qed.

Lemma chunk_document_drawn sections g :
  drawn g (fold_left section_loop sections (mk_doc [] 0 g)).
Proof. apply sections_drawn. split; [reflexivity | intros k; reflexivity]. Qed.

(** X8.  The chunk identifiers are the draws of [uuid4], one for each chunk
    in output order, and the entropy source comes back advanced by the
    number of chunks; so when the draws used are pairwise different, no two
    chunks of the document share an identifier. *)
Theorem chunk_ids_are_the_draws sections (g : Entropy) :
  let run :=
    chunk_document abbrev_order self sections document_id document_name g in
  map Chunk.chunk_id run.1 = map g (seq 0 (length run.1))
  ∧ (∀ k, run.2 k = g (length run.1 + k)%nat)
  ∧ ((∀ i j, (i < length run.1)%nat → (j < length run.1)%nat →
             g i = g j → i = j) →
     NoDup (map Chunk.chunk_id run.1)).
Proof.
  cbv zeta. unfold chunk_document. simpl.
  destruct (chunk_document_drawn sections g) as [Hi He].
  split; [exact Hi|]. split; [exact He|].
  intros Hinj. rewrite Hi. apply NoDup_fmap_2_strong; [|apply NoDup_seq].
  intros i j Hi' Hj' E.
  apply elem_of_seq in Hi', Hj'. apply Hinj; [lia | lia | exact E].
Qed.

(** *** A document in two pieces *)

Lemma emit_shifted pre k s st st' t :
  shifted pre k st st' → shifted pre k (emit_ s st t) (emit_ s st' t).
Proof.
  intros (Hc & Hi & He). unfold shifted, emit. simpl.
  rewrite Hc, He, Hi, map_app, <- List.app_assoc. simpl.
  split; [|split; [lia | reflexivity]].
  reflexivity.
Qed.

Lemma emits_shifted pre k s texts st st' :
  shifted pre k st st' →
  shifted pre k (fold_left (emit_ s) texts st) (fold_left (emit_ s) texts st').
Proof.
  revert st st'. induction texts as [|t texts IH]; intros st st' H; simpl;
    [exact H | apply IH, emit_shifted, H].
Qed.

Lemma sections_shifted pre k l st st' :
  shifted pre k st st' →
  shifted pre k (fold_left section_loop l st) (fold_left section_loop l st').
Proof.
  revert st st'. induction l as [|s l IH]; intros st st' H; simpl;
    [exact H | apply IH, emits_shifted, H].
Qed.

(** X9.  Chunking a list of sections in two pieces gives the chunks of the
    whole: the chunks of [first ++ second] are those of [first] followed by
    those of [second], the latter chunked from the entropy [first] left and
    with their indices moved up by the number of chunks of [first]; the
    entropy left is that of the second run. *)
Theorem chunk_document_app (first second : list ParsedSection.t) g :
  let run1 :=
    chunk_document abbrev_order self first document_id document_name g in
  let run2 :=
    chunk_document abbrev_order self second document_id document_name
      run1.2 in
  chunk_document abbrev_order self (first ++ second) document_id
    document_name g
  = (run1.1 ++ map (shift_index (Z.of_nat (length run1.1))) run2.1, run2.2).
Proof.
  cbv zeta. unfold chunk_document. simpl. rewrite fold_left_app.
  set (st1 := fold_left section_loop first (mk_doc [] 0 g)).
  destruct (sections_numbered abbrev_order self document_id document_name
              first (mk_doc [] 0 g)) as [_ Hn]; [split; reflexivity|].
  fold st1 in Hn.
  destruct (sections_shifted (doc_chunks st1) (doc_index st1) second st1
              (mk_doc [] 0 (doc_entropy st1))) as (Hc & _ & He).
  { split; [simpl; now rewrite app_nil_r|]. split; [simpl; lia | reflexivity]. }
  rewrite Hc, He, Hn. reflexivity.
Qed.

End Provenance.

(** ** The shape of a run of the processor *)

Section RunShape.

Import Processor Run Shape.

Context {World Vector Time : Type}.
Variable self : @Services World Vector Time.

Ltac service_step :=
  match goal with
  | |- context [vector_store_delete_document_chunks self ?a ?b ?w] =>
      destruct (vector_store_delete_document_chunks self a b w)
        as [[?|?] ?]
  | |- context [parser_parse self ?a ?b ?w] =>
      destruct (parser_parse self a b w) as [[[|? ?]|?] ?]
  | |- context [chunker_chunk_document self ?a ?b ?c ?w] =>
      destruct (chunker_chunk_document self a b c w) as [[[|? ?]|?] ?]
  | |- context [embedder_embed_batch self ?a ?b ?w] =>
      destruct (embedder_embed_batch self a b w) as [[?|?] ?]
  | |- context [vector_store_upsert_chunks self ?a ?b ?c ?w] =>
      destruct (vector_store_upsert_chunks self a b c w) as [[?|?] ?]
  | |- context [is_Exception ?e] =>
      destruct (is_Exception e) eqn:?
  | |- context [_error_result self ?a ?b ?c ?d] =>
      destruct (error_result_run self a b c d) as (? & ? & ->)
  | |- context [now self ?a] =>
      destruct (now_run self a) as (? & ? & ->)
  end;
  cbn [fst snd world calls _processing_status outcome_map
       ChunkingEngine.nonempty_list negb].

(** Every run has one of the shapes: it returns, with a log of [pipeline]
    and the registry entry of its result; or it raises what a service
    raised that [except Exception] does not catch, with the entry at
    [processing]. *)
Lemma process_document_shape
    (file_path project_id document_id filename : string)
    (st : @State World Vector) :
  let run := process_document self file_path project_id document_id filename
               st in
  ((∃ s n msg t,
      run.1 = Returned (mk_result document_id s n msg t)
      ∧ _processing_status run.2
        = <[document_id := mk_status document_id s n msg]>
            (_processing_status st)
      ∧ pipeline file_path (file_extension self filename) project_id
          document_id filename (new_calls st run) s n msg)
   ∨ (∃ e,
        run.1 = Raised e
        ∧ is_Exception e = false
        ∧ _processing_status run.2
          = <[document_id := mk_status document_id processing 0 None]>
              (_processing_status st)
        ∧ interrupted file_path (file_extension self filename) project_id
            document_id filename (new_calls st run) e))
  ∧ (new_calls st run = []
     ↔ file_extension self filename ∉ ALLOWED_EXTENSIONS).
Proof.
  cbv zeta. unfold new_calls, process_document, bind.
  destruct (now_run self st) as (t0 & w0 & ->).
  unfold try_except, process_body. cbv beta zeta.
  destruct (decide (file_extension self filename ∈ ALLOWED_EXTENSIONS))
    as [Hin|Hout].
  - rewrite (bool_decide_eq_true_2 _ Hin). change (negb true) with false.
    cbv iota. unfold delete_document, bind, invoke, update_status, ret.
    cbn [fst snd world calls _processing_status].
    repeat service_step.
    all: try match goal with
             |- context [Nat.eqb ?a ?b] =>
               destruct (Nat.eqb_spec a b);
               cbn [negb]; repeat service_step
             end.
    all: try match goal with
             |- context [Z.eqb ?a 0] =>
               destruct (Z.eqb_spec a 0);
               repeat service_step
             end.
    all: cbn [fst snd world calls _processing_status].
    all: rewrite <- ?List.app_assoc; cbn [app].
    all: rewrite ?drop_app_length.
    all: (split; [|split; [discriminate | intros Hout; destruct (Hout Hin)]]).
    all: first
      [ left; eexists _, _, _, _; split; [reflexivity|];
        split; [apply insert_insert_eq|];
        first
          [ econstructor; (discriminate || assumption)
          | subst; econstructor; (discriminate || assumption)
          | eapply run_caught;
            [econstructor; (discriminate || assumption) | assumption] ]
      | right; eexists; split; [reflexivity|]; split; [assumption|];
        split; [reflexivity|];
        econstructor; (discriminate || assumption) ].
  - rewrite (bool_decide_eq_false_2 _ Hout). change (negb false) with true.
    cbv iota. service_step. rewrite skipn_all.
    split; [|split; [intros _; exact Hout | reflexivity]].
    left. eexists _, _, _, _. split; [reflexivity|]. split; [reflexivity|].
    constructor.
Qed.

End RunShape.

(** ** What every run does *)

Section RunProperties.

Import Processor Run Shape.

Context {World Vector Time : Type}.
Variable self : @Services World Vector Time.
Variables file_path project_id document_id filename : string.
Variable st : @State World Vector.

Local Abbreviation the_run :=
  (process_document self file_path project_id document_id filename st).
Local Abbreviation ext := (file_extension self filename).

Lemma run_logged :
  logged file_path ext project_id document_id filename
    (new_calls st the_run).
Proof.
  destruct (process_document_shape self file_path project_id document_id
              filename st)
    as [[(s & n & msg & t & _ & _ & Hp)|(e & _ & _ & _ & Hi)] _].
  - left. eauto.
  - right. eauto.
Qed.

(** X10.  When a run returns, the registry entry of the document mirrors
    the result: same status, chunk count and message.  The status is
    final: [ready], with no message and a chunk count that is not 0, or
    [error], with a message and the chunk count 0; a run never returns
    with [pending] or [processing].  A run that does not return raises
    something that is not an instance of [Exception]. *)
Theorem registry_mirrors_result :
  (∃ result,
     the_run.1 = Returned result
     ∧ Processor.document_id result = document_id
     ∧ _processing_status the_run.2 !! document_id
       = Some (mk_status document_id (status result) (chunk_count result)
                 (error_message result))
     ∧ ((status result = ready ∧ error_message result = None
         ∧ chunk_count result ≠ 0)
        ∨ (status result = error ∧ chunk_count result = 0
           ∧ ∃ m, error_message result = Some m)))
  ∨ (∃ e, the_run.1 = Raised e ∧ is_Exception e = false).
Proof.
  destruct (process_document_shape self file_path project_id document_id
              filename st)
    as [[(s & n & msg & t & Hr & Hreg & Hp)|(e & Hr & He & _)] _].
  - left. eexists. split; [exact Hr|]. simpl. split; [reflexivity|].
    split; [rewrite Hreg; apply lookup_insert_eq|].
    inversion Hp; subst; eauto 6.
  - right. eauto.
Qed.

(** X11.  A run touches the registry entry of its own document only: the
    entry of every other document is after the run what it was before,
    whether the run returns or raises. *)
Theorem other_documents_untouched (other : string) :
  other ≠ document_id →
  _processing_status
    (process_document self file_path project_id document_id filename st).2
  !! other
  = _processing_status st !! other.
Proof.
  intros Hne.
  destruct (process_document_shape self file_path project_id document_id
              filename st)
    as [[(s & n & msg & t & _ & Hreg & _)|(e & _ & _ & Hreg & _)] _];
    rewrite Hreg; now apply lookup_insert_ne.
Qed.

Lemma interrupted_stages (evs : list (@Event Vector)) e0 :
  interrupted file_path ext project_id document_id filename evs e0 →
  (∀ i e, evs !! i = Some e → stage (ev_call e) = i)
  ∧ (∀ i e, evs !! i = Some e → (S i < length evs)%nat →
            ∃ v, ev_outcome e = Returned v)
  ∧ (∀ e, evs !! 0%nat = Some e →
          ev_call e = call_delete_document_chunks project_id document_id).
Proof.
  intros Hp. split; [|split].
  3: intros x Hi; inversion Hp; subst; inversion Hi; reflexivity.
  all: intros i x Hi; inversion Hp; subst;
    do 5 (try (destruct i as [|i];
               [inversion Hi; subst; simpl;
                try reflexivity; try (intros; eauto; lia)|]));
    try (inversion Hi; fail); destruct i; inversion Hi.
Qed.

Lemma pipeline_stages (evs : list (@Event Vector)) s n msg :
  pipeline file_path ext project_id document_id filename evs s n msg →
  (∀ i e, evs !! i = Some e → stage (ev_call e) = i)
  ∧ (∀ i e, evs !! i = Some e → (S i < length evs)%nat →
            ∃ v, ev_outcome e = Returned v)
  ∧ (∀ e, evs !! 0%nat = Some e →
          ev_call e = call_delete_document_chunks project_id document_id).
Proof.
  intros Hp.
  destruct Hp as [|evs e0 Hi _| | | | |];
    try exact (interrupted_stages _ _ Hi);
    (split; [|split]).
  all: try (intros x Hi; inversion Hi; reflexivity).
  all: intros i x Hi;
    do 5 (try (destruct i as [|i];
               [inversion Hi; subst; simpl;
                try reflexivity; try (intros; eauto; lia)|]));
    try (inversion Hi; fail); destruct i; inversion Hi.
Qed.

(** X12.  The services are called in the order of the pipeline, each at
    most once: the i-th call of a run (from 0) is the deletion of the old
    chunks for i = 0, then the parser, the chunker, the embedder and the
    store; the first call deletes the chunks of this project and document;
    and every call but the last one returned. *)
Theorem calls_follow_the_pipeline (i : nat) (e : @Event Vector) :
  new_calls st the_run !! i = Some e →
  stage (ev_call e) = i
  ∧ (i = 0%nat →
     ev_call e = call_delete_document_chunks project_id document_id)
  ∧ ((S i < length (new_calls st the_run))%nat →
     ∃ v, ev_outcome e = Returned v).
Proof.
  intros Hi.
  assert (H : (∀ i e, new_calls st the_run !! i = Some e →
                      stage (ev_call e) = i)
              ∧ (∀ i e, new_calls st the_run !! i = Some e →
                        (S i < length (new_calls st the_run))%nat →
                        ∃ v, ev_outcome e = Returned v)
              ∧ (∀ e, new_calls st the_run !! 0%nat = Some e →
                      ev_call e
                      = call_delete_document_chunks project_id document_id)).
  { destruct run_logged as [(s & n & msg & Hp)|(e0 & Hp)];
      [exact (pipeline_stages _ _ _ _ Hp) | exact (interrupted_stages _ _ Hp)]. }
  destruct H as (Hs & Hr & H0).
  split; [exact (Hs i e Hi)|]. split; [|exact (Hr i e Hi)].
  intros ->. exact (H0 e Hi).
Qed.

Ltac stage_steps Hin :=
  unfold parsed, chunked, embedded, deleted in *;
  do 5 (try (apply elem_of_cons in Hin as [Hin|Hin];
             [first
                [ discriminate Hin
                | inversion Hin; subst;
                  first
                    [ congruence
                    | split; [eauto | reflexivity]
                    | exfalso;
                      match goal with
                      | H : map _ _ = map _ _ |- _ =>
                          apply (f_equal length) in H;
                          rewrite !List.length_map in H; congruence
                      end ] ]|]));
  inversion Hin.

Ltac handed_steps He :=
  do 5 (try (apply elem_of_cons in He as [->|He];
             [simpl; repeat split; try assumption;
              try (eexists _, _; repeat split; try eassumption);
              try (eexists; repeat split);
              repeat (first [left; reflexivity | right])|]));
  inversion He.

Lemma interrupted_handed (evs : list (@Event Vector)) e0 e :
  interrupted file_path ext project_id document_id filename evs e0 →
  e ∈ evs → handed file_path ext project_id document_id filename evs e.
Proof.
  intros Hp He. unfold handed. inversion Hp; subst; handed_steps He.
Qed.

Lemma pipeline_handed (evs : list (@Event Vector)) s n msg e :
  pipeline file_path ext project_id document_id filename evs s n msg →
  e ∈ evs → handed file_path ext project_id document_id filename evs e.
Proof.
  intros Hp He.
  destruct Hp as [|evs e0 Hi _| | | | |];
    try exact (interrupted_handed _ _ _ Hi He);
    unfold handed; handed_steps He.
Qed.

(** X13.  Each service is handed what the one before it returned: the
    parser gets the path and the extension; the chunker the sections the
    parser returned, with the document id and the file name; the embedder
    the contents of the chunks the chunker returned, in batches of 32; the
    store the project id, those chunks and the vectors the embedder
    returned, which are as many as the chunks. *)
Theorem data_flows_through_the_pipeline (e : @Event Vector) :
  e ∈ new_calls st the_run →
  match ev_call e with
  | call_delete_document_chunks p d => p = project_id ∧ d = document_id
  | call_parse path type => path = file_path ∧ type = ext
  | call_chunk_document sections d name =>
      d = document_id ∧ name = filename ∧ sections ≠ []
      ∧ parsed file_path ext sections ∈ new_calls st the_run
  | call_embed_batch texts batch_size =>
      batch_size = 32
      ∧ ∃ sections cs,
          texts = map Chunk.content cs ∧ cs ≠ []
          ∧ chunked document_id filename sections cs ∈ new_calls st the_run
  | call_upsert_chunks p cs vs =>
      p = project_id ∧ length vs = length cs
      ∧ embedded cs vs ∈ new_calls st the_run
      ∧ ∃ sections,
          chunked document_id filename sections cs ∈ new_calls st the_run
  end.
Proof.
  intros He.
  destruct run_logged as [(s & n & msg & Hp)|(e0 & Hp)];
    [exact (pipeline_handed _ _ _ _ _ Hp He)
    | exact (interrupted_handed _ _ _ Hp He)].
Qed.

(** X14.  A stage that yields nothing ends the run with its own message,
    and the later services are not called: no sections from the parser,
    and the log stops after two calls with "No content could be extracted
    from the document"; no chunks from the chunker, and it stops after
    three with "Document could not be chunked"; vectors that are not as
    many as the chunks, and it stops after four, before the store, with
    "Embedding generation failed". *)
Theorem empty_stage_ends_the_run :
  (parsed file_path ext [] ∈ new_calls st the_run →
   (∃ t, the_run.1
         = Returned
             (mk_result document_id error 0
                (Some "No content could be extracted from the document") t))
   ∧ length (new_calls st the_run) = 2%nat)
  ∧ (∀ sections,
       chunked document_id filename sections [] ∈ new_calls st the_run →
       (∃ t, the_run.1
             = Returned
                 (mk_result document_id error 0
                    (Some "Document could not be chunked") t))
       ∧ length (new_calls st the_run) = 3%nat)
  ∧ (∀ cs vs,
       embedded cs vs ∈ new_calls st the_run →
       length vs ≠ length cs →
       (∃ t, the_run.1
             = Returned
                 (mk_result document_id error 0
                    (Some "Embedding generation failed") t))
       ∧ length (new_calls st the_run) = 4%nat).
Proof.
  destruct (process_document_shape self file_path project_id document_id
              filename st)
    as [[(s & n & msg & t & Hr & _ & Hp)|(e & _ & _ & _ & Hp)] _].
  - rewrite Hr.
    split; [|split]; [intros Hin | intros sections Hin | intros cs vs Hin Hne];
      (destruct Hp as [|evs e0 Hi _| | | | |]; [|destruct Hi|..]);
      stage_steps Hin.
  - split; [|split]; [intros Hin | intros sections Hin | intros cs vs Hin Hne];
      destruct Hp; stage_steps Hin.
Qed.

(** X15.  A run that returns [ready] went through the whole pipeline: its
    log is the five calls, all returned, in which the parser gave sections
    and the chunker chunks, the embedder as many vectors as chunks, and the
    store reported the chunk count of the result, which is not 0; the
    result has no message. *)
Theorem ready_runs_the_whole_pipeline (result : @ProcessingResult Time) :
  the_run.1 = Returned result →
  status result = ready →
  ∃ nd sections cs vs,
    new_calls st the_run
    = [deleted project_id document_id nd; parsed file_path ext sections;
       chunked document_id filename sections cs; embedded cs vs;
       mk_event (call_upsert_chunks project_id cs vs)
         (Returned (VInt (chunk_count result)))]
    ∧ sections ≠ [] ∧ cs ≠ [] ∧ length vs = length cs
    ∧ chunk_count result ≠ 0
    ∧ error_message result = None.
Proof.
  intros Hres Hready.
  destruct (process_document_shape self file_path project_id document_id
              filename st)
    as [[(s & n & msg & t & Hr & _ & Hp)|(e & Hr & _)] _];
    [|rewrite Hr in Hres; discriminate].
  rewrite Hr in Hres. inversion Hres; subst result. simpl in *. subst s.
  inversion Hp; subst. eexists _, _, _, _. repeat split; eauto.
Qed.

End RunProperties.

(** ** The registry *)

Section Registry.

Import Processor.

Context {World Vector : Type}.

Local Abbreviation update_status_ := (@update_status World Vector).
Local Abbreviation get_status_ := (@get_status World Vector).
Local Abbreviation clear_status_ := (@clear_status World Vector).

(** X16.  The registry functions: [get_status] reads back what
    [update_status] wrote for the document, whatever was there before, and
    reads nothing after [clear_status]; the entries of the other documents
    are those before; [clear_status] of a document that has no entry
    changes nothing (and does not raise); none of the three touches the
    world or the log of calls, and [get_status] changes nothing at all. *)
Theorem status_round_trip (id : string) (s : Status) (n : Z)
    (msg : option string) (st : @State World Vector) :
  (get_status_ id (update_status_ id s n msg st).2).1
  = Returned (Some (mk_status id s n msg))
  ∧ (get_status_ id (clear_status_ id st).2).1 = Returned None
  ∧ (∀ other,
       other ≠ id →
       (get_status_ other (update_status_ id s n msg st).2).1
       = (get_status_ other st).1
       ∧ (get_status_ other (clear_status_ id st).2).1
         = (get_status_ other st).1)
  ∧ (_processing_status st !! id = None →
     clear_status_ id st = (Returned tt, st))
  ∧ (get_status_ id st).2 = st
  ∧ world (update_status_ id s n msg st).2 = world st
  ∧ calls (update_status_ id s n msg st).2 = calls st
  ∧ world (clear_status_ id st).2 = world st
  ∧ calls (clear_status_ id st).2 = calls st.
Proof.
  unfold get_status, update_status, clear_status. simpl.
  split; [now rewrite lookup_insert_eq|].
  split; [now rewrite lookup_delete_eq|].
  split.
  - intros other Hne.
    now rewrite lookup_insert_ne, lookup_delete_ne by congruence.
  - split; [|repeat split].
    intros Hnone. rewrite delete_id by exact Hnone. now destruct st.
Qed.

End Registry.

(** ** The further properties at sample inputs *)

Section FurtherSamples.

Import Processor Run Shape.

Lemma combine_keeps_every_part_witness :
  "bbbbbb" ∈ ["aaaaaa"; "bbbbbb"]
  ∧ ∃ chunk a b,
      chunk ∈ ChunkingEngine._combine_with_overlap
                (ChunkingEngine.__init__ 2 1) ["aaaaaa"; "bbbbbb"]
      ∧ chunk = a +:+ "bbbbbb" +:+ b.
Proof.
  assert (H : "bbbbbb" ∈ ["aaaaaa"; "bbbbbb"]) by (right; left).
  split; [exact H|].
  exact (combine_keeps_every_part (ChunkingEngine.__init__ 2 1)
           ["aaaaaa"; "bbbbbb"] "bbbbbb" H).
Defined.

Lemma combine_single_chunk_when_fits_witness :
  ["Hello."; "World."] ≠ []
  ∧ Str.len (Str.join ChunkingEngine.SEP ["Hello."; "World."])
    <= ChunkingEngine.chunk_size_chars (ChunkingEngine.__init__ 512 50)
  ∧ ChunkingEngine._combine_with_overlap (ChunkingEngine.__init__ 512 50)
      ["Hello."; "World."]
    = [Str.join ChunkingEngine.SEP ["Hello."; "World."]].
Proof.
  assert (H1 : ["Hello."; "World."] ≠ []) by discriminate.
  assert (H2 : Str.len (Str.join ChunkingEngine.SEP ["Hello."; "World."])
               <= ChunkingEngine.chunk_size_chars
                    (ChunkingEngine.__init__ 512 50))
    by (vm_compute; discriminate).
  split; [exact H1|]. split; [exact H2|].
  exact (combine_single_chunk_when_fits (ChunkingEngine.__init__ 512 50)
           ["Hello."; "World."] H1 H2).
Defined.

Lemma chunk_length_bound_witness :
  0 <= ChunkingEngine.chunk_overlap_chars (ChunkingEngine.__init__ 2 1)
  ∧ "aaaa" +:+ ChunkingEngine.SEP +:+ "bbbbbb"
    ∈ ChunkingEngine._combine_with_overlap (ChunkingEngine.__init__ 2 1)
        ["aaaaaa"; "bbbbbb"]
  ∧ (Str.len ("aaaa" +:+ ChunkingEngine.SEP +:+ "bbbbbb")
     <= ChunkingEngine.chunk_size_chars (ChunkingEngine.__init__ 2 1)
     ∨ ∃ p,
         p ∈ ["aaaaaa"; "bbbbbb"]
         ∧ Str.len ("aaaa" +:+ ChunkingEngine.SEP +:+ "bbbbbb")
           <= ChunkingEngine.chunk_overlap_chars (ChunkingEngine.__init__ 2 1)
              + 2 + Str.len p).
Proof.
  assert (H1 : 0 <= ChunkingEngine.chunk_overlap_chars
                      (ChunkingEngine.__init__ 2 1))
    by (vm_compute; discriminate).
  assert (H2 : "aaaa" +:+ ChunkingEngine.SEP +:+ "bbbbbb"
               ∈ ChunkingEngine._combine_with_overlap
                   (ChunkingEngine.__init__ 2 1) ["aaaaaa"; "bbbbbb"])
    by (apply list_elem_of_In; vm_compute; right; left; reflexivity).
  split; [exact H1|]. split; [exact H2|].
  exact (chunk_length_bound (ChunkingEngine.__init__ 2 1)
           ["aaaaaa"; "bbbbbb"] _ H1 H2).
Defined.

Lemma zero_overlap_divides_the_parts_witness :
  ChunkingEngine.chunk_overlap_chars (ChunkingEngine.__init__ 2 0) <= 0
  ∧ Forall (λ p, p ≠ "") ["aaaaaa"; "bbbbbb"]
  ∧ ∃ groups,
      concat groups = ["aaaaaa"; "bbbbbb"]
      ∧ Forall (λ g, g ≠ []) groups
      ∧ ChunkingEngine._combine_with_overlap (ChunkingEngine.__init__ 2 0)
          ["aaaaaa"; "bbbbbb"]
        = map (Str.join ChunkingEngine.SEP) groups.
Proof.
  assert (H1 : ChunkingEngine.chunk_overlap_chars
                 (ChunkingEngine.__init__ 2 0) <= 0)
    by (vm_compute; discriminate).
  assert (H2 : Forall (λ p : string, p ≠ "") ["aaaaaa"; "bbbbbb"])
    by (repeat constructor; discriminate).
  split; [exact H1|]. split; [exact H2|].
  exact (zero_overlap_divides_the_parts (ChunkingEngine.__init__ 2 0)
           ["aaaaaa"; "bbbbbb"] H1 H2).
Defined.

Lemma hello_chunk_made :
  ∃ c, hello_chunks = [c].
Proof. eexists. vm_compute. reflexivity. Qed.

Lemma every_chunk_has_a_source_witness :
  ∃ c,
    c ∈ hello_chunks
    ∧ ∃ s body,
        s ∈ [plain_section "hello world"]
        ∧ body ∈ ChunkingEngine.section_chunks ABBREVIATIONS_as_written
                   (ChunkingEngine.__init__ 512 50) s
        ∧ Chunk.content c
          = ChunkingEngine.context_prefix s "a.txt"
            +:+ String Char.newline body
        ∧ Chunk.document_id c = "doc-1".
Proof.
  destruct hello_chunk_made as [c Hc]. exists c.
  assert (H : c ∈ hello_chunks) by (rewrite Hc; left).
  split; [exact H|].
  destruct (every_chunk_has_a_source ABBREVIATIONS_as_written
              (ChunkingEngine.__init__ 512 50) "doc-1" "a.txt"
              [plain_section "hello world"] constant_entropy c H)
    as (s & body & Hs & Hb & Hcontent & Hid & _).
  exists s, body. repeat split; assumption.
Defined.

Lemma other_documents_untouched_witness :
  "doc-2" ≠ "doc-1"
  ∧ _processing_status
      (process_document (sample_services 1 None) "/uploads/a.txt"
         "project-1" "doc-1" "a.txt" initial_state).2
    !! "doc-2"
    = _processing_status initial_state !! "doc-2".
Proof.
  assert (H : "doc-2" ≠ "doc-1") by discriminate.
  split; [exact H|].
  exact (other_documents_untouched (sample_services 1 None) "/uploads/a.txt"
           "project-1" "doc-1" "a.txt" initial_state "doc-2" H).
Defined.

Lemma parse_is_the_second_call :
  new_calls initial_state
    (process_document (sample_services 1 None) "/uploads/a.txt" "project-1"
       "doc-1" "a.txt" initial_state)
  !! 1%nat
  = Some (parsed "/uploads/a.txt" "txt" [plain_section "hello world"]).
Proof. vm_compute. reflexivity. Qed.

Lemma calls_follow_the_pipeline_witness :
  new_calls initial_state
    (process_document (sample_services 1 None) "/uploads/a.txt" "project-1"
       "doc-1" "a.txt" initial_state)
  !! 1%nat
  = Some (parsed "/uploads/a.txt" "txt" [plain_section "hello world"])
  ∧ stage
      (ev_call
         (parsed (Vector := list Z) "/uploads/a.txt" "txt"
            [plain_section "hello world"]))
    = 1%nat.
Proof.
  split; [exact parse_is_the_second_call|].
  exact (proj1
           (calls_follow_the_pipeline (sample_services 1 None)
              "/uploads/a.txt" "project-1" "doc-1" "a.txt" initial_state 1 _
              parse_is_the_second_call)).
Defined.

Lemma store_call_logged :
  mk_event (call_upsert_chunks "project-1" hello_chunks [[0]])
    (Returned (VInt 1))
  ∈ new_calls initial_state
      (process_document (sample_services 1 None) "/uploads/a.txt" "project-1"
         "doc-1" "a.txt" initial_state).
Proof.
  apply list_elem_of_In. vm_compute. do 4 right. left. reflexivity.
Qed.

Lemma data_flows_through_the_pipeline_witness :
  mk_event (call_upsert_chunks "project-1" hello_chunks [[0]])
    (Returned (VInt 1))
  ∈ new_calls initial_state
      (process_document (sample_services 1 None) "/uploads/a.txt" "project-1"
         "doc-1" "a.txt" initial_state)
  ∧ embedded hello_chunks [[0]]
    ∈ new_calls initial_state
        (process_document (sample_services 1 None) "/uploads/a.txt"
           "project-1" "doc-1" "a.txt" initial_state).
Proof.
  split; [exact store_call_logged|].
  exact (proj1 (proj2 (proj2
           (data_flows_through_the_pipeline (sample_services 1 None)
              "/uploads/a.txt" "project-1" "doc-1" "a.txt" initial_state _
              store_call_logged)))).
Defined.

Lemma nothing_parsed_logged :
  parsed "/uploads/a.txt" "txt" []
  ∈ new_calls initial_state
      (process_document (scripted_services [] [] [] 1) "/uploads/a.txt"
         "project-1" "doc-1" "a.txt" initial_state).
Proof.
  apply list_elem_of_In. vm_compute. right. left. reflexivity.
Qed.

Lemma empty_stage_ends_the_run_witness :
  parsed "/uploads/a.txt" "txt" []
  ∈ new_calls initial_state
      (process_document (scripted_services [] [] [] 1) "/uploads/a.txt"
         "project-1" "doc-1" "a.txt" initial_state)
  ∧ length
      (new_calls initial_state
         (process_document (scripted_services [] [] [] 1) "/uploads/a.txt"
            "project-1" "doc-1" "a.txt" initial_state))
    = 2%nat.
Proof.
  split; [exact nothing_parsed_logged|].
  exact (proj2
           (proj1
              (empty_stage_ends_the_run (scripted_services [] [] [] 1)
                 "/uploads/a.txt" "project-1" "doc-1" "a.txt" initial_state)
              nothing_parsed_logged)).
Defined.

Lemma sample_run_ready :
  (process_document (sample_services 1 None) "/uploads/a.txt" "project-1"
     "doc-1" "a.txt" initial_state).1
  = Returned (mk_result "doc-1" ready 1 None 1%nat).
Proof. vm_compute. reflexivity. Qed.

Lemma ready_runs_the_whole_pipeline_witness :
  (process_document (sample_services 1 None) "/uploads/a.txt" "project-1"
     "doc-1" "a.txt" initial_state).1
  = Returned (mk_result "doc-1" ready 1 None 1%nat)
  ∧ status (mk_result "doc-1" ready 1 None 1%nat) = ready
  ∧ length
      (new_calls initial_state
         (process_document (sample_services 1 None) "/uploads/a.txt"
            "project-1" "doc-1" "a.txt" initial_state))
    = 5%nat.
Proof.
  split; [exact sample_run_ready|]. split; [reflexivity|].
  destruct (ready_runs_the_whole_pipeline (sample_services 1 None)
              "/uploads/a.txt" "project-1" "doc-1" "a.txt" initial_state _
              sample_run_ready eq_refl)
    as (nd & sections & cs & vs & -> & _).
  reflexivity.
Defined.

(** An entropy source whose draws are pairwise different. *)
Lemma counting_entropy_distinct (i j : nat) :
  (i < 2)%nat → (j < 2)%nat →
  counting_entropy i = counting_entropy j → i = j.
Proof.
  intros Hi Hj.
  destruct i as [|[|i]]; [| |lia]; (destruct j as [|[|j]]; [| |lia]);
    vm_compute; intros H; congruence.
Qed.

Lemma chunk_ids_are_the_draws_witness :
  (∀ i j,
     (i < length
            (ChunkingEngine.chunk_document ABBREVIATIONS_as_written
               (ChunkingEngine.__init__ 512 50)
               [plain_section "one"; plain_section "two"] "doc-1" "a.txt"
               counting_entropy).1)%nat →
     (j < length
            (ChunkingEngine.chunk_document ABBREVIATIONS_as_written
               (ChunkingEngine.__init__ 512 50)
               [plain_section "one"; plain_section "two"] "doc-1" "a.txt"
               counting_entropy).1)%nat →
     counting_entropy i = counting_entropy j → i = j)
  ∧ NoDup
      (map Chunk.chunk_id
         (ChunkingEngine.chunk_document ABBREVIATIONS_as_written
            (ChunkingEngine.__init__ 512 50)
            [plain_section "one"; plain_section "two"] "doc-1" "a.txt"
            counting_entropy).1).
Proof.
  assert (H : ∀ i j,
     (i < length
            (ChunkingEngine.chunk_document ABBREVIATIONS_as_written
               (ChunkingEngine.__init__ 512 50)
               [plain_section "one"; plain_section "two"] "doc-1" "a.txt"
               counting_entropy).1)%nat →
     (j < length
            (ChunkingEngine.chunk_document ABBREVIATIONS_as_written
               (ChunkingEngine.__init__ 512 50)
               [plain_section "one"; plain_section "two"] "doc-1" "a.txt"
               counting_entropy).1)%nat →
     counting_entropy i = counting_entropy j → i = j)
    by exact counting_entropy_distinct.
  split; [exact H|].
  exact (proj2 (proj2
           (chunk_ids_are_the_draws ABBREVIATIONS_as_written
              (ChunkingEngine.__init__ 512 50) "doc-1" "a.txt"
              [plain_section "one"; plain_section "two"] counting_entropy))
           H).
Defined.

Lemma status_round_trip_witness :
  _processing_status initial_state !! "doc-1" = None
  ∧ clear_status "doc-1" initial_state = (Returned tt, initial_state).
Proof.
  assert (H : _processing_status initial_state !! "doc-1" = None)
    by reflexivity.
  split; [exact H|].
  exact (proj1 (proj2 (proj2 (proj2
           (status_round_trip "doc-1" ready 1 None initial_state))))
           H).
Defined.

End FurtherSamples.

(** ** The vector store *)

Section CollectionName.

Import VectorStore.

Lemma match_hyphen (prev : option ascii) (c : ascii) (s : string) :
  Re.match_at (Re.Lit "-") prev (String c s)
  = if Ascii.eqb "-" c then Some 1%nat else None.
Proof.
  unfold Re.match_at. cbn [Re.run Re.literal].
  destruct (Ascii.eqb "-" c); [|reflexivity].
  f_equal. cbn [String.length]. lia.
Qed.

Lemma replace_hyphens_scan (prev : option ascii) (s : string) :
  Re.sub_scan (Re.Lit "-") (λ _, "_") prev s 0 = underscored s.
Proof.
  revert prev. induction s as [|c s IH]; intros prev; [reflexivity|].
  cbn [Re.sub_scan underscored]. rewrite match_hyphen.
  rewrite Ascii.eqb_sym.
  destruct (Ascii.eqb c "-"); rewrite IH; reflexivity.
Qed.

Lemma replace_hyphens (s : string) : Re.replace "-" "_" s = underscored s.
Proof. apply replace_hyphens_scan. Qed.

Lemma underscored_length (s : string) :
  String.length (underscored s) = String.length s.
Proof. induction s as [|c s IH]; simpl; congruence. Qed.

Lemma underscored_idem (s : string) : underscored (underscored s) = underscored s.
Proof.
  induction s as [|c s IH]; [reflexivity|]. simpl. rewrite IH.
  destruct (Ascii.eqb c "-") eqn:E; [reflexivity | now rewrite E].
Qed.

Lemma underscored_hyphen_free (s : string) : hyphen_free (underscored s) = true.
Proof.
  induction s as [|c s IH]; [reflexivity|]. simpl. rewrite IH.
  destruct (Ascii.eqb c "-") eqn:E; [reflexivity | now rewrite E].
Qed.

Lemma underscored_fixed (s : string) :
  hyphen_free s = true ↔ underscored s = s.
Proof.
  induction s as [|c s IH]; [easy|]. simpl.
  destruct (Ascii.eqb_spec c "-") as [->|Hc]; simpl.
  - split; [discriminate | intros H; inversion H].
  - rewrite IH. split; [intros -> | intros H; inversion H]; congruence.
Qed.

Lemma string_app_inj_l (p a b : string) : p +:+ a = p +:+ b → a = b.
Proof.
  induction p as [|c p IH]; [easy|].
  rewrite !string_app_cons. intros H. inversion H. auto.
Qed.

(** X17.  The collection of a project is named "project_" followed by the
    project id with every hyphen turned into an underscore: the name is 8
    characters longer than the id and holds no hyphen.  Two ids have the
    same collection exactly when they agree up to hyphens and underscores;
    so an id with a hyphen shares its collection with another id, the one
    with underscores, while ids without hyphens never share one. *)
Theorem collection_name_cases (project_id other : string) :
  _get_collection_name project_id = "project_" +:+ underscored project_id
  ∧ Str.len (_get_collection_name project_id) = Str.len project_id + 8
  ∧ hyphen_free (_get_collection_name project_id) = true
  ∧ (_get_collection_name project_id = _get_collection_name other
     ↔ underscored project_id = underscored other)
  ∧ _get_collection_name (underscored project_id)
    = _get_collection_name project_id
  ∧ (hyphen_free project_id = false → underscored project_id ≠ project_id)
  ∧ (hyphen_free project_id = true → hyphen_free other = true →
     _get_collection_name project_id = _get_collection_name other →
     project_id = other).
Proof.
  unfold _get_collection_name. rewrite !replace_hyphens.
  split; [reflexivity|].
  split; [rewrite len_app; unfold Str.len; rewrite underscored_length;
          simpl; lia|].
  split; [simpl; apply underscored_hyphen_free|].
  split; [split; [apply string_app_inj_l | now intros ->]|].
  split; [now rewrite underscored_idem|].
  split.
  - intros Hf Hu. apply underscored_fixed in Hu. congruence.
  - intros H1 H2 E. apply string_app_inj_l in E.
    apply underscored_fixed in H1, H2. congruence.
Qed.

End CollectionName.

Section Batches.

Import VectorStore Requests.

Context {DB Scalar : Type}.

Local Abbreviation Point := (PointStruct.t Scalar).

Variable points : list Point.





End Batches.

Section StoreRuns.

Import VectorStore Requests.

Context {DB Scalar : Type}.

Local Abbreviation Point := (PointStruct.t Scalar).
Local Abbreviation Store := (@Store DB Scalar).
Local Abbreviation Sent := (@Sent Scalar).
Local Abbreviation Returned := Processor.Returned.
Local Abbreviation Raised := Processor.Raised.
Local Abbreviation is_Exception := Processor.is_Exception.

Variable self : @VectorStore.t DB Scalar.








Lemma new_sent_app {A} (st : Store) (run : Processor.Outcome A * Store)
    (log : list Sent) :
  sent run.2 = sent st ++ log → new_sent st run = log.
Proof. unfold new_sent. intros ->. apply drop_app_length. Qed.






(** A store without a usable client answers at once, and sends nothing. *)
Lemma unusable_store (project_id document_id : string)
    (chunks : list Chunk.t) (embeddings : list (list Scalar)) (size : Z)
    (st : Store) :
  usable self = None →
  ensure_collection self project_id size st = (Returned tt, st)
  ∧ upsert_chunks self project_id chunks embeddings st = (Returned 0, st)
  ∧ delete_document_chunks self project_id document_id st = (Returned 0, st).
Proof.
  intros H. unfold ensure_collection, upsert_chunks, delete_document_chunks.
  rewrite H. repeat split.
Qed.

Lemma usable_cases :
  usable self = None ↔ _is_connected self = false ∨ _client self = None.
Proof.
  unfold usable. destruct (_is_connected self), (_client self); split;
    intros H; try reflexivity; try discriminate; auto;
    destruct H; discriminate.
Qed.


(** X19.  [delete_document_chunks] on a usable client.  It returns a
    number that is not 0 only when the collection of the project exists,
    the count of the points of the document is that number, and the
    deletion returned: the log is then these three requests.  A deletion
    is requested only after a count that is not 0, for the same collection
    and document.  When the deletion raises an instance of [Exception] the
    call returns 0, as it does when nothing was there to delete.  What the
    call raises, if anything, is not an instance of [Exception], and a
    request raised it.  No upsert is ever requested. *)
Theorem delete_document_chunks_cases (client : QdrantClient)
    (project_id document_id : string) (st : Store) :
  usable self = Some client →
  let run := delete_document_chunks self project_id document_id st in
  let name := _get_collection_name project_id in
  let log := new_sent st run in
  let present := mk_sent (req_collection_exists name) (Returned (ABool true)) in
  let counted n := mk_sent (req_count name document_id) (Returned (AInt n)) in
  sent run.2 = sent st ++ log
  ∧ (∀ n, run.1 = Returned n → n ≠ 0 →
          log = [present; counted n;
                 mk_sent (req_delete name document_id) (Returned ANone)])
  ∧ (∀ n' d a,
       mk_sent (req_delete n' d) a ∈ log →
       ∃ n, n ≠ 0
            ∧ log = [present; counted n;
                     mk_sent (req_delete name document_id) a])
  ∧ (∀ n' d e,
       mk_sent (req_delete n' d) (Raised e) ∈ log →
       is_Exception e = true → run.1 = Returned 0)
  ∧ (∀ e, run.1 = Raised e →
          is_Exception e = false ∧ ∃ r, mk_sent r (Raised e) ∈ log)
  ∧ (∀ n' points a, mk_sent (req_upsert n' points) a ∉ log).
Proof.
  intros Husable. cbv zeta. unfold delete_document_chunks. rewrite Husable.
  unfold try_, then_, send, unit_, new_sent. cbv zeta.
  repeat
    (match goal with
     | |- context [collection_exists client ?a ?b] =>
         destruct (collection_exists client a b) as [[[|]|e] ?]
     | |- context [count client ?a ?b ?c] =>
         destruct (count client a b c) as [[n|e] ?]
     | |- context [Z.eqb ?n 0] => destruct (Z.eqb_spec n 0) as [Hz|Hnz]
     | |- context [delete client ?a ?b ?c] =>
         destruct (delete client a b c) as [[u|e] ?]
     end;
     cbn [Processor.outcome_map db sent negb fst snd]);
    try destruct (is_Exception e) eqn:He;
    cbn [fst snd sent]; rewrite <- ?List.app_assoc; cbn [app];
    rewrite ?drop_app_length;
    (split; [reflexivity|]);
    (split; [intros n0 E Hn0; first [discriminate E | inversion E; subst; congruence]|]);
    (split;
     [intros n' dd a Hin;
      repeat (apply elem_of_cons in Hin as [Hin|Hin];
              [first [discriminate Hin | inversion Hin; subst; eauto]|]);
      inversion Hin|]);
    (split;
     [intros n' dd e0 Hin He0;
      repeat (apply elem_of_cons in Hin as [Hin|Hin];
              [first [discriminate Hin | inversion Hin; subst;
                      first [reflexivity | congruence]]|]);
      inversion Hin|]);
    (split;
     [|intros n' ps a Hin;
       repeat (apply elem_of_cons in Hin as [Hin|Hin]; [discriminate Hin|]);
       inversion Hin]);
    intros e0 E; first [discriminate E | inversion E; subst e0];
    (split; [assumption|]);
    eexists; repeat (first [left; reflexivity | right]).
Qed.


Lemma delete_document_chunks_sent (project_id document_id : string)
    (st : Store) :
  sent (delete_document_chunks self project_id document_id st).2
  = sent st
    ++ new_sent st (delete_document_chunks self project_id document_id st)
  ∧ ∀ n points a,
      mk_sent (req_upsert n points) a
      ∉ new_sent st (delete_document_chunks self project_id document_id st).
Proof.
  assert (H : ∃ log,
            sent (delete_document_chunks self project_id document_id st).2
            = sent st ++ log
            ∧ ∀ n points a, mk_sent (req_upsert n points) a ∉ log).
  { unfold delete_document_chunks.
    destruct (usable self) as [client|].
    - unfold try_, then_, send, unit_. cbv zeta.
      repeat
        (match goal with
         | |- context [collection_exists client ?a ?b] =>
             destruct (collection_exists client a b) as [[[|]|e] ?]
         | |- context [count client ?a ?b ?c] =>
             destruct (count client a b c) as [[n|e] ?]
         | |- context [Z.eqb ?n 0] => destruct (Z.eqb n 0)
         | |- context [delete client ?a ?b ?c] =>
             destruct (delete client a b c) as [[u|e] ?]
         end;
         cbn [Processor.outcome_map db sent negb fst snd]);
        try destruct (is_Exception e);
        cbn [fst snd sent]; rewrite <- ?List.app_assoc; cbn [app];
        (eexists; split; [reflexivity|]);
        intros n' ps a Hin;
        repeat (apply elem_of_cons in Hin as [Hin|Hin]; [discriminate Hin|]);
        inversion Hin.
    - exists []. unfold unit_. simpl. rewrite app_nil_r.
      split; [reflexivity|]. intros n ps a Hin. inversion Hin. }
  destruct H as (log & Hs & Hno).
  rewrite (new_sent_app st _ log Hs). split; [exact Hs | exact Hno].
Qed.

End StoreRuns.

(** ** The course of a run *)

Section RunCourse.

Import Processor Run Course.

Context {World Vector Time : Type}.
Variable self : @Services World Vector Time.

Local Abbreviation M := (@M World Vector).

Lemma ticks_trans (w1 w2 w3 : World) :
  ticks self w1 w2 → ticks self w2 w3 → ticks self w1 w3.
Proof.
  induction 1 as [|w t w' w'' Ht _ IH]; [easy|].
  intros H. exact (ticks_more self _ _ _ _ Ht (IH H)).
Qed.

Lemma course_ticks (w0 w : World) (evs : list (@Event Vector)) (w' : World) :
  ticks self w0 w → course self w evs w' → course self w0 evs w'.
Proof.
  intros Ht Hc. destruct Hc as [w w' H|w w1 c o w2 evs w3 H Ha Hc].
  - constructor. exact (ticks_trans _ _ _ Ht H).
  - exact (course_call self _ _ _ _ _ _ _ (ticks_trans _ _ _ Ht H) Ha Hc).
Qed.

Lemma course_app (w1 w2 w3 : World) (evs1 evs2 : list (@Event Vector)) :
  course self w1 evs1 w2 → course self w2 evs2 w3 →
  course self w1 (evs1 ++ evs2) w3.
Proof.
  induction 1 as [w w' H|w w1 c o w2 evs w3' H Ha _ IH]; intros H2.
  - exact (course_ticks _ _ _ _ H H2).
  - simpl. exact (course_call self _ _ _ _ _ _ _ H Ha (IH H2)).
Qed.

Lemma on_course_ret {A} (a : A) :
  on_course self (ret (World := World) (Vector := Vector) a).
Proof.
  intros st. exists []. simpl. rewrite app_nil_r.
  split; [reflexivity | repeat constructor].
Qed.

Lemma on_course_update_status id s n msg :
  on_course self
    (update_status (World := World) (Vector := Vector) id s n msg).
Proof.
  intros st. exists []. simpl. rewrite app_nil_r.
  split; [reflexivity | repeat constructor].
Qed.

Lemma on_course_now : on_course self (now self).
Proof.
  intros st. exists []. unfold now.
  destruct (time_time self (world st)) as [t w] eqn:E. simpl.
  rewrite app_nil_r. split; [reflexivity|]. constructor.
  exact (ticks_more self _ _ _ _ E (ticks_none self _)).
Qed.

Lemma on_course_bind {A B} (m : M A) (k : A → M B) :
  on_course self m → (∀ a, on_course self (k a)) →
  on_course self (bind m k).
Proof.
  intros Hm Hk st. destruct (Hm st) as (evs1 & Hc1 & Ht1). unfold bind.
  destruct (m st) as [[a|e] st1]; simpl in *.
  - destruct (Hk a st1) as (evs2 & Hc2 & Ht2). exists (evs1 ++ evs2).
    split; [now rewrite Hc2, Hc1, List.app_assoc|].
    exact (course_app _ _ _ _ _ Ht1 Ht2).
  - exists evs1. split; [exact Hc1 | exact Ht1].
Qed.

Lemma on_course_try {A} (body : M A) (handler : BaseException → M A) :
  on_course self body → (∀ e, on_course self (handler e)) →
  on_course self (try_except body handler).
Proof.
  intros Hb Hh st. destruct (Hb st) as (evs1 & Hc1 & Ht1). unfold try_except.
  destruct (body st) as [[a|e] st1]; simpl in *.
  - exists evs1. split; [exact Hc1 | exact Ht1].
  - destruct (is_Exception e).
    + destruct (Hh e st1) as (evs2 & Hc2 & Ht2). exists (evs1 ++ evs2).
      split; [now rewrite Hc2, Hc1, List.app_assoc|].
      exact (course_app _ _ _ _ _ Ht1 Ht2).
    + exists evs1. split; [exact Hc1 | exact Ht1].
Qed.

Lemma on_course_invoke {A} (c : @Call Vector) (inj : A → @Value Vector)
    (op : World → Outcome A * World) :
  (∀ w, answers self c w = (outcome_map inj (op w).1, (op w).2)) →
  on_course self (invoke c inj op).
Proof.
  intros Hop st. unfold invoke. specialize (Hop (world st)).
  destruct (op (world st)) as [r w]. simpl in *.
  eexists. split; [reflexivity|].
  exact (course_call self _ _ _ _ _ _ _ (ticks_none self _) Hop
           (course_end self _ _ (ticks_none self _))).
Qed.

Ltac course_steps :=
  repeat first
    [ apply on_course_ret
    | apply on_course_update_status
    | apply on_course_now
    | apply on_course_invoke;
      intros w; cbn [answers];
      match goal with |- context [let '(_, _) := ?x in _] => now destruct x end
    | apply on_course_bind; [|intros ?]
    | apply on_course_try; [|intros ?]
    | progress cbv beta zeta
    | match goal with
      | |- on_course _ (if ?b then _ else _) => destruct b
      end ].

(** The calls a run logs are the course of the world during the run. *)
Lemma process_document_on_course
    (file_path project_id document_id filename : string)
    (st : @State World Vector) :
  let run := process_document self file_path project_id document_id filename
               st in
  course self (world st) (new_calls st run) (world run.2).
Proof.
  cbv zeta.
  assert (H : on_course self
                (process_document self file_path project_id document_id
                   filename)).
  { unfold process_document, process_body, _error_result, delete_document.
    course_steps. }
  destruct (H st) as (evs & Hc & Ht). unfold new_calls.
  rewrite Hc, drop_app_length. exact Ht.
Qed.

Lemma course_event (w w' : World) (evs : list (@Event Vector)) c o :
  course self w evs w' → mk_event c o ∈ evs →
  ∃ w1 w2, answers self c w1 = (o, w2).
Proof.
  induction 1 as [|w w1 c' o' w2 evs w3 _ Ha _ IH]; intros Hin;
    [inversion Hin|].
  apply elem_of_cons in Hin as [Hin|Hin]; [|exact (IH Hin)].
  inversion Hin; subst. eauto.
Qed.

Lemma ticks_kept (R : World → World → Prop) (w w' : World) :
  (∀ w, R w w) → (∀ a b c, R a b → R b c → R a c) →
  (∀ w t w', time_time self w = (t, w') → R w w') →
  ticks self w w' → R w w'.
Proof.
  intros Hrefl Htrans Htick. induction 1 as [|w t w' w'' Ht _ IH]; [auto|].
  exact (Htrans _ _ _ (Htick _ _ _ Ht) IH).
Qed.

Lemma course_kept_on (allowed : @Call Vector → Prop)
    (R : World → World → Prop) (w w' : World) (evs : list (@Event Vector)) :
  (∀ w, R w w) → (∀ a b c, R a b → R b c → R a c) →
  (∀ w t w', time_time self w = (t, w') → R w w') →
  (∀ c w o w', allowed c → answers self c w = (o, w') → R w w') →
  Forall (λ ev, allowed (ev_call ev)) evs →
  course self w evs w' → R w w'.
Proof.
  intros Hrefl Htrans Htick Hcall Hall Hc.
  induction Hc as [w w' H|w w1 c o w2 evs w3 H Ha _ IH].
  - exact (ticks_kept R _ _ Hrefl Htrans Htick H).
  - inversion Hall as [|ev evs' Hev Hrest]; subst. simpl in Hev.
    exact (Htrans _ _ _ (ticks_kept R _ _ Hrefl Htrans Htick H)
             (Htrans _ _ _ (Hcall _ _ _ _ Hev Ha) (IH Hrest))).
Qed.

Lemma course_kept (R : World → World → Prop) (w w' : World)
    (evs : list (@Event Vector)) :
  (∀ w, R w w) → (∀ a b c, R a b → R b c → R a c) →
  (∀ w t w', time_time self w = (t, w') → R w w') →
  (∀ c w o w', answers self c w = (o, w') → R w w') →
  course self w evs w' → R w w'.
Proof.
  intros Hrefl Htrans Htick Hcall Hc.
  refine (course_kept_on (λ _, True) R w w' evs Hrefl Htrans Htick
            (λ c w o w' _ H, Hcall c w o w' H) _ Hc).
  apply Forall_forall. intros ev _. exact I.
Qed.



(** X20.  A run changes the world through its collaborators and the clock
    only, and its log tells how: every call of the log is a collaborator
    run in some world with the outcome the log records, and a relation
    between worlds that is reflexive and transitive and that every
    collaborator call and every clock reading respects holds between the
    world before the run and the world after it. *)
Theorem world_changes_through_the_services_only
    (file_path project_id document_id filename : string)
    (st : @State World Vector) (R : World → World → Prop) :
  (∀ w, R w w) → (∀ a b c, R a b → R b c → R a c) →
  (∀ w t w', time_time self w = (t, w') → R w w') →
  (∀ c w o w', answers self c w = (o, w') → R w w') →
  let run := process_document self file_path project_id document_id filename
               st in
  R (world st) (world run.2)
  ∧ ∀ c o, mk_event c o ∈ new_calls st run →
           ∃ w1 w2, answers self c w1 = (o, w2).
Proof.
  intros Hrefl Htrans Htick Hcall. cbv zeta.
  pose proof (process_document_on_course file_path project_id document_id
                filename st) as Hc. cbv zeta in Hc.
  split; [exact (course_kept R _ _ _ Hrefl Htrans Htick Hcall Hc)|].
  intros c o Hin. exact (course_event _ _ _ _ _ Hc Hin).
Qed.

End RunCourse.

(** ** The services put together *)

Section AssemblyFacts.

Import Processor Run Shape Course Requests.

Context {W DB Scalar Time : Type}.

Variable parse :
  string → string → W → Outcome (list ParsedSection.t) * W.
Variable abbrev_order : list string.
Variable time_time : W → Time * W.
Variable time_minus : Time → Time → Time.
Variable path_suffix : string → string.
Variable chunker : ChunkingEngine.t.
Variable embedder : @EmbeddingService.t W Scalar.
Variable vector_store : @VectorStore.t DB Scalar.

Local Abbreviation World := (@Assembly.World W DB Scalar).
Local Abbreviation processor :=
  (Assembly.DocumentProcessor parse abbrev_order time_time time_minus
     path_suffix chunker embedder vector_store).
Local Abbreviation entropy := (@Assembly.entropy W DB Scalar).
Local Abbreviation qdrant := (@Assembly.qdrant W DB Scalar).
Local Abbreviation outside := (@Assembly.outside W DB Scalar).

Local Abbreviation inside_kept := (@Assembly.inside_kept W DB Scalar).
Local Abbreviation new_requests := (@Assembly.new_requests W DB Scalar).
Local Abbreviation no_upsert_sent := (@Assembly.no_upsert_sent W DB Scalar).

Lemma on_outside_kept {A} (op : W → A * W) (w : World) a w' :
  Assembly.on_outside op w = (a, w') → inside_kept w w'.
Proof.
  unfold Assembly.on_outside. destruct (op _). intros E. inversion E.
  split; reflexivity.
Qed.

Lemma tick_kept (w : World) t w' :
  Processor.time_time processor w = (t, w') → inside_kept w w'.
Proof. apply on_outside_kept. Qed.



Lemma parse_kept (w : World) file_path file_type o w' :
  answers processor (call_parse file_path file_type) w = (o, w') →
  inside_kept w w'.
Proof.
  cbn [answers Processor.parser_parse Assembly.DocumentProcessor].
  destruct (Assembly.on_outside _ w) as [a w1] eqn:E. intros H.
  inversion H; subst. exact (on_outside_kept _ _ _ _ E).
Qed.

Lemma embed_kept (w : World) texts batch_size o w' :
  answers processor (call_embed_batch texts batch_size) w = (o, w') →
  inside_kept w w'.
Proof.
  cbn [answers Processor.embedder_embed_batch Assembly.DocumentProcessor].
  destruct (Assembly.on_outside _ w) as [a w1] eqn:E. intros H.
  inversion H; subst. exact (on_outside_kept _ _ _ _ E).
Qed.

Lemma chunk_step (w : World) sections document_id document_name o w' :
  answers processor (call_chunk_document sections document_id document_name)
    w
  = (o, w') →
  o = Returned
        (VChunks
           (ChunkingEngine.chunk_document abbrev_order chunker sections
              document_id document_name (entropy w)).1)
  ∧ entropy w'
    = (ChunkingEngine.chunk_document abbrev_order chunker sections
         document_id document_name (entropy w)).2
  ∧ qdrant w' = qdrant w.
Proof.
  cbn [answers Processor.chunker_chunk_document Assembly.DocumentProcessor].
  destruct (ChunkingEngine.chunk_document _ _ _ _ _ _) as [cs g].
  intros H. inversion H; subst. repeat split.
Qed.

Lemma upsert_step (w : World) project_id chunks embeddings o w' :
  answers processor (call_upsert_chunks project_id chunks embeddings) w
  = (o, w') →
  o = outcome_map VInt
        (VectorStore.upsert_chunks vector_store project_id chunks embeddings
           (qdrant w)).1
  ∧ qdrant w'
    = (VectorStore.upsert_chunks vector_store project_id chunks embeddings
         (qdrant w)).2
  ∧ entropy w' = entropy w.
Proof.
  cbn [answers Processor.vector_store_upsert_chunks
       Assembly.DocumentProcessor].
  unfold Assembly.on_qdrant.
  destruct (VectorStore.upsert_chunks _ _ _ _ _) as [r q].
  intros H. inversion H; subst. repeat split.
Qed.

Lemma delete_step (w : World) project_id document_id o w' :
  answers processor (call_delete_document_chunks project_id document_id) w
  = (o, w') →
  o = outcome_map VInt
        (VectorStore.delete_document_chunks vector_store project_id
           document_id (qdrant w)).1
  ∧ qdrant w'
    = (VectorStore.delete_document_chunks vector_store project_id
         document_id (qdrant w)).2
  ∧ entropy w' = entropy w.
Proof.
  cbn [answers Processor.vector_store_delete_document_chunks
       Assembly.DocumentProcessor].
  unfold Assembly.on_qdrant.
  destruct (VectorStore.delete_document_chunks _ _ _ _) as [r q].
  intros H. inversion H; subst. repeat split.
Qed.

Lemma store_unusable :
  VectorStore._is_connected vector_store = false
  ∨ VectorStore._client vector_store = None →
  VectorStore.usable vector_store = None.
Proof. apply usable_cases. Qed.

Ltac upsert_event_steps Hin :=
  unfold parsed, chunked, embedded, deleted in *;
  do 5 (try (apply elem_of_cons in Hin as [Hin|Hin];
             [first
                [ discriminate Hin
                | inversion Hin; subst;
                  first
                    [ congruence
                    | solve [eauto]
                    | simpl in *; congruence ] ]|]));
  inversion Hin.

(** X21.  With a vector store that has no usable client (not connected, or
    no client at all), no run ends [ready] and nothing is sent to the
    database: a run that gets as far as the store stage is told that 0
    points were upserted and ends with the error "Failed to store vectors
    in Qdrant". *)
Theorem unusable_store_never_ready
    (file_path project_id document_id filename : string)
    (st : @State World (list Scalar)) :
  VectorStore._is_connected vector_store = false
  ∨ VectorStore._client vector_store = None →
  let run := process_document processor file_path project_id document_id
               filename st in
  qdrant (world run.2) = qdrant (world st)
  ∧ (∀ result, run.1 = Returned result → status result = error)
  ∧ (∀ p cs vs o,
       mk_event (call_upsert_chunks p cs vs) o ∈ new_calls st run →
       o = Returned (VInt 0)
       ∧ ∃ t, run.1
              = Returned
                  (mk_result document_id error 0
                     (Some "Failed to store vectors in Qdrant") t)).
Proof.
  intros Hstore. apply store_unusable in Hstore. cbv zeta.
  pose proof (process_document_on_course processor file_path project_id
                document_id filename st) as Hc. cbv zeta in Hc.
  assert (Hzero : ∀ p cs vs o,
            mk_event (call_upsert_chunks p cs vs) o
            ∈ new_calls st
                (process_document processor file_path project_id document_id
                   filename st) →
            o = Returned (VInt 0)).
  { intros p cs vs o Hin.
    destruct (course_event _ _ _ _ _ _ Hc Hin) as (w1 & w2 & Ha).
    apply upsert_step in Ha as (-> & _).
    destruct (unusable_store vector_store p "" cs vs 0 (qdrant w1) Hstore)
      as (_ & -> & _).
    reflexivity. }
  split; [|split].
  - refine (course_kept processor (λ w w', qdrant w' = qdrant w) _ _ _
              (λ _, eq_refl) _ _ _ Hc).
    + intros a b c H1 H2. congruence.
    + intros w t w' H. exact (proj2 (tick_kept _ _ _ H)).
    + intros c w o w' H. destruct c.
      * exact (proj2 (parse_kept _ _ _ _ _ H)).
      * exact (proj2 (proj2 (chunk_step _ _ _ _ _ _ H))).
      * exact (proj2 (embed_kept _ _ _ _ _ H)).
      * apply upsert_step in H as (_ & -> & _).
        now destruct (unusable_store vector_store project_id0 "" chunks
                        embeddings 0 (qdrant w) Hstore) as (_ & -> & _).
      * apply delete_step in H as (_ & -> & _).
        now destruct (unusable_store vector_store project_id0 document_id0
                        [] [] 0 (qdrant w) Hstore) as (_ & _ & ->).
  - intros result Hres.
    destruct (process_document_shape processor file_path project_id
                document_id filename st)
      as [[(s & n & msg & t & Hr & _ & Hp)|(e & Hr & _)] _];
      [|rewrite Hr in Hres; discriminate].
    rewrite Hr in Hres. inversion Hres; subst result. simpl.
    destruct s; try reflexivity; inversion Hp; subst.
    match goal with
    | H : _ = new_calls _ _ |- _ =>
        assert (Hin : mk_event (call_upsert_chunks project_id cs vs)
                        (Returned (VInt n))
                      ∈ new_calls st
                          (process_document processor file_path project_id
                             document_id filename st))
          by (rewrite <- H; do 4 right; left)
    end.
    specialize (Hzero _ _ _ _ Hin). congruence.
  - intros p cs vs o Hin. pose proof (Hzero _ _ _ _ Hin) as ->.
    split; [reflexivity|].
    destruct (process_document_shape processor file_path project_id
                document_id filename st)
      as [[(s & n & msg & t & Hr & _ & Hp)|(e & _ & _ & _ & Hp)] _].
    + rewrite Hr.
      destruct Hp as [|evs e0 Hi _| | | | |]; [|destruct Hi|..];
        upsert_event_steps Hin.
    + destruct Hp; upsert_event_steps Hin.
Qed.

Lemma embedder_unloaded (texts : list string) (batch_size : Z) (w : W) :
  EmbeddingService._is_loaded embedder = false
  ∨ EmbeddingService._model embedder = None →
  EmbeddingService.embed_batch time_time embedder texts batch_size w
  = (Raised (Exc "Embedding model not loaded"), w).
Proof.
  unfold EmbeddingService.embed_batch.
  intros [H|H]; rewrite H; [reflexivity|].
  now destruct (EmbeddingService._is_loaded embedder).
Qed.

Lemma no_upsert_sent_refl (w : World) : no_upsert_sent w w.
Proof.
  exists []. rewrite app_nil_r. split; [reflexivity|].
  intros n ps a Hin. inversion Hin.
Qed.

Lemma no_upsert_sent_trans (a b c : World) :
  no_upsert_sent a b → no_upsert_sent b c → no_upsert_sent a c.
Proof.
  intros (l1 & E1 & H1) (l2 & E2 & H2). exists (l1 ++ l2).
  split; [now rewrite E2, E1, List.app_assoc|].
  intros n ps x Hin. apply elem_of_app in Hin as [Hin|Hin];
    [exact (H1 _ _ _ Hin) | exact (H2 _ _ _ Hin)].
Qed.

Lemma inside_kept_no_upsert (w w' : World) :
  inside_kept w w' → no_upsert_sent w w'.
Proof.
  intros [_ E]. unfold Assembly.no_upsert_sent. rewrite E.
  apply no_upsert_sent_refl.
Qed.

(** X22.  With an embedding service whose model is not loaded, no run ends
    [ready] and no point reaches the database: the call of the embedder
    raises [RuntimeError("Embedding model not loaded")], the run ends with
    that message as its error, the store is never asked to upsert, and no
    upsert request is sent. *)
Theorem unloaded_embedder_never_ready
    (file_path project_id document_id filename : string)
    (st : @State World (list Scalar)) :
  EmbeddingService._is_loaded embedder = false
  ∨ EmbeddingService._model embedder = None →
  let run := process_document processor file_path project_id document_id
               filename st in
  (∀ result, run.1 = Returned result → status result = error)
  ∧ (∀ texts batch_size o,
       mk_event (call_embed_batch texts batch_size) o ∈ new_calls st run →
       o = Raised (Exc "Embedding model not loaded")
       ∧ ∃ t, run.1
              = Returned
                  (mk_result document_id error 0
                     (Some "Embedding model not loaded") t))
  ∧ (∀ p cs vs o,
       mk_event (call_upsert_chunks p cs vs) o ∉ new_calls st run)
  ∧ (∀ n points a,
       VectorStore.mk_sent (VectorStore.req_upsert n points) a
       ∉ new_requests (world st) (world run.2)).
Proof.
  intros Hmodel. cbv zeta.
  pose proof (process_document_on_course processor file_path project_id
                document_id filename st) as Hc. cbv zeta in Hc.
  assert (Hraised : ∀ texts batch_size o,
            mk_event (call_embed_batch texts batch_size) o
            ∈ new_calls st
                (process_document processor file_path project_id document_id
                   filename st) →
            o = Raised (Exc "Embedding model not loaded")).
  { intros texts batch_size o Hin.
    destruct (course_event _ _ _ _ _ _ Hc Hin) as (w1 & w2 & Ha).
    cbn [answers Processor.embedder_embed_batch Assembly.DocumentProcessor]
      in Ha.
    unfold Assembly.on_outside in Ha.
    rewrite (embedder_unloaded texts batch_size _ Hmodel) in Ha.
    now inversion Ha. }
  assert (Hnone : ∀ p cs vs o,
            mk_event (call_upsert_chunks p cs vs) o
            ∉ new_calls st
                (process_document processor file_path project_id document_id
                   filename st)).
  { intros p cs vs o Hin.
    destruct (process_document_shape processor file_path project_id
                document_id filename st)
      as [[(s & n & msg & t & _ & _ & Hp)|(e & _ & _ & _ & Hp)] _].
    - destruct Hp as [|evs e0 Hi _| | | | |]; [|destruct Hi|..];
        try (upsert_event_steps Hin; fail).
      all: match goal with
           | H : length ?vs0 = length ?cs0 |- _ =>
               assert (Hemb : Returned (VVectors vs0)
                              = Raised (Exc "Embedding model not loaded"))
                 by (apply (Hraised (map Chunk.content cs0) 32);
                     do 3 right; left)
           end.
      all: discriminate Hemb.
    - destruct Hp; try (upsert_event_steps Hin; fail).
      all: match goal with
           | H : length ?vs0 = length ?cs0 |- _ =>
               assert (Hemb : Returned (VVectors vs0)
                              = Raised (Exc "Embedding model not loaded"))
                 by (apply (Hraised (map Chunk.content cs0) 32);
                     do 3 right; left)
           end.
      all: discriminate Hemb. }
  split; [|split; [|split; [exact Hnone|]]].
  - intros result Hres.
    destruct (process_document_shape processor file_path project_id
                document_id filename st)
      as [[(s & n & msg & t & Hr & _ & Hp)|(e & Hr & _)] _];
      [|rewrite Hr in Hres; discriminate].
    rewrite Hr in Hres. inversion Hres; subst result. simpl.
    destruct s; try reflexivity; inversion Hp; subst.
    match goal with
    | H : _ = new_calls _ _ |- _ =>
        destruct (Hnone project_id cs vs (Returned (VInt n)));
        rewrite <- H; do 4 right; left
    end.
  - intros texts batch_size o Hin. pose proof (Hraised _ _ _ Hin) as ->.
    split; [reflexivity|].
    destruct (process_document_shape processor file_path project_id
                document_id filename st)
      as [[(s & n & msg & t & Hr & _ & Hp)|(e & _ & He & _ & Hp)] _].
    + rewrite Hr.
      destruct Hp as [|evs e0 Hi _| | | | |]; [|destruct Hi|..];
        upsert_event_steps Hin.
    + destruct Hp; upsert_event_steps Hin.
  - assert (Hno : no_upsert_sent (world st)
                    (world
                       (process_document processor file_path project_id
                          document_id filename st).2)).
    { refine (course_kept_on processor
                (λ c, ∀ p cs vs, c ≠ call_upsert_chunks p cs vs)
                no_upsert_sent _ _ _ no_upsert_sent_refl
                no_upsert_sent_trans _ _ _ Hc).
      - intros w t w' H. exact (inside_kept_no_upsert _ _ (tick_kept _ _ _ H)).
      - intros c w o w' Hallowed H. destruct c.
        + exact (inside_kept_no_upsert _ _ (parse_kept _ _ _ _ _ H)).
        + destruct (chunk_step _ _ _ _ _ _ H) as (_ & _ & E).
          unfold Assembly.no_upsert_sent. rewrite E.
          apply no_upsert_sent_refl.
        + exact (inside_kept_no_upsert _ _ (embed_kept _ _ _ _ _ H)).
        + now destruct (Hallowed project_id0 chunks embeddings).
        + apply delete_step in H as (_ & E & _).
          destruct (delete_document_chunks_sent vector_store project_id0
                      document_id0 (qdrant w)) as [Hs Hn].
          eexists. rewrite E. split; [exact Hs | exact Hn].
      - apply Forall_forall. intros [c o] Hin p cs vs E. simpl in E.
        subst c. exact (Hnone _ _ _ _ Hin). }
    destruct Hno as (log & Hs & Hn). unfold Assembly.new_requests.
    rewrite Hs, drop_app_length. exact Hn.
Qed.


End AssemblyFacts.

(** ** The store and the assembly at sample inputs *)

Section StoreSamples.

Import Processor Run Shape Course Requests.

Lemma collection_name_cases_witness :
  VectorStore.hyphen_free "team-a" = false
  ∧ VectorStore.underscored "team-a" ≠ "team-a"
  ∧ VectorStore._get_collection_name "team-a"
    = VectorStore._get_collection_name "team_a".
Proof.
  assert (H : VectorStore.hyphen_free "team-a" = false) by reflexivity.
  split; [exact H|].
  destruct (collection_name_cases "team-a" "team_a")
    as (_ & _ & _ & Hsame & _ & Hne & _).
  split; [exact (Hne H) | exact (proj2 Hsame eq_refl)].
Defined.


Lemma delete_document_chunks_cases_witness :
  VectorStore.usable (sample_store 1) = Some (sample_client 1)
  ∧ ∀ n points a,
      VectorStore.mk_sent (VectorStore.req_upsert n points) a
      ∉ new_sent empty_database
          (VectorStore.delete_document_chunks (sample_store 1) "project-1"
             "doc-1" empty_database).
Proof.
  assert (H1 : VectorStore.usable (sample_store 1) = Some (sample_client 1))
    by reflexivity.
  split; [exact H1|].
  exact (proj2 (proj2 (proj2 (proj2 (proj2
           (delete_document_chunks_cases (sample_store 1) (sample_client 1)
              "project-1" "doc-1" empty_database H1)))))).
Defined.

Lemma sample_calls_keep_the_clock (c : @Call (list Z)) (w : nat)
    (o : Outcome Value) (w' : nat) :
  answers (sample_services 1 None) c w = (o, w') → (w <= w')%nat.
Proof.
  destruct c; cbn; intros H; inversion H; lia.
Qed.

Lemma world_changes_through_the_services_only_witness :
  (∀ w : nat, (w <= w)%nat)
  ∧ (∀ a b c : nat, (a <= b)%nat → (b <= c)%nat → (a <= c)%nat)
  ∧ (∀ w t w',
       time_time (sample_services 1 None) w = (t, w') → (w <= w')%nat)
  ∧ (∀ c w o w',
       answers (sample_services 1 None) c w = (o, w') → (w <= w')%nat)
  ∧ (world initial_state
     <= world
          (process_document (sample_services 1 None) "/uploads/a.txt"
             "project-1" "doc-1" "a.txt" initial_state).2)%nat.
Proof.
  assert (H1 : ∀ w : nat, (w <= w)%nat) by (intros; lia).
  assert (H2 : ∀ a b c : nat, (a <= b)%nat → (b <= c)%nat → (a <= c)%nat)
    by (intros; lia).
  assert (H3 : ∀ w t w',
            time_time (sample_services 1 None) w = (t, w') → (w <= w')%nat)
    by (intros w t w' H; inversion H; lia).
  split; [exact H1|]. split; [exact H2|]. split; [exact H3|].
  split; [exact sample_calls_keep_the_clock|].
  exact (proj1
           (world_changes_through_the_services_only (sample_services 1 None)
              "/uploads/a.txt" "project-1" "doc-1" "a.txt" initial_state
              (λ w w' : nat, (w <= w')%nat) H1 H2 H3
              sample_calls_keep_the_clock)).
Defined.

Lemma unusable_store_never_ready_witness :
  (VectorStore._is_connected unconnected_store = false
   ∨ VectorStore._client unconnected_store = None)
  ∧ Assembly.qdrant
      (world
         (process_document (sample_processor sample_embedder unconnected_store)
            "/uploads/a.txt" "project-1" "doc-1" "a.txt" sample_state).2)
    = Assembly.qdrant (world sample_state).
Proof.
  assert (H : VectorStore._is_connected unconnected_store = false
              ∨ VectorStore._client unconnected_store = None)
    by (left; reflexivity).
  split; [exact H|].
  exact (proj1
           (unusable_store_never_ready _ _ _ _ _ _ sample_embedder
              unconnected_store "/uploads/a.txt" "project-1" "doc-1" "a.txt"
              sample_state H)).
Defined.

Lemma unloaded_embedder_never_ready_witness :
  (EmbeddingService._is_loaded unloaded_embedder = false
   ∨ EmbeddingService._model unloaded_embedder = None)
  ∧ ∀ result,
      (process_document (sample_processor unloaded_embedder (sample_store 1))
         "/uploads/a.txt" "project-1" "doc-1" "a.txt" sample_state).1
      = Returned result →
      status result = error.
Proof.
  assert (H : EmbeddingService._is_loaded unloaded_embedder = false
              ∨ EmbeddingService._model unloaded_embedder = None)
    by (left; reflexivity).
  split; [exact H|].
  exact (proj1
           (unloaded_embedder_never_ready _ _ _ _ _ _ unloaded_embedder
              (sample_store 1) "/uploads/a.txt" "project-1" "doc-1" "a.txt"
              sample_state H)).
Defined.



End StoreSamples.
